(** * xsort: a context-aware stable sort for 64-bit elements

    Shallow embedding of [src/xsort.c] and verification of its specification.

    Modelling conventions.
    - An element ([uint64_t]) is an opaque token: the engine never looks at
      its bits, so the element type [E] is left abstract.
    - A pointer into a buffer is the buffer (a [list E], passed and returned
      explicitly) together with an offset; [p[i]] is the cell at [offset + i].
      Every access is bounds-checked: a read or a write outside the buffer is
      a fault ([None]).
    - [size_t] values are natural numbers.  Every size or index the code
      computes is bounded by the element count of the top-level call, so the
      only way 64-bit arithmetic could wrap is a subtraction below zero; such
      a subtraction is a fault ([None]) in the model.
    - The comparator is a function of the two elements (it is handed their
      addresses, and reads them) and of the context, whose state it may
      change: [cmp a b c = (result, c')].  The number of invocations is
      counted in the state, as a counting comparator would.
    - Allocation succeeds ([xmalloc] and [xrealloc] abort otherwise): the
      auxiliary buffer has [elements] cells of unknown contents, and growing
      the frame stack keeps its frames and doubles its capacity. *)

From Stdlib Require Import List Arith ZArith Lia Bool Permutation Sorted.
Import ListNotations.

(** ** Buffers *)

Section Buffers.
Context {E : Type}.

(** [b[i]] as an rvalue. *)
Definition load (b : list E) (i : nat) : option E := nth_error b i.

(** [b[i] = v]. *)
Definition store (b : list E) (i : nat) (v : E) : option (list E) :=
  if i <? length b then Some (firstn i b ++ v :: skipn (S i) b) else None.

(** The [n] cells from [b[i]] on, as [memcpy] and [memmove] read them. *)
Definition load_range (b : list E) (i n : nat) : option (list E) :=
  if i + n <=? length b then Some (firstn n (skipn i b)) else None.

(** The cells from [b[i]] on overwritten with [vs]. *)
Definition store_range (b : list E) (i : nat) (vs : list E) : option (list E) :=
  if i + length vs <=? length b
  then Some (firstn i b ++ vs ++ skipn (i + length vs) b)
  else None.
End Buffers.

(** ** The computation monad: comparator context, call counter, faults *)

Record cstate (Ctx : Type) : Type := CState { ctx : Ctx; ncmp : nat }.

Arguments CState {Ctx} _ _.
Arguments ctx {Ctx} _.
Arguments ncmp {Ctx} _.

Definition M (Ctx A : Type) : Type := cstate Ctx -> option (A * cstate Ctx).

Definition ret {Ctx A} (a : A) : M Ctx A := fun s => Some (a, s).

Definition bind {Ctx A B} (m : M Ctx A) (k : A -> M Ctx B) : M Ctx B :=
  fun s => match m s with
           | Some (a, s') => k a s'
           | None => None
           end.

Definition fault {Ctx A} : M Ctx A := fun _ => None.

Definition lift {Ctx A} (o : option A) : M Ctx A :=
  fun s => match o with
           | Some a => Some (a, s)
           | None => None
           end.

Declare Scope xs_scope.
Delimit Scope xs_scope with xs.
Notation "x <- m ;; k" := (bind m (fun x => k))
  (at level 61, m at next level, right associativity) : xs_scope.
Notation "' p <- m ;; k" := (bind m (fun x => match x with p => k end))
  (at level 61, p pattern, m at next level, right associativity) : xs_scope.
Open Scope xs_scope.

(** [typedef ptrdiff_t (*cmp_ctx_fn_t)(const void *, const void *, void *)] *)
Definition cmp_ctx_fn_t (E Ctx : Type) : Type := E -> E -> Ctx -> Z * Ctx.

(** One invocation [cmp(&a, &b, arg)]. *)
Definition call {E Ctx} (cmp : cmp_ctx_fn_t E Ctx) (a b : E) : M Ctx Z :=
  fun s => let (z, c) := cmp a b (ctx s) in
           Some (z, CState c (S (ncmp s))).

(** [n - 1] on [size_t]; wrapping below zero is a fault. *)
Definition dec {Ctx} (n : nat) : M Ctx nat :=
  match n with
  | 0 => fault
  | S k => ret k
  end.

(** ** Segment descriptor and partitioner *)

Record segment_t : Type := Segment {
  lh : nat;
  q1 : nat;
  q2 : nat;
  rh : nat;
  q3 : nat;
  q4 : nat
}.

Definition partition_array (elements : nat) : segment_t :=
  let left := elements / 2 in
  let right := elements - left in
  {| lh := left;
     q1 := left / 2;
     q2 := left - (left / 2);
     rh := right;
     q3 := right / 2;
     q4 := right - (right / 2) |}.

(** The same computation on 64-bit machine words, wrap-around written out. *)
Definition wrap64 (z : Z) : Z := (z mod 2 ^ 64)%Z.

Definition partition_array_w (elements : Z) : Z * Z * Z * Z * Z * Z :=
  let left := (elements / 2)%Z in
  let right := wrap64 (elements - left) in
  (left, (left / 2)%Z, wrap64 (left - left / 2),
   right, (right / 2)%Z, wrap64 (right - right / 2)).

(** ** The sorting kernel *)

Section Kernel.
Context {E Ctx : Type}.
Variable cmp : cmp_ctx_fn_t E Ctx.

Definition ld (b : list E) (i : nat) : M Ctx E := lift (load b i).
Definition st (b : list E) (i : nat) (v : E) : M Ctx (list E) := lift (store b i v).

(** [xchg_ctx(seg, cmp, arg)]: conditional swap of [seg[0]] and [seg[1]]
    without branching; yields [_res].  [seg] is a pointer into [b]. *)
Definition xchg_ctx (b : list E) (seg : nat) : M Ctx (bool * list E) :=
  x0 <- ld b seg ;;
  x1 <- ld b (seg + 1) ;;
  c <- call cmp x0 x1 ;;
  let _res := (0 <? c)%Z in
  _swap <- ld b (seg + (if negb _res then 1 else 0)) ;;
  v <- ld b (seg + (if _res then 1 else 0)) ;;
  b1 <- st b seg v ;;
  b2 <- st b1 (seg + 1) _swap ;;
  ret (_res, b2).

(** The inner [do ... while (pair >= seg)] of the default case.  [pair] is
    the offset of the pointer [pair] from [seg]; after [pair = &pair[-2]]
    the test [pair >= seg] holds when the offset was at least 2. *)
Fixpoint oddeven_sweep (b : list E) (seg pair : nat) (itr : Z) : M Ctx (Z * list E) :=
  '(r, b1) <- xchg_ctx b (seg + pair) ;;
  let itr1 := Z.lor itr (Z.b2z r) in
  match pair with
  | S (S p) => oddeven_sweep b1 seg p itr1
  | _ => ret (itr1, b1)
  end.

(** The outer [do ... while (itr-- && --elements)].  [elem] is the offset of
    the pointer [elem] from [seg]; [itr] is a [uint8_t]. *)
Fixpoint oddeven_loop (b : list E) (seg elem : nat) (z : bool) (itr : Z)
         (elements : nat) : M Ctx (list E) :=
  match elements with
  | 0 => fault
  | S e =>
      let z1 := negb z in
      '(itr1, b1) <- oddeven_sweep b seg (elem + (if z1 then 1 else 0)) itr ;;
      if (itr1 =? 0)%Z then ret b1
      else
        let itr2 := ((itr1 - 1) mod 256)%Z in
        match e with
        | 0 => ret b1
        | S _ => oddeven_loop b1 seg elem z1 itr2 e
        end
  end.

(** [oddeven_sort_ctx(seg, elements, cmp, arg)] *)
Definition oddeven_sort_ctx (b : list E) (seg elements : nat) : M Ctx (list E) :=
  match elements with
  | 0 => ret b
  | 1 => ret b
  | 2 =>
      '(_, b1) <- xchg_ctx b seg ;;
      ret b1
  | 3 =>
      '(_, b1) <- xchg_ctx b seg ;;
      '(r, b2) <- xchg_ctx b1 (seg + 1) ;;
      if negb r then ret b2
      else
        '(_, b3) <- xchg_ctx b2 seg ;;
        ret b3
  | _ => oddeven_loop b seg (elements - 3) true 1 elements
  end.

(** Cursors of the parity merge, all relative to [src] or [dst]. *)
Record cursors : Type := Cursors {
  i_ptd : nat;
  i_tpd : nat;
  i_ptl : nat;
  i_ptr : nat;
  i_tpl : nat;
  i_tpr : nat
}.

(** [dst[i_ptd++] = cmp(&src[i_ptl], &src[i_ptr], arg) <= 0 ? src[i_ptl++] : src[i_ptr++]] *)
Definition merge_head (sb : list E) (src : nat) (db : list E) (dst : nat)
           (c : cursors) : M Ctx (cursors * list E) :=
  a <- ld sb (src + i_ptl c) ;;
  b <- ld sb (src + i_ptr c) ;;
  r <- call cmp a b ;;
  if (r <=? 0)%Z then
    d <- st db (dst + i_ptd c) a ;;
    ret (Cursors (S (i_ptd c)) (i_tpd c) (S (i_ptl c)) (i_ptr c) (i_tpl c) (i_tpr c), d)
  else
    d <- st db (dst + i_ptd c) b ;;
    ret (Cursors (S (i_ptd c)) (i_tpd c) (i_ptl c) (S (i_ptr c)) (i_tpl c) (i_tpr c), d).

(** [dst[i_tpd--] = cmp(&src[i_tpl], &src[i_tpr], arg) > 0 ? src[i_tpl--] : src[i_tpr--]] *)
Definition merge_tail (sb : list E) (src : nat) (db : list E) (dst : nat)
           (c : cursors) : M Ctx (cursors * list E) :=
  a <- ld sb (src + i_tpl c) ;;
  b <- ld sb (src + i_tpr c) ;;
  r <- call cmp a b ;;
  if (0 <? r)%Z then
    d <- st db (dst + i_tpd c) a ;;
    tpd <- dec (i_tpd c) ;;
    tpl <- dec (i_tpl c) ;;
    ret (Cursors (i_ptd c) tpd (i_ptl c) (i_ptr c) tpl (i_tpr c), d)
  else
    d <- st db (dst + i_tpd c) b ;;
    tpd <- dec (i_tpd c) ;;
    tpr <- dec (i_tpr c) ;;
    ret (Cursors (i_ptd c) tpd (i_ptl c) (i_ptr c) (i_tpl c) tpr, d).

(** [dst[i_tpd] = cmp(&src[i_tpl], &src[i_tpr], arg) > 0 ? src[i_tpl] : src[i_tpr]] *)
Definition merge_last_tail (sb : list E) (src : nat) (db : list E) (dst : nat)
           (c : cursors) : M Ctx (list E) :=
  a <- ld sb (src + i_tpl c) ;;
  b <- ld sb (src + i_tpr c) ;;
  r <- call cmp a b ;;
  st db (dst + i_tpd c) (if (0 <? r)%Z then a else b).

(** [dst[i_ptd] = cmp(&src[i_ptl], &src[i_ptr], arg) <= 0 ? src[i_ptl] : src[i_ptr]] *)
Definition merge_last_head (sb : list E) (src : nat) (db : list E) (dst : nat)
           (c : cursors) : M Ctx (list E) :=
  a <- ld sb (src + i_ptl c) ;;
  b <- ld sb (src + i_ptr c) ;;
  r <- call cmp a b ;;
  st db (dst + i_ptd c) (if (r <=? 0)%Z then a else b).

(** [while (--left) { head; tail }], entered with [left >= 1]: [n] is the
    number of iterations, [left - 1]. *)
Fixpoint merge_loop (sb : list E) (src : nat) (db : list E) (dst : nat)
         (n : nat) (c : cursors) : M Ctx (cursors * list E) :=
  match n with
  | 0 => ret (c, db)
  | S n' =>
      '(c1, d1) <- merge_head sb src db dst c ;;
      '(c2, d2) <- merge_tail sb src d1 dst c1 ;;
      merge_loop sb src d2 dst n' c2
  end.

(** [parity_merge_ctx(src, dst, left, right, cmp, arg)]: [src] points into
    the buffer [sb], [dst] into the distinct buffer [db] ([restrict]); the
    new contents of [db] are returned. *)
Definition parity_merge_ctx (sb : list E) (src : nat) (db : list E) (dst : nat)
           (left right : nat) : M Ctx (list E) :=
  tpd0 <- dec (left + right) ;;
  let c0 := Cursors 0 tpd0 0 left 0 0 in
  '(c1, d1) <- (if left <? right then merge_head sb src db dst c0
                else ret (c0, db)) ;;
  tpl0 <- dec left ;;
  tpr0 <- dec (left + right) ;;
  let c2 := Cursors (i_ptd c1) (i_tpd c1) (i_ptl c1) (i_ptr c1) tpl0 tpr0 in
  '(c3, d3) <- merge_loop sb src d1 dst tpl0 c2 ;;
  d4 <- merge_last_tail sb src d3 dst c3 ;;
  merge_last_head sb src d4 dst c3.

(** [rotate(array, swap, left, right)]: [array] points into [ab]; [swap] is
    the start of the auxiliary buffer [wb].  Both buffers are returned. *)
Definition rotate (ab : list E) (array : nat) (wb : list E) (left right : nat)
  : option (list E * list E) :=
  match load_range ab array left with
  | None => None
  | Some t =>
      match store_range wb 0 t with
      | None => None
      | Some wb1 =>
          match load_range ab (array + left) right with
          | None => None
          | Some m =>
              match store_range ab array m with
              | None => None
              | Some ab1 =>
                  match load_range wb1 0 left with
                  | None => None
                  | Some t2 =>
                      match store_range ab1 (array + right) t2 with
                      | None => None
                      | Some ab2 => Some (ab2, wb1)
                      end
                  end
              end
          end
      end
  end.

(** ** The work-stack engine *)

(** The five resumption points of a frame ([&&ret_addr_0] .. [&&ret_addr_4]). *)
Inductive label : Type :=
  ret_addr_0 | ret_addr_1 | ret_addr_2 | ret_addr_3 | ret_addr_4.

(** [stack_frame_t]; [fr_data] is the offset of the frame's run in the
    caller's array. *)
Record stack_frame_t : Type := Frame {
  fr_data : nat;
  fr_elements : nat;
  fr_segment : segment_t;
  fr_ret_addr : label
}.

(** The state of one call: the frames [stk[0..stack_depth]] (top first, so
    [stack_depth] is the length minus one), [frame_capacity], the caller's
    array and the auxiliary buffer [swap]. *)
Record config : Type := Config {
  stk : list stack_frame_t;
  frame_capacity : nat;
  c_data : list E;
  c_swap : list E
}.

(** [stk[++stack_depth] = f], inside the [frame_capacity] allocated cells. *)
Definition push (cap : nat) (f : stack_frame_t) (s : list stack_frame_t)
  : M Ctx (list stack_frame_t) :=
  if length s <? cap then ret (f :: s) else fault.

(** [cmp(&b[i], &b[j], arg) <= 0] and [cmp(&b[i], &b[j], arg) > 0] *)
Definition le_at (b : list E) (i j : nat) : M Ctx bool :=
  x <- ld b i ;;
  y <- ld b j ;;
  r <- call cmp x y ;;
  ret (r <=? 0)%Z.

Definition gt_at (b : list E) (i j : nat) : M Ctx bool :=
  x <- ld b i ;;
  y <- ld b j ;;
  r <- call cmp x y ;;
  ret (0 <? r)%Z.

(** The three nested tests that end the frame with no further work. *)
Definition already_ordered (d : list E) (data : nat) (segment : segment_t)
  : M Ctx bool :=
  i1 <- dec (q1 segment) ;;
  t1 <- le_at d (data + i1) (data + q1 segment) ;;
  if t1 then
    i2 <- dec (lh segment) ;;
    t2 <- le_at d (data + i2) (data + lh segment) ;;
    if t2 then
      i3 <- dec (lh segment + q3 segment) ;;
      le_at d (data + i3) (data + (lh segment + q3 segment))
    else ret false
  else ret false.

(** The three nested tests that select the rotations. *)
Definition fully_reversed (d : list E) (data elements : nat) (segment : segment_t)
  : M Ctx bool :=
  i1 <- dec (lh segment) ;;
  t1 <- gt_at d (data + 0) (data + i1) ;;
  if t1 then
    i2 <- dec (lh segment + q3 segment) ;;
    t2 <- gt_at d (data + q1 segment) (data + i2) ;;
    if t2 then
      i3 <- dec elements ;;
      gt_at d (data + lh segment) (data + i3)
    else ret false
  else ret false.

(** Which way a frame left the merge-decision phase (not in the C code:
    recorded for the statements about the fast paths). *)
Inductive path : Type := Ordered | Rotated | Merged.

(** The code at [ret_addr_4]: the merge-decision phase of a frame, on the
    caller's array [d] and the auxiliary buffer [w]. *)
Definition merge_phase (d w : list E) (data elements : nat) (segment : segment_t)
  : M Ctx (path * list E * list E) :=
  o <- already_ordered d data segment ;;
  if o then ret (Ordered, d, w)
  else
    r <- fully_reversed d data elements segment ;;
    if r then
      '(d1, w1) <- lift (rotate d data w (q1 segment) (q2 segment + rh segment)) ;;
      '(d2, w2) <- lift (rotate d1 data w1 (q2 segment) (rh segment)) ;;
      '(d3, w3) <- lift (rotate d2 data w2 (q3 segment) (q4 segment)) ;;
      ret (Rotated, d3, w3)
    else
      w1 <- parity_merge_ctx d data w 0 (q1 segment) (q2 segment) ;;
      w2 <- parity_merge_ctx d (data + lh segment) w1 (lh segment)
              (q3 segment) (q4 segment) ;;
      d1 <- parity_merge_ctx w2 0 d data (lh segment) (rh segment) ;;
      ret (Merged, d1, w2).

(** The parent frame resumed at [next] and the child run pushed above it. *)
Definition schedule (cap : nat) (below : list stack_frame_t)
           (data elements : nat) (segment : segment_t) (next : label)
           (child child_elements : nat) : M Ctx (list stack_frame_t) :=
  s1 <- push cap (Frame data elements segment next) below ;;
  push cap (Frame child child_elements segment ret_addr_0) s1.

(** One iteration of [while (stack_depth >= 0)], entered with a frame on the
    stack.  The diagnostic printed when the stack grows is not modelled. *)
Definition step (c : config) : M Ctx config :=
  match stk c with
  | [] => ret c
  | stk_top :: below =>
      let cap := if frame_capacity c <=? length (stk c) + 1
                 then 2 * frame_capacity c else frame_capacity c in
      let data := fr_data stk_top in
      let elements := fr_elements stk_top in
      let segment := fr_segment stk_top in
      match fr_ret_addr stk_top with
      | ret_addr_0 =>
          if elements <=? 7 then
            d <- oddeven_sort_ctx (c_data c) data elements ;;
            ret (Config below cap d (c_swap c))
          else
            let segment := partition_array elements in
            s <- schedule cap below data elements segment ret_addr_1
                   (data + 0) (q1 segment) ;;
            ret (Config s cap (c_data c) (c_swap c))
      | ret_addr_1 =>
          s <- schedule cap below data elements segment ret_addr_2
                 (data + q1 segment) (q2 segment) ;;
          ret (Config s cap (c_data c) (c_swap c))
      | ret_addr_2 =>
          s <- schedule cap below data elements segment ret_addr_3
                 (data + lh segment) (q3 segment) ;;
          ret (Config s cap (c_data c) (c_swap c))
      | ret_addr_3 =>
          s <- schedule cap below data elements segment ret_addr_4
                 (data + (lh segment + q3 segment)) (q4 segment) ;;
          ret (Config s cap (c_data c) (c_swap c))
      | ret_addr_4 =>
          '(_, d, w) <- merge_phase (c_data c) (c_swap c) data elements segment ;;
          ret (Config below cap d w)
      end
  end.

(** How a call ends: it returns with the array and the comparator state, or
    it faults; [OutOfFuel] only says that the model was not run for long
    enough. *)
Inductive outcome : Type :=
| Done (d : list E) (s : cstate Ctx)
| Fault
| OutOfFuel.

Fixpoint run (fuel : nat) (c : config) (s : cstate Ctx) : outcome :=
  match stk c with
  | [] => Done (c_data c) s
  | _ :: _ =>
      match fuel with
      | 0 => OutOfFuel
      | S fuel' =>
          match step c s with
          | None => Fault
          | Some (c', s') => run fuel' c' s'
          end
      end
  end.

(** [k] iterations of the loop (an iteration on the empty stack, where the
    loop has exited, changes nothing). *)
Fixpoint steps (k : nat) (c : config) (s : cstate Ctx)
  : option (config * cstate Ctx) :=
  match k with
  | 0 => Some (c, s)
  | S k' =>
      match step c s with
      | None => None
      | Some (c', s') => steps k' c' s'
      end
  end.

(** The configuration at the first test of the loop.  [junk] is what the
    freshly allocated [swap] happens to hold; it has [elements] cells. *)
Definition xsort_init (junk ptr : list E) (elements : nat) : config :=
  {| stk := [Frame 0 elements (Segment 0 0 0 0 0 0) ret_addr_0];
     frame_capacity := 128;
     c_data := ptr;
     c_swap := junk |}.

(** [xsort(ptr, elements, cmp, arg)] *)
Definition xsort (fuel : nat) (junk ptr : list E) (elements : nat) (arg : Ctx)
  : outcome :=
  run fuel (xsort_init junk ptr elements) (CState arg 0).

End Kernel.

(** ** Specification-level definitions *)

Section MergeSpec.
Context {E : Type}.
(** [gtb a b] stands for [cmp(&a, &b, arg) > 0]. *)
Variable gtb : E -> E -> bool.

(** The stable merge, from the heads: the right element is taken only when
    the left one is greater. *)
Fixpoint merge (l r : list E) : list E :=
  match l with
  | [] => r
  | a :: l' =>
      (fix merge_aux (r : list E) : list E :=
         match r with
         | [] => l
         | b :: r' => if gtb a b then b :: merge_aux r' else a :: merge l' r
         end) r
  end.

(** The merge from the tails, on the reversed runs: the left element is
    taken only when it is greater.  The result is in descending order. *)
Fixpoint bmerge (l r : list E) : list E :=
  match l with
  | [] => r
  | a :: l' =>
      (fix bmerge_aux (r : list E) : list E :=
         match r with
         | [] => l
         | b :: r' => if gtb a b then a :: bmerge l' r else b :: bmerge_aux r'
         end) r
  end.
End MergeSpec.

Section OrderSpec.
Context {E : Type}.
Variable gtb : E -> E -> bool.

(** [a] may stand before [b]: [cmp(&a, &b, arg) <= 0]. *)
Definition le_of (a b : E) : Prop := gtb a b = false.

(** Every element may stand before every later one. *)
Definition sorted (l : list E) : Prop := StronglySorted le_of l.

(** [x] is in the class of [e]: neither is greater than the other. *)
Definition eqvb (e x : E) : bool := negb (gtb e x) && negb (gtb x e).

(** [l'] keeps the elements of every class in the order they have in [l]. *)
Definition stable (l l' : list E) : Prop :=
  forall e, filter (eqvb e) l' = filter (eqvb e) l.

(** The comparator as a strict weak order on booleans. *)
Record weak_order : Prop := WeakOrder {
  gtb_asym : forall a b, gtb a b = true -> gtb b a = false;
  le_trans : forall a b c, gtb a b = false -> gtb b c = false -> gtb a c = false
}.
End OrderSpec.

Arguments gtb_asym {E gtb} _ _ _ _.
Arguments le_trans {E gtb} _ _ _ _ _ _.

(** ** Ranks: the base-case sorter checked on every order pattern *)

(** The number of elements of [l] below [x]. *)
Definition rank {E : Type} (gtb : E -> E -> bool) (l : list E) (x : E) : nat :=
  length (filter (gtb x) l).

(** The comparator of ranks. *)
Definition rank_cmp : cmp_ctx_fn_t nat unit :=
  fun a b c => (if b <? a then 1%Z else 0%Z, c).

Fixpoint sortedb (l : list nat) : bool :=
  match l with
  | [] => true
  | x :: l' =>
      match l' with
      | [] => true
      | y :: _ => (x <=? y) && sortedb l'
      end
  end.

(** A list of ranks: every entry is the number of entries below it. *)
Definition rank_closed (l : list nat) : bool :=
  forallb (fun v => length (filter (fun w => w <? v) l) =? v) l.

Definition oddeven_sorts (n : nat) (l : list nat) : bool :=
  match oddeven_sort_ctx rank_cmp l 0 n (CState tt 0) with
  | Some (out, _) => sortedb out
  | None => false
  end.

(** [P] on every list of length [k] over [vals]. *)
Fixpoint all_lists (vals : list nat) (k : nat) (P : list nat -> bool) : bool :=
  match k with
  | 0 => P []
  | S k' => forallb (fun v => all_lists vals k' (fun l => P (v :: l))) vals
  end.

Definition oddeven_check (n : nat) : bool :=
  all_lists (seq 0 n) n
            (fun l => if rank_closed l then oddeven_sorts n l else true).

(** ** The merge-decision phase as a function of the four sorted quarters *)

Section PhaseSpec.
Context {E : Type}.
Variable gtb : E -> E -> bool.

(** What the parity merger writes for two runs whose lengths differ by at
    most one: the head front's part, then the tail front's part. *)
Definition parity_merge (l r : list E) : list E :=
  firstn (length r) (merge gtb l r)
  ++ rev (firstn (length l) (bmerge gtb (rev l) (rev r))).

(** The last element of [X] is not greater than the first of [Y]. *)
Definition ends_below (X Y : list E) : bool :=
  match rev X, Y with
  | a :: _, b :: _ => negb (gtb a b)
  | _, _ => false
  end.

(** The first element of [X] is greater than the last of [Y]. *)
Definition starts_above (X Y : list E) : bool :=
  match X, rev Y with
  | a :: _, b :: _ => gtb a b
  | _, _ => false
  end.

(** The outcome and the number of comparator calls of three nested tests. *)
Definition nested3 (t1 t2 t3 : bool) : bool * nat :=
  if t1 then if t2 then (t3, 3) else (false, 2) else (false, 1).

(** The path taken, the run left behind and the comparator calls made by
    the merge-decision phase on the quarters [A], [B], [C], [D]. *)
Definition phase_spec (A B C D : list E) : path * list E * nat :=
  let (o, no) := nested3 (ends_below A B) (ends_below B C) (ends_below C D) in
  if o then (Ordered, A ++ B ++ C ++ D, no)
  else
    let (r, nr) := nested3 (starts_above A B) (starts_above B C)
                           (starts_above C D) in
    if r then (Rotated, D ++ C ++ B ++ A, no + nr)
    else (Merged, parity_merge (parity_merge A B) (parity_merge C D),
          no + nr + 2 * length (A ++ B ++ C ++ D)).
End PhaseSpec.

(** ** The comparator as an order *)

Section ComparatorSpec.
Context {E Ctx : Type}.
Variable cmp : cmp_ctx_fn_t E Ctx.
Variable c0 : Ctx.

(** [cmp(&a, &b, arg) > 0] when the comparator is called at the context [c0]. *)
Definition gtb_of (a b : E) : bool := (0 <? fst (cmp a b c0))%Z.

(** [run'] is [run] sorted, with equal elements in their former order. *)
Definition sorted_from (run run' : list E) : Prop :=
  Permutation run run'
  /\ sorted gtb_of run'
  /\ stable gtb_of run run'.

(** A frame's effect on memory: only its run changes, into [sorted_from]
    it; the comparator context and the length of [swap] are kept. *)
Definition sorts_spec (data elements : nat) (d w : list E) (s : cstate Ctx)
           (d' w' : list E) (s' : cstate Ctx) : Prop :=
  forall pre run post kk,
    d = pre ++ run ++ post -> length pre = data -> length run = elements ->
    s = CState c0 kk -> elements <= length w ->
    exists run' kk',
      d' = pre ++ run' ++ post /\ s' = CState c0 kk'
      /\ length w' = length w /\ sorted_from run run'.
End ComparatorSpec.

(** The contexts the comparator can find itself in during a call that hands
    it the context [c0]. *)
Inductive reach {E Ctx : Type} (cmp : cmp_ctx_fn_t E Ctx) (c0 : Ctx) : Ctx -> Prop :=
| reach_start : reach cmp c0 c0
| reach_call a b c : reach cmp c0 c -> reach cmp c0 (snd (cmp a b c)).

(** A comparator is consistent from the context [c0] on when its answers do
    not change as its context evolves, the sign of [cmp a b] is the opposite
    of the sign of [cmp b a], and [<= 0] is transitive: a weak ordering,
    whose equal elements are those with [cmp a b = 0]. *)
Record consistent {E Ctx : Type} (cmp : cmp_ctx_fn_t E Ctx) (c0 : Ctx) : Prop :=
  Consistent {
    cmp_steady : forall a b c,
        reach cmp c0 c -> fst (cmp a b c) = fst (cmp a b c0);
    cmp_antisym : forall a b,
        Z.sgn (fst (cmp b a c0)) = (- Z.sgn (fst (cmp a b c0)))%Z;
    cmp_trans : forall a b c,
        (fst (cmp a b c0) <= 0)%Z -> (fst (cmp b c c0) <= 0)%Z ->
        (fst (cmp a c c0) <= 0)%Z
  }.

Arguments cmp_steady {E Ctx cmp c0} _ _ _ _ _.
Arguments cmp_antisym {E Ctx cmp c0} _ _ _.
Arguments cmp_trans {E Ctx cmp c0} _ _ _ _ _ _.

(** ** A comparator and its answers *)

Section AnswersSpec.
Context {E Ctx : Type}.
Variable cmp : cmp_ctx_fn_t E Ctx.
Variable c0 : Ctx.

(** The comparator that gives the answers of [cmp] at [c0] and leaves its
    context as it is. *)
Definition answers : cmp_ctx_fn_t E Ctx := fun a b c => (fst (cmp a b c0), c).

(** A state of a call with [cmp] and the state of the call with [answers]
    that has made the same number of comparisons. *)
Definition srel (s1 s2 : cstate Ctx) : Prop :=
  reach cmp c0 (ctx s1) /\ ctx s2 = c0 /\ ncmp s1 = ncmp s2.

(** Two computations that, from related states, fault together or return
    the same value in related states. *)
Definition mrel {A : Type} (m1 m2 : M Ctx A) : Prop :=
  forall s1 s2, srel s1 s2 ->
    match m1 s1, m2 s2 with
    | Some (a1, t1), Some (a2, t2) => a1 = a2 /\ srel t1 t2
    | None, None => True
    | _, _ => False
    end.
End AnswersSpec.

(** ** Blocks of a run *)

Section BlockSpec.
Context {E : Type}.
Variable gtb : E -> E -> bool.

(** No element of [X] is greater than an element of [Y]. *)
Definition all_le (X Y : list E) : Prop :=
  forall x y, In x X -> In y Y -> gtb x y = false.

(** Every element of [X] is greater than every element of [Y]. *)
Definition all_gt (X Y : list E) : Prop :=
  forall x y, In x X -> In y Y -> gtb x y = true.
End BlockSpec.

(** Every element is greater than every later one. *)
Definition descending {E : Type} (gtb : E -> E -> bool) (l : list E) : Prop :=
  StronglySorted (fun x y => gtb x y = true) l.

(** ** The engine as a recursion *)

Section EngineSpec.
Context {E Ctx : Type}.
Variable cmp : cmp_ctx_fn_t E Ctx.

(** What sorting the run of [elements] cells at [data] does to the array,
    the auxiliary buffer and the comparator state, and how many iterations
    of the engine's loop it takes: the four quarters in turn, then the
    merge-decision phase. *)
Inductive sorts : nat -> nat -> list E -> list E -> cstate Ctx ->
                  list E -> list E -> cstate Ctx -> nat -> Prop :=
| sorts_base data elements d w s d' s' :
    elements <= 7 ->
    oddeven_sort_ctx cmp d data elements s = Some (d', s') ->
    sorts data elements d w s d' w s' 1
| sorts_rec data elements d0 w0 s0 d1 w1 s1 d2 w2 s2 d3 w3 s3 d4 w4 s4
            k1 k2 k3 k4 p d' w' s' :
    7 < elements ->
    sorts (data + 0) (q1 (partition_array elements)) d0 w0 s0 d1 w1 s1 k1 ->
    sorts (data + q1 (partition_array elements))
          (q2 (partition_array elements)) d1 w1 s1 d2 w2 s2 k2 ->
    sorts (data + lh (partition_array elements))
          (q3 (partition_array elements)) d2 w2 s2 d3 w3 s3 k3 ->
    sorts (data + (lh (partition_array elements)
                   + q3 (partition_array elements)))
          (q4 (partition_array elements)) d3 w3 s3 d4 w4 s4 k4 ->
    merge_phase cmp d4 w4 data elements (partition_array elements) s4
    = Some (p, d', w', s') ->
    sorts data elements d0 w0 s0 d' w' s' (5 + k1 + k2 + k3 + k4).

(** The engine, started on a frame for the run, reaches after [k]
    iterations the stack below the frame with the memory changed from
    [d, w, s] to [d', w', s']; the stack never outgrows its capacity. *)
Definition simulates (data elements : nat) (d w : list E) (s : cstate Ctx)
           (d' w' : list E) (s' : cstate Ctx) (k : nat) : Prop :=
  forall below cap seg0,
    length below < cap ->
    exists cap',
      cap <= cap'
      /\ steps cmp k
               (Config (Frame data elements seg0 ret_addr_0 :: below) cap d w) s
         = Some (Config below cap' d' w', s').
End EngineSpec.

(** The capacity of the frame stack after the test at the head of the loop,
    made with [n] frames on the stack. *)
Definition grown (cap n : nat) : nat :=
  if cap <=? n + 1 then 2 * cap else cap.

(** A frame that waits at [ret_addr_1 .. ret_addr_4] was pushed by the code
    at [ret_addr_0] past the test [elements <= 7], with the descriptor of
    its run. *)
Definition frame_ok (f : stack_frame_t) : Prop :=
  fr_ret_addr f = ret_addr_0
  \/ (8 <= fr_elements f /\ fr_segment f = partition_array (fr_elements f)).

(** ** Cells written by the parity merger *)

Section CoverSpec.
Context {E : Type}.
Variable P : E -> Prop.
Variables (dp dq : list E) (T : nat).

(** The [T] cells of the destination run, between [dp] and [dq], of which
    the first [f] and the last [b] hold elements with the property [P]. *)
Definition covered (db : list E) (f b : nat) : Prop :=
  exists F mid B,
    db = dp ++ (F ++ mid ++ B) ++ dq
    /\ length F = f /\ length B = b /\ f + length mid + b = T
    /\ Forall P F /\ Forall P B.
End CoverSpec.

(** ** Comparators and inputs of the examples *)

(** Three-way comparison of integers; the context is not used. *)
Definition z_compare : cmp_ctx_fn_t Z unit :=
  fun a b c => (match (a ?= b)%Z with Lt => -1 | Eq => 0 | Gt => 1 end, c)%Z.

(** The same comparison, by a comparator that counts its calls in its
    context. *)
Definition counting_compare : cmp_ctx_fn_t Z nat :=
  fun a b c => (match (a ?= b)%Z with Lt => -1 | Eq => 0 | Gt => 1 end, S c)%Z.

(** Comparison of records by their first component alone. *)
Definition key_compare : cmp_ctx_fn_t (Z * Z) unit :=
  fun a b c => (match (fst a ?= fst b)%Z with Lt => -1 | Eq => 0 | Gt => 1 end, c)%Z.

(** A comparator that is not transitive: it is [z_compare], except that it
    puts 1 after 2 and after 3, and 0 after 3. *)
Definition cyclic_compare : cmp_ctx_fn_t Z unit :=
  fun a b c =>
    (if ((a =? 1) && (b =? 2) || (a =? 0) && (b =? 3) || (a =? 1) && (b =? 3))%bool%Z
     then 1 else fst (z_compare a b c), c)%Z.

(** ** The frame stack under a call *)

(** A stack, top first, under a call on [N] elements: the bottom frame holds
    at most [N] elements, and every frame that has a frame above it holds at
    least 8 elements and at least twice as many as the frame above. *)
Inductive chained (N : nat) : list stack_frame_t -> Prop :=
| chained_nil : chained N []
| chained_one f : fr_elements f <= N -> chained N [f]
| chained_cons f g rest :
    8 <= fr_elements g -> 2 * fr_elements f <= fr_elements g ->
    chained N (g :: rest) -> chained N (f :: g :: rest).

(** The frames are chained, each waiting frame has its descriptor, and the
    stack has never been reallocated. *)
Definition stack_ok {E : Type} (N : nat) (c : config (E := E)) : Prop :=
  chained N (stk c) /\ Forall frame_ok (stk c) /\ frame_capacity c = 128.

(** ** A destination run being filled from both ends *)

Section FilledSpec.
Context {E : Type}.
Variables (dp dq : list E) (T : nat).

(** The [T] cells of a destination run, between [dp] and [dq], of which the
    first cells hold [F] and the last cells hold [B]. *)
Definition filled (F B db : list E) : Prop :=
  exists mid,
    db = dp ++ (F ++ mid ++ B) ++ dq /\ length F + length mid + length B = T.
End FilledSpec.

(** * Proofs *)

(** ** Buffers: reads and writes inside a framed run *)

Lemma some_inj {A} (x y : A) : Some x = Some y -> x = y.
Proof. congruence. Qed.

Section BufferFacts.
Context {E : Type}.
Implicit Types (b pre post run : list E).

Lemma load_frame pre run post i x :
  load run i = Some x -> load (pre ++ run ++ post) (length pre + i) = Some x.
Proof.
  unfold load. intros H.
  rewrite nth_error_app2 by lia.
  replace (length pre + i - length pre) with i by lia.
  rewrite nth_error_app1; [assumption|].
  apply nth_error_Some. congruence.
Qed.

Lemma store_length b i v b' : store b i v = Some b' -> length b' = length b.
Proof.
  unfold store. destruct (Nat.ltb_spec i (length b)); [|discriminate].
  intros Heq. apply some_inj in Heq. subst b'.
  rewrite length_app. cbn [length].
  rewrite length_firstn, length_skipn. lia.
Qed.

Lemma store_some b i v : i < length b -> exists b', store b i v = Some b'.
Proof.
  intros H. unfold store. apply Nat.ltb_lt in H. rewrite H. eauto.
Qed.

Lemma load_some b i : i < length b -> exists x, load b i = Some x.
Proof.
  intros H. unfold load. destruct (nth_error b i) eqn:Hn; eauto.
  apply nth_error_None in Hn. lia.
Qed.

Lemma store_frame pre run post i v run' :
  store run i v = Some run' ->
  store (pre ++ run ++ post) (length pre + i) v = Some (pre ++ run' ++ post).
Proof.
  unfold store. destruct (Nat.ltb_spec i (length run)); [|discriminate].
  intros Heq. apply some_inj in Heq. subst run'.
  destruct (Nat.ltb_spec (length pre + i) (length (pre ++ run ++ post))) as [_|Hge].
  2:{ rewrite !length_app in Hge. lia. }
  f_equal.
  rewrite firstn_app, firstn_all2 by lia.
  replace (length pre + i - length pre) with i by lia.
  rewrite firstn_app.
  replace (i - length run) with 0 by lia. cbn [firstn]. rewrite app_nil_r.
  replace (S (length pre + i)) with (length pre + S i) by lia.
  rewrite skipn_app, (skipn_all2 pre) by lia.
  replace (length pre + S i - length pre) with (S i) by lia.
  rewrite skipn_app.
  replace (S i - length run) with 0 by lia. cbn [skipn app].
  rewrite <- !app_assoc. reflexivity.
Qed.

Lemma load_middle pre x post : load (pre ++ x :: post) (length pre) = Some x.
Proof.
  unfold load. rewrite nth_error_app2 by lia.
  now rewrite Nat.sub_diag.
Qed.

Lemma store_middle pre x post v :
  store (pre ++ x :: post) (length pre) v = Some (pre ++ v :: post).
Proof.
  unfold store. rewrite length_app. cbn [length].
  destruct (Nat.ltb_spec (length pre) (length pre + S (length post))); [|lia].
  f_equal.
  rewrite firstn_app, firstn_all, Nat.sub_diag. cbn [firstn]. rewrite app_nil_r.
  rewrite skipn_app, skipn_all2 by lia.
  replace (S (length pre) - length pre) with 1 by lia. reflexivity.
Qed.

Lemma split_at b i : i <= length b ->
  exists pre post, b = pre ++ post /\ length pre = i.
Proof.
  intros H. exists (firstn i b), (skipn i b). split.
  - symmetry. apply firstn_skipn.
  - rewrite length_firstn. lia.
Qed.

Lemma split_run b i n : i + n <= length b ->
  exists pre run post,
    b = pre ++ run ++ post /\ length pre = i /\ length run = n.
Proof.
  intros H.
  destruct (split_at b i) as (pre & rest & -> & Hp); [lia|].
  rewrite length_app in H.
  destruct (split_at rest n) as (run & post & -> & Hr); [lia|].
  exists pre, run, post. auto.
Qed.

Lemma ends_of (mid : list E) : 2 <= length mid ->
  exists m1 mid' m2, mid = m1 :: mid' ++ [m2].
Proof.
  intros H. destruct mid as [|m1 rest]; [cbn in H; lia|].
  destruct (exists_last (l:=rest)) as (mid' & m2 & ->).
  { destruct rest; [cbn in H; lia|discriminate]. }
  eauto.
Qed.

Lemma last_of (x : list E) : 0 < length x -> exists x' a, x = x' ++ [a].
Proof.
  intros H. destruct (exists_last (l:=x)) as (x' & a & ->).
  { destruct x; [cbn in H; lia|discriminate]. }
  eauto.
Qed.

Lemma head_of (x : list E) : 0 < length x -> exists a x', x = a :: x'.
Proof. destruct x; cbn; [lia|eauto]. Qed.

End BufferFacts.

(** ** Stepping through the monad *)

Lemma bind_some {Ctx A B} (m : M Ctx A) (k : A -> M Ctx B) s a s1 :
  m s = Some (a, s1) -> bind m k s = k a s1.
Proof. intros H. unfold bind. now rewrite H. Qed.

Lemma bind_inv {Ctx A B} (m : M Ctx A) (k : A -> M Ctx B) s r :
  bind m k s = Some r -> exists a s1, m s = Some (a, s1) /\ k a s1 = Some r.
Proof.
  unfold bind. destruct (m s) as [[a s1]|]; [eauto|discriminate].
Qed.

Lemma lift_inv {Ctx A} (o : option A) (s : cstate Ctx) a s1 :
  lift o s = Some (a, s1) -> o = Some a /\ s1 = s.
Proof. unfold lift. destruct o; [intros [= <- <-]; auto|discriminate]. Qed.

Lemma call_inv {E Ctx} (cmp : cmp_ctx_fn_t E Ctx) a b s z s1 :
  call cmp a b s = Some (z, s1) ->
  cmp a b (ctx s) = (z, ctx s1) /\ ncmp s1 = S (ncmp s).
Proof.
  unfold call. destruct (cmp a b (ctx s)) as [z' c']. intros [= <- <-]. auto.
Qed.

Lemma dec_pos {Ctx} n (s : cstate Ctx) : 0 < n -> dec n s = Some (n - 1, s).
Proof.
  destruct n; [lia|]. intros _. cbn. now rewrite Nat.sub_0_r.
Qed.

(** Normalise the lengths of appended and consed lists in the hypotheses. *)
Ltac norm_len :=
  repeat match goal with
         | H : context [length (_ ++ _)] |- _ => rewrite length_app in H
         | H : context [length (_ :: _)] |- _ => cbn [length] in H
         end.

(** Equalities of lists up to the association of [++] and [::]. *)
Ltac list_eq :=
  repeat (rewrite <- app_assoc || rewrite <- app_comm_cons);
  cbn [app]; reflexivity.

(** Side conditions on the decomposition of a run and on cursors. *)
Ltac decomp_side :=
  try assumption; try lia; try reflexivity;
  try match goal with
      | H : ?x = _ |- ?x = _ => rewrite H; list_eq
      end.

Lemma some_state_eq {Ctx A} (a a' : A) (c : Ctx) k k' :
  a = a' -> k = k' -> Some (a, CState c k) = Some (a', CState c k').
Proof. now intros -> ->. Qed.

(** Invert one monadic step of a hypothesis [H : (x <- m ;; k) s = Some r]. *)
Lemma bind_assoc_eq {Ctx A B C} (m : M Ctx A) (f : A -> M Ctx B)
      (g : B -> M Ctx C) s :
  bind (bind m f) g s = bind m (fun a => bind (f a) g) s.
Proof. unfold bind. destruct (m s) as [[a s1]|]; reflexivity. Qed.

Ltac mrew H :=
  rewrite ?bind_assoc_eq;
  first [ rewrite (bind_some _ _ _ _ _ H); cbv beta iota
        | erewrite bind_some; [|eapply H]; cbv beta iota ].

Ltac minv H :=
  let a := fresh "a" in
  let s1 := fresh "s" in
  let H1 := fresh "Hm" in
  apply bind_inv in H; destruct H as (a & s1 & H1 & H).

Section KernelFacts.
Context {E Ctx : Type}.
Variable cmp : cmp_ctx_fn_t E Ctx.
Implicit Types (b pre post run : list E) (s : cstate Ctx).

(** What one compare-exchange does, for any comparator. *)
Lemma xchg_ctx_spec pre x y post s :
  xchg_ctx cmp (pre ++ x :: y :: post) (length pre) s =
  Some ((0 <? fst (cmp x y (ctx s)))%Z,
        pre ++ (if (0 <? fst (cmp x y (ctx s)))%Z then [y; x] else [x; y]) ++ post,
        CState (snd (cmp x y (ctx s))) (S (ncmp s))).
Proof.
  unfold xchg_ctx, ld, st.
  assert (H0 : load (pre ++ x :: y :: post) (length pre) = Some x)
    by apply load_middle.
  assert (H1 : load (pre ++ x :: y :: post) (length pre + 1) = Some y).
  { replace (pre ++ x :: y :: post) with ((pre ++ [x]) ++ y :: post)
      by now rewrite <- app_assoc.
    replace (length pre + 1) with (length (pre ++ [x]))
      by (rewrite length_app; reflexivity).
    apply load_middle. }
  assert (H2 : forall v, store (pre ++ x :: y :: post) (length pre) v
                         = Some (pre ++ v :: y :: post))
    by (intros v; apply store_middle).
  assert (H3 : forall u v, store (pre ++ u :: y :: post) (length pre + 1) v
                           = Some (pre ++ u :: v :: post)).
  { intros u v.
    replace (pre ++ u :: y :: post) with ((pre ++ [u]) ++ y :: post)
      by now rewrite <- app_assoc.
    replace (length pre + 1) with (length (pre ++ [u]))
      by (rewrite length_app; reflexivity).
    rewrite store_middle. now rewrite <- app_assoc. }
  unfold bind, lift, call, ret. rewrite H0, H1.
  destruct (cmp x y (ctx s)) as [z c']. cbn [fst snd].
  destruct (0 <? z)%Z; cbn [negb]; rewrite Nat.add_0_r, H0, H1, H2, H3;
    reflexivity.
Qed.

Lemma split_pair b i : i + 1 < length b ->
  exists pre x y post, b = pre ++ x :: y :: post /\ length pre = i.
Proof.
  intros H.
  destruct (split_at b i) as (pre & rest & -> & Hp); [lia|].
  rewrite length_app in H.
  destruct rest as [|x [|y post]]; cbn [length] in H; try lia.
  exists pre, x, y, post. auto.
Qed.

Lemma xchg_ctx_oob b i s : length b <= i + 1 -> xchg_ctx cmp b i s = None.
Proof.
  intros H. unfold xchg_ctx, ld, bind, lift, load.
  destruct (nth_error b i); [|reflexivity].
  assert (Hn : nth_error b (i + 1) = None) by now apply nth_error_None.
  now rewrite Hn.
Qed.

(** A compare-exchange that returns has compared and ordered two
    neighbouring cells. *)
Lemma xchg_ctx_inv b i s r b' s' :
  xchg_ctx cmp b i s = Some (r, b', s') ->
  exists pre x y post,
    b = pre ++ x :: y :: post /\ length pre = i /\
    r = (0 <? fst (cmp x y (ctx s)))%Z /\
    b' = pre ++ (if r then [y; x] else [x; y]) ++ post /\
    s' = CState (snd (cmp x y (ctx s))) (S (ncmp s)).
Proof.
  intros H.
  destruct (Nat.le_gt_cases (length b) (i + 1)) as [Hle|Hlt].
  - rewrite xchg_ctx_oob in H by assumption. discriminate.
  - destruct (split_pair b i Hlt) as (pre & x & y & post & -> & Hp).
    subst i. rewrite xchg_ctx_spec in H. apply some_inj in H.
    inversion H; subst. exists pre, x, y, post. auto.
Qed.

Lemma xchg_ctx_safe b i s : i + 1 < length b ->
  exists r b' s', xchg_ctx cmp b i s = Some (r, b', s')
                  /\ length b' = length b.
Proof.
  intros H. destruct (split_pair b i H) as (pre & x & y & post & -> & Hp).
  subst i. rewrite xchg_ctx_spec. do 3 eexists. split; [reflexivity|].
  rewrite !length_app. destruct (0 <? _)%Z; reflexivity.
Qed.

Lemma oddeven_sweep_safe seg p : forall b itr s,
  seg + p + 1 < length b ->
  exists itr' b' s', oddeven_sweep cmp b seg p itr s = Some (itr', b', s')
                     /\ length b' = length b.
Proof.
  induction p as [p IH] using lt_wf_ind. intros b itr s H.
  destruct (xchg_ctx_safe b (seg + p) s) as (r & b1 & s1 & Hx & Hl); [lia|].
  destruct p as [|[|p]]; cbn [oddeven_sweep]; mrew Hx.
  - unfold ret. eauto.
  - unfold ret. eauto.
  - destruct (IH p ltac:(lia) b1 (Z.lor itr (Z.b2z r)) s1)
      as (itr' & b' & s' & Hs & Hl'); [lia|].
    rewrite Hs. exists itr', b', s'. split; [reflexivity|lia].
Qed.

Lemma oddeven_loop_safe seg elem elements : forall b z itr s,
  0 < elements -> seg + elem + 2 < length b ->
  exists b' s', oddeven_loop cmp b seg elem z itr elements s = Some (b', s')
                /\ length b' = length b.
Proof.
  induction elements as [|e IH]; intros b z itr s He H; [lia|].
  cbn [oddeven_loop].
  destruct (oddeven_sweep_safe seg (elem + (if negb z then 1 else 0)) b itr s)
    as (itr1 & b1 & s1 & Hs & Hl).
  { destruct (negb z); lia. }
  mrew Hs. destruct (itr1 =? 0)%Z.
  - unfold ret. eauto.
  - destruct e.
    + unfold ret. eauto.
    + destruct (IH b1 (negb z) ((itr1 - 1) mod 256)%Z s1)
        as (b' & s' & Hs' & Hl'); [lia|lia|].
      rewrite Hs'. exists b', s'. split; [reflexivity|lia].
Qed.

(** The base-case sorter stays inside its run, whatever the comparator
    answers. *)
Lemma oddeven_sort_ctx_safe b seg elements s :
  seg + elements <= length b ->
  exists b' s', oddeven_sort_ctx cmp b seg elements s = Some (b', s')
                /\ length b' = length b.
Proof.
  intros H.
  destruct elements as [|[|[|[|n]]]]; cbn [oddeven_sort_ctx].
  - unfold ret. eauto.
  - unfold ret. eauto.
  - destruct (xchg_ctx_safe b seg s) as (r & b1 & s1 & Hx & Hl); [lia|].
    mrew Hx. unfold ret. eauto.
  - destruct (xchg_ctx_safe b seg s) as (r & b1 & s1 & Hx & Hl); [lia|].
    mrew Hx.
    destruct (xchg_ctx_safe b1 (seg + 1) s1) as (r2 & b2 & s2 & Hx2 & Hl2);
      [lia|].
    mrew Hx2. destruct r2; cbn [negb].
    + destruct (xchg_ctx_safe b2 seg s2) as (r3 & b3 & s3 & Hx3 & Hl3); [lia|].
      mrew Hx3. unfold ret. exists b3, s3. split; [reflexivity|lia].
    + unfold ret. exists b2, s2. split; [reflexivity|lia].
  - apply oddeven_loop_safe; lia.
Qed.

End KernelFacts.

(** ** The base-case sorter: two runs related step by step *)

Section OddevenRel.
Context {E1 E2 Ctx1 Ctx2 : Type}.
Variable cmp1 : cmp_ctx_fn_t E1 Ctx1.
Variable cmp2 : cmp_ctx_fn_t E2 Ctx2.
Variable T : list E1 -> cstate Ctx1 -> list E2 -> cstate Ctx2 -> Prop.
Variables seg1 seg2 : nat.

Hypothesis xchg_rel : forall i b1 s1 b2 s2 r b1' s1',
  T b1 s1 b2 s2 ->
  xchg_ctx cmp1 b1 (seg1 + i) s1 = Some (r, b1', s1') ->
  exists b2' s2',
    xchg_ctx cmp2 b2 (seg2 + i) s2 = Some (r, b2', s2') /\ T b1' s1' b2' s2'.

Lemma oddeven_sweep_rel p : forall itr b1 s1 b2 s2 itr' b1' s1',
  T b1 s1 b2 s2 ->
  oddeven_sweep cmp1 b1 seg1 p itr s1 = Some (itr', b1', s1') ->
  exists b2' s2',
    oddeven_sweep cmp2 b2 seg2 p itr s2 = Some (itr', b2', s2')
    /\ T b1' s1' b2' s2'.
Proof.
  induction p as [p IH] using lt_wf_ind.
  intros itr b1 s1 b2 s2 itr' b1' s1' HT H.
  destruct p as [|[|p]]; cbn [oddeven_sweep] in *;
    minv H; destruct a as [r b];
    destruct (xchg_rel _ _ _ _ _ _ _ _ HT Hm) as (b2' & s2' & Hx & HT'); mrew Hx.
  - unfold ret in *. apply some_inj in H. inversion H; subst. eauto.
  - unfold ret in *. apply some_inj in H. inversion H; subst. eauto.
  - eapply IH; eauto.
Qed.

Lemma oddeven_loop_rel elem elements : forall z itr b1 s1 b2 s2 b1' s1',
  T b1 s1 b2 s2 ->
  oddeven_loop cmp1 b1 seg1 elem z itr elements s1 = Some (b1', s1') ->
  exists b2' s2',
    oddeven_loop cmp2 b2 seg2 elem z itr elements s2 = Some (b2', s2')
    /\ T b1' s1' b2' s2'.
Proof.
  induction elements as [|e IH]; intros z itr b1 s1 b2 s2 b1' s1' HT H;
    cbn [oddeven_loop] in *; [discriminate|].
  minv H. destruct a as [itr1 b].
  destruct (oddeven_sweep_rel _ _ _ _ _ _ _ _ _ HT Hm) as (b2' & s2' & Hx & HT'). mrew Hx.
  destruct (itr1 =? 0)%Z.
  - unfold ret in *. apply some_inj in H. inversion H; subst. eauto.
  - destruct e.
    + unfold ret in *. apply some_inj in H. inversion H; subst. eauto.
    + eapply IH; eauto.
Qed.

Lemma oddeven_sort_ctx_rel elements b1 s1 b2 s2 b1' s1' :
  T b1 s1 b2 s2 ->
  oddeven_sort_ctx cmp1 b1 seg1 elements s1 = Some (b1', s1') ->
  exists b2' s2',
    oddeven_sort_ctx cmp2 b2 seg2 elements s2 = Some (b2', s2')
    /\ T b1' s1' b2' s2'.
Proof.
  intros HT H.
  assert (X0 : forall b1 s1 b2 s2 r b1' s1',
    T b1 s1 b2 s2 ->
    xchg_ctx cmp1 b1 seg1 s1 = Some (r, b1', s1') ->
    exists b2' s2',
      xchg_ctx cmp2 b2 seg2 s2 = Some (r, b2', s2') /\ T b1' s1' b2' s2').
  { intros. rewrite <- (Nat.add_0_r seg2).
    eapply xchg_rel; eauto. now rewrite Nat.add_0_r. }
  destruct elements as [|[|[|[|n]]]]; cbn [oddeven_sort_ctx] in *.
  - unfold ret in *. apply some_inj in H. inversion H; subst. eauto.
  - unfold ret in *. apply some_inj in H. inversion H; subst. eauto.
  - minv H. destruct a as [r b].
    destruct (X0 _ _ _ _ _ _ _ HT Hm) as (b2' & s2' & Hx & HT'). mrew Hx.
    unfold ret in *. apply some_inj in H. inversion H; subst. eauto.
  - minv H. destruct a as [r b].
    destruct (X0 _ _ _ _ _ _ _ HT Hm) as (b2' & s2' & Hx & HT'). mrew Hx.
    minv H. destruct a as [r' b'].
    destruct (xchg_rel _ _ _ _ _ _ _ _ HT' Hm0) as (b3 & t3 & Hx' & HT''). mrew Hx'.
    destruct r'; cbn [negb] in *.
    + minv H. destruct a as [r'' b''].
      destruct (X0 _ _ _ _ _ _ _ HT'' Hm1) as (b4 & t4 & Hx'' & HT3). mrew Hx''.
      unfold ret in *. apply some_inj in H. inversion H; subst. eauto.
    + unfold ret in *. apply some_inj in H. inversion H; subst. eauto.
  - eapply oddeven_loop_rel; eauto.
Qed.
End OddevenRel.

(** ** The parity merger stays inside its runs *)

Section MergeSafe.
Context {E Ctx : Type}.
Variable cmp : cmp_ctx_fn_t E Ctx.
Variables (sb : list E) (src dst T : nat).
Hypothesis Hsrc : src + T <= length sb.

Lemma ld_safe (b : list E) i (s : cstate Ctx) : i < length b ->
  exists x, ld b i s = Some (x, s).
Proof.
  intros H. destruct (load_some b i H) as [x Hx].
  exists x. unfold ld, lift. now rewrite Hx.
Qed.

Lemma st_safe (b : list E) i v (s : cstate Ctx) : i < length b ->
  exists b', st b i v s = Some (b', s) /\ length b' = length b.
Proof.
  intros H. destruct (store_some b i v H) as [b' Hb].
  exists b'. unfold st, lift. rewrite Hb. split; [reflexivity|].
  eapply store_length; eauto.
Qed.

Lemma call_safe (a b : E) (s : cstate Ctx) :
  exists z s', call cmp a b s = Some (z, s') /\ ncmp s' = S (ncmp s).
Proof.
  unfold call. destruct (cmp a b (ctx s)) as [z c]. do 2 eexists.
  split; reflexivity.
Qed.

Lemma merge_head_safe db c s :
  dst + T <= length db ->
  i_ptl c < T -> i_ptr c < T -> i_ptd c < T ->
  exists c' db' s',
    merge_head cmp sb src db dst c s = Some (c', db', s')
    /\ length db' = length db /\ ncmp s' = S (ncmp s)
    /\ i_ptd c' = S (i_ptd c)
    /\ i_ptl c <= i_ptl c' <= S (i_ptl c)
    /\ i_ptr c <= i_ptr c' <= S (i_ptr c)
    /\ i_tpd c' = i_tpd c /\ i_tpl c' = i_tpl c /\ i_tpr c' = i_tpr c.
Proof.
  intros Hd H1 H2 H3. unfold merge_head.
  destruct (ld_safe sb (src + i_ptl c) s) as [a Ha]; [lia|]. mrew Ha.
  destruct (ld_safe sb (src + i_ptr c) s) as [b Hb]; [lia|]. mrew Hb.
  destruct (call_safe a b s) as (z & s' & Hc & Hn). mrew Hc.
  destruct (z <=? 0)%Z.
  - destruct (st_safe db (dst + i_ptd c) a s') as (db' & Hs & Hl); [lia|].
    mrew Hs. unfold ret. do 3 eexists. split; [reflexivity|].
    cbn. repeat split; auto; lia.
  - destruct (st_safe db (dst + i_ptd c) b s') as (db' & Hs & Hl); [lia|].
    mrew Hs. unfold ret. do 3 eexists. split; [reflexivity|].
    cbn. repeat split; auto; lia.
Qed.

Lemma merge_tail_safe db c s :
  dst + T <= length db ->
  0 < i_tpl c < T -> 0 < i_tpr c < T -> 0 < i_tpd c < T ->
  exists c' db' s',
    merge_tail cmp sb src db dst c s = Some (c', db', s')
    /\ length db' = length db /\ ncmp s' = S (ncmp s)
    /\ S (i_tpd c') = i_tpd c
    /\ i_tpl c' <= i_tpl c <= S (i_tpl c')
    /\ i_tpr c' <= i_tpr c <= S (i_tpr c')
    /\ i_ptd c' = i_ptd c /\ i_ptl c' = i_ptl c /\ i_ptr c' = i_ptr c.
Proof.
  intros Hd H1 H2 H3. unfold merge_tail.
  destruct (ld_safe sb (src + i_tpl c) s) as [a Ha]; [lia|]. mrew Ha.
  destruct (ld_safe sb (src + i_tpr c) s) as [b Hb]; [lia|]. mrew Hb.
  destruct (call_safe a b s) as (z & s' & Hc & Hn). mrew Hc.
  destruct (i_tpd c) as [|tpd] eqn:Etpd; [lia|].
  destruct (i_tpl c) as [|tpl] eqn:Etpl; [lia|].
  destruct (i_tpr c) as [|tpr] eqn:Etpr; [lia|].
  destruct (0 <? z)%Z.
  - destruct (st_safe db (dst + S tpd) a s') as (db' & Hs & Hl); [lia|].
    mrew Hs. cbn [dec]. unfold bind, ret. do 3 eexists.
    split; [reflexivity|]. cbn. repeat split; auto; lia.
  - destruct (st_safe db (dst + S tpd) b s') as (db' & Hs & Hl); [lia|].
    mrew Hs. cbn [dec]. unfold bind, ret. do 3 eexists.
    split; [reflexivity|]. cbn. repeat split; auto; lia.
Qed.

Lemma merge_loop_safe n : forall db c s,
  dst + T <= length db ->
  i_ptl c + n < T -> i_ptr c + n < T -> i_ptd c + n < T ->
  n <= i_tpl c < T -> n <= i_tpr c < T -> n <= i_tpd c < T ->
  exists c' db' s',
    merge_loop cmp sb src db dst n c s = Some (c', db', s')
    /\ length db' = length db /\ ncmp s' = ncmp s + 2 * n
    /\ i_ptl c' < T /\ i_ptr c' < T /\ i_ptd c' < T
    /\ i_tpl c' < T /\ i_tpr c' < T /\ i_tpd c' < T.
Proof.
  induction n as [|n IH]; intros db c s Hd H1 H2 H3 H4 H5 H6;
    cbn [merge_loop].
  - unfold ret. do 3 eexists. split; [reflexivity|].
    repeat split; auto; lia.
  - destruct (merge_head_safe db c s) as (c1 & d1 & s1 & Hh & Hl1 & Hn1 & Q);
      try lia.
    mrew Hh.
    destruct (merge_tail_safe d1 c1 s1) as (c2 & d2 & s2 & Ht & Hl2 & Hn2 & Q');
      try lia.
    mrew Ht.
    destruct (IH d2 c2 s2) as (c3 & d3 & s3 & Hlp & Hl3 & Hn3 & Q''); try lia.
    rewrite Hlp. do 3 eexists. split; [reflexivity|].
    repeat split; try lia.
Qed.

Lemma merge_last_tail_safe db c s :
  dst + T <= length db -> i_tpl c < T -> i_tpr c < T -> i_tpd c < T ->
  exists db' s',
    merge_last_tail cmp sb src db dst c s = Some (db', s')
    /\ length db' = length db /\ ncmp s' = S (ncmp s).
Proof.
  intros Hd H1 H2 H3. unfold merge_last_tail.
  destruct (ld_safe sb (src + i_tpl c) s) as [a Ha]; [lia|]. mrew Ha.
  destruct (ld_safe sb (src + i_tpr c) s) as [b Hb]; [lia|]. mrew Hb.
  destruct (call_safe a b s) as (z & s' & Hc & Hn). mrew Hc.
  destruct (st_safe db (dst + i_tpd c) (if (0 <? z)%Z then a else b) s')
    as (db' & Hs & Hl); [lia|].
  rewrite Hs. eauto.
Qed.

Lemma merge_last_head_safe db c s :
  dst + T <= length db -> i_ptl c < T -> i_ptr c < T -> i_ptd c < T ->
  exists db' s',
    merge_last_head cmp sb src db dst c s = Some (db', s')
    /\ length db' = length db /\ ncmp s' = S (ncmp s).
Proof.
  intros Hd H1 H2 H3. unfold merge_last_head.
  destruct (ld_safe sb (src + i_ptl c) s) as [a Ha]; [lia|]. mrew Ha.
  destruct (ld_safe sb (src + i_ptr c) s) as [b Hb]; [lia|]. mrew Hb.
  destruct (call_safe a b s) as (z & s' & Hc & Hn). mrew Hc.
  destruct (st_safe db (dst + i_ptd c) (if (z <=? 0)%Z then a else b) s')
    as (db' & Hs & Hl); [lia|].
  rewrite Hs. eauto.
Qed.
End MergeSafe.

(** Whatever the comparator answers, a merge of runs of lengths
    [1 <= left <= right] reads only the [left + right] cells at [src], writes
    only inside the [left + right] cells at [dst], and invokes the comparator
    [2 * left] times, and once more when [left < right]. *)
Lemma parity_merge_ctx_safe {E Ctx} (cmp : cmp_ctx_fn_t E Ctx)
      (sb : list E) src (db : list E) dst left right (s : cstate Ctx) :
  1 <= left <= right ->
  src + (left + right) <= length sb ->
  dst + (left + right) <= length db ->
  exists db' s',
    parity_merge_ctx cmp sb src db dst left right s = Some (db', s')
    /\ length db' = length db
    /\ ncmp s' = ncmp s + 2 * left + (if left <? right then 1 else 0).
Proof.
  intros HLR Hs Hd. unfold parity_merge_ctx.
  destruct (left + right) as [|t] eqn:Et; [lia|]. cbn [dec].
  unfold bind at 1. unfold ret at 1.
  set (c0 := Cursors 0 t 0 left 0 0).
  assert (Hhead : exists c1 d1 s1,
    (if left <? right then merge_head cmp sb src db dst c0 else ret (c0, db)) s
      = Some (c1, d1, s1)
    /\ length d1 = length db
    /\ ncmp s1 = ncmp s + (if left <? right then 1 else 0)
    /\ i_ptd c1 = (if left <? right then 1 else 0)
    /\ i_ptl c1 <= (if left <? right then 1 else 0)
    /\ i_ptr c1 <= left + (if left <? right then 1 else 0)
    /\ i_tpd c1 = t).
  { destruct (Nat.ltb_spec left right) as [Hlt|Hge].
    - destruct (merge_head_safe cmp sb src dst (S t) Hs db c0 s)
        as (c1 & d1 & s1 & Hh & Hl & Hn & Q); cbn; try lia.
      cbn in Q. exists c1, d1, s1. repeat split; try tauto; lia.
    - unfold ret. exists c0, db, s. cbn. repeat split; auto; lia. }
  destruct Hhead as (c1 & d1 & s1 & Hh & Hl1 & Hn1 & P1 & P2 & P3 & P4).
  mrew Hh.
  destruct left as [|l']; [lia|]. cbn [dec].
  unfold bind at 1. unfold ret at 1. unfold bind at 1. unfold ret at 1.
  set (c2 := Cursors _ _ _ _ _ _).
  assert (Hb : (if S l' <? right then 1 else 0) <= 1)
    by (destruct (S l' <? right); lia).
  assert (Hb' : S l' + (if S l' <? right then 1 else 0) <= right)
    by (destruct (Nat.ltb_spec (S l') right); lia).
  destruct (merge_loop_safe cmp sb src dst (S t) Hs l' d1 c2 s1)
    as (c3 & d3 & s3 & Hlp & Hl3 & Hn3 & Q); subst c2;
    cbn [i_ptl i_ptr i_ptd i_tpl i_tpr i_tpd]; try lia.
  mrew Hlp.
  destruct (merge_last_tail_safe cmp sb src dst (S t) Hs d3 c3 s3)
    as (d4 & s4 & Hlt & Hl4 & Hn4); try lia.
  mrew Hlt.
  destruct (merge_last_head_safe cmp sb src dst (S t) Hs d4 c3 s4)
    as (d5 & s5 & Hlh & Hl5 & Hn5); try lia.
  rewrite Hlh. exists d5, s5. split; [reflexivity|]. split; lia.
Qed.

(** ** The parity merger with a read-only comparator *)

Section MergePure.
Context {E Ctx : Type}.
Variable cmp : cmp_ctx_fn_t E Ctx.
Variable c0 : Ctx.
Hypothesis cmp_ro : forall a b, snd (cmp a b c0) = c0.

Lemma call_pure a b k :
  call cmp a b (CState c0 k) = Some (fst (cmp a b c0), CState c0 (S k)).
Proof.
  unfold call. cbn [ctx ncmp]. specialize (cmp_ro a b).
  destruct (cmp a b c0) as [z c]. cbn [fst snd] in *. now subst c.
Qed.

Lemma leb_gtb a b : (fst (cmp a b c0) <=? 0)%Z = negb (gtb_of cmp c0 a b).
Proof.
  unfold gtb_of. destruct (Z.leb_spec (fst (cmp a b c0)) 0);
    destruct (Z.ltb_spec 0 (fst (cmp a b c0))); cbn; lia.
Qed.

Variables (sp sq dp dq l r : list E).

Lemma nth_left lx a la :
  l = lx ++ a :: la -> nth_error (l ++ r) (length lx) = Some a.
Proof.
  intros ->. rewrite <- app_assoc. apply (load_middle lx a (la ++ r)).
Qed.

Lemma nth_right rx b ra :
  r = rx ++ b :: ra -> nth_error (l ++ r) (length l + length rx) = Some b.
Proof.
  intros ->. rewrite app_assoc, <- length_app.
  apply (load_middle (l ++ rx) b ra).
Qed.

Lemma ld_src i x (s : cstate Ctx) :
  nth_error (l ++ r) i = Some x ->
  ld (sp ++ (l ++ r) ++ sq) (length sp + i) s = Some (x, s).
Proof.
  intros H. unfold ld, lift. now rewrite (load_frame sp (l ++ r) sq i x H).
Qed.

Lemma st_dst A m B v (s : cstate Ctx) :
  st (dp ++ (A ++ m :: B) ++ dq) (length dp + length A) v s
  = Some (dp ++ (A ++ v :: B) ++ dq, s).
Proof.
  unfold st, lift.
  rewrite (store_frame dp (A ++ m :: B) dq (length A) v (A ++ v :: B));
    [reflexivity|apply store_middle].
Qed.

Let sb := sp ++ (l ++ r) ++ sq.
Let src := length sp.
Let dst := length dp.

Lemma merge_head_pure c k lx a la rx b ra A m B :
  l = lx ++ a :: la -> r = rx ++ b :: ra ->
  i_ptl c = length lx -> i_ptr c = length l + length rx ->
  i_ptd c = length A ->
  merge_head cmp sb src (dp ++ (A ++ m :: B) ++ dq) dst c (CState c0 k)
  = Some ((if gtb_of cmp c0 a b
           then Cursors (S (i_ptd c)) (i_tpd c) (i_ptl c) (S (i_ptr c))
                        (i_tpl c) (i_tpr c)
           else Cursors (S (i_ptd c)) (i_tpd c) (S (i_ptl c)) (i_ptr c)
                        (i_tpl c) (i_tpr c)),
          dp ++ (A ++ (if gtb_of cmp c0 a b then b else a) :: B) ++ dq,
          CState c0 (S k)).
Proof.
  intros Hl Hr Hi Hj Hd. unfold merge_head, sb, src, dst.
  rewrite Hi, Hj, Hd.
  mrew (ld_src _ _ (CState c0 k) (nth_left lx a la Hl)).
  mrew (ld_src _ _ (CState c0 k) (nth_right rx b ra Hr)).
  mrew (call_pure a b k).
  rewrite leb_gtb. destruct (gtb_of cmp c0 a b); cbn [negb];
    mrew (st_dst A m B); reflexivity.
Qed.

Lemma merge_tail_pure c k lb a ly rb b ry A m B :
  l = lb ++ a :: ly -> r = rb ++ b :: ry ->
  i_tpl c = length lb -> i_tpr c = length l + length rb ->
  i_tpd c = length A ->
  0 < length lb -> 0 < length A ->
  merge_tail cmp sb src (dp ++ (A ++ m :: B) ++ dq) dst c (CState c0 k)
  = Some ((if gtb_of cmp c0 a b
           then Cursors (i_ptd c) (i_tpd c - 1) (i_ptl c) (i_ptr c)
                        (i_tpl c - 1) (i_tpr c)
           else Cursors (i_ptd c) (i_tpd c - 1) (i_ptl c) (i_ptr c)
                        (i_tpl c) (i_tpr c - 1)),
          dp ++ (A ++ (if gtb_of cmp c0 a b then a else b) :: B) ++ dq,
          CState c0 (S k)).
Proof.
  intros Hl Hr Hi Hj Hd Hlb HA. unfold merge_tail, sb, src, dst.
  assert (Hr0 : 0 < length l + length rb) by (rewrite Hl, length_app; cbn; lia).
  destruct c as [ptd tpd ptl ptr tpl tpr].
  cbn [i_ptd i_tpd i_ptl i_ptr i_tpl i_tpr] in *. subst tpd tpl tpr.
  mrew (ld_src _ _ (CState c0 k) (nth_left lb a ly Hl)).
  mrew (ld_src _ _ (CState c0 k) (nth_right rb b ry Hr)).
  mrew (call_pure a b k).
  fold (gtb_of cmp c0 a b).
  destruct (gtb_of cmp c0 a b); mrew (st_dst A m B).
  - mrew (dec_pos (Ctx:=Ctx) (length A)); [|lia].
    mrew (dec_pos (Ctx:=Ctx) (length lb)); [|lia]. reflexivity.
  - mrew (dec_pos (Ctx:=Ctx) (length A)); [|lia].
    mrew (dec_pos (Ctx:=Ctx) (length l + length rb)); [|lia]. reflexivity.
Qed.

Lemma merge_last_tail_pure c k lb a ly rb b ry A m B :
  l = lb ++ a :: ly -> r = rb ++ b :: ry ->
  i_tpl c = length lb -> i_tpr c = length l + length rb ->
  i_tpd c = length A ->
  merge_last_tail cmp sb src (dp ++ (A ++ m :: B) ++ dq) dst c (CState c0 k)
  = Some (dp ++ (A ++ (if gtb_of cmp c0 a b then a else b) :: B) ++ dq,
          CState c0 (S k)).
Proof.
  intros Hl Hr Hi Hj Hd. unfold merge_last_tail, sb, src, dst.
  rewrite Hi, Hj, Hd.
  mrew (ld_src _ _ (CState c0 k) (nth_left lb a ly Hl)).
  mrew (ld_src _ _ (CState c0 k) (nth_right rb b ry Hr)).
  mrew (call_pure a b k).
  fold (gtb_of cmp c0 a b). apply st_dst.
Qed.

(** The last step of the head front.  When the left run is used up and
    nothing was taken from the right run, both cursors stand on the first
    right element. *)
Lemma merge_last_head_pure c k lx la rx b ra A m B :
  l = lx ++ la -> r = rx ++ b :: ra ->
  i_ptl c = length lx -> i_ptr c = length l + length rx ->
  i_ptd c = length A ->
  la <> [] \/ rx = [] ->
  merge_last_head cmp sb src (dp ++ (A ++ m :: B) ++ dq) dst c (CState c0 k)
  = Some (dp ++ (A ++ hd b (merge (gtb_of cmp c0) la (b :: ra)) :: B) ++ dq,
          CState c0 (S k)).
Proof.
  intros Hl Hr Hi Hj Hd Hc. unfold merge_last_head, sb, src, dst.
  rewrite Hi, Hj, Hd.
  destruct la as [|a la'].
  - destruct Hc as [Hc|Hc]; [congruence|]. subst rx.
    rewrite app_nil_r in Hl. subst lx. cbn [length] in *.
    rewrite Nat.add_0_r.
    assert (Hb : nth_error (l ++ r) (length l) = Some b).
    { rewrite Hr. apply load_middle. }
    mrew (ld_src _ _ (CState c0 k) Hb).
    mrew (ld_src _ _ (CState c0 k) Hb).
    mrew (call_pure b b k).
    cbn [merge hd]. destruct (_ <=? 0)%Z; apply st_dst.
  - mrew (ld_src _ _ (CState c0 k) (nth_left lx a la' Hl)).
    mrew (ld_src _ _ (CState c0 k) (nth_right rx b ra Hr)).
    mrew (call_pure a b k).
    rewrite leb_gtb. cbn [merge].
    destruct (gtb_of cmp c0 a b); cbn [negb hd]; apply st_dst.
Qed.

Lemma merge_cc a la b ra :
  merge (gtb_of cmp c0) (a :: la) (b :: ra)
  = if gtb_of cmp c0 a b then b :: merge (gtb_of cmp c0) (a :: la) ra
    else a :: merge (gtb_of cmp c0) la (b :: ra).
Proof. reflexivity. Qed.

Lemma bmerge_cc a la b ra :
  bmerge (gtb_of cmp c0) (a :: la) (b :: ra)
  = if gtb_of cmp c0 a b then a :: bmerge (gtb_of cmp c0) la (b :: ra)
    else b :: bmerge (gtb_of cmp c0) (a :: la) ra.
Proof. reflexivity. Qed.

(** The loop and the two last steps: the head front writes the first
    [n + 1] elements of the merge from the heads, the tail front the first
    [n + 1] elements of the merge from the tails. *)
Lemma merge_loop_finish_pure n : forall c k Fd mid Bd lx la rx ra lb ly rb ry,
  l = lx ++ la -> r = rx ++ ra -> l = lb ++ ly -> r = rb ++ ry ->
  i_ptl c = length lx -> i_ptr c = length l + length rx ->
  i_ptd c = length Fd ->
  S (i_tpl c) = length lb -> S (i_tpr c) = length l + length rb ->
  S (i_tpd c) = length Fd + length mid ->
  length mid = 2 * n + 2 ->
  n < length ra -> n <= length la -> (n < length la \/ rx = []) ->
  n < length lb -> n < length rb ->
  ('(c3, d3) <- merge_loop cmp sb src (dp ++ (Fd ++ mid ++ Bd) ++ dq) dst n c ;;
   d4 <- merge_last_tail cmp sb src d3 dst c3 ;;
   merge_last_head cmp sb src d4 dst c3) (CState c0 k)
  = Some (dp ++ (Fd ++ firstn (S n) (merge (gtb_of cmp c0) la ra)
                    ++ rev (firstn (S n) (bmerge (gtb_of cmp c0) (rev lb) (rev rb)))
                    ++ Bd) ++ dq,
          CState c0 (k + 2 * n + 2)).
Proof.
  induction n as [|n IH];
    intros c k Fd mid Bd lx la rx ra lb ly rb ry Hl Hr Hl' Hr'
           Hptl Hptr Hptd Htpl Htpr Htpd Hmid Hra Hla Hcorner Hlb Hrb.
  - cbn [merge_loop]. unfold bind at 1. unfold ret at 1.
    destruct mid as [|m1 [|m2 [|? ?]]]; cbn [length] in Hmid; try lia.
    destruct (last_of lb) as (lb' & a' & ->); [lia|].
    destruct (last_of rb) as (rb' & b' & ->); [lia|].
    destruct (head_of ra) as (b & ra' & ->); [lia|].
    rewrite length_app in Htpl, Htpr. cbn [length] in Htpl, Htpr, Htpd.
    rewrite <- app_assoc in Hl', Hr'. cbn [app] in Hl', Hr'.
    replace (dp ++ (Fd ++ [m1; m2] ++ Bd) ++ dq)
      with (dp ++ ((Fd ++ [m1]) ++ m2 :: Bd) ++ dq)
      by list_eq.
    mrew (merge_last_tail_pure c k lb' a' ly rb' b' ry (Fd ++ [m1]) m2 Bd).
    2-6: try assumption; try lia.
    2:{ rewrite length_app. cbn [length]. lia. }
    replace (dp ++ ((Fd ++ [m1]) ++ (if gtb_of cmp c0 a' b' then a' else b') :: Bd) ++ dq)
      with (dp ++ (Fd ++ m1 :: (if gtb_of cmp c0 a' b' then a' else b') :: Bd) ++ dq)
      by list_eq.
    rewrite (merge_last_head_pure c (S k) lx la rx b ra' Fd m1
               ((if gtb_of cmp c0 a' b' then a' else b') :: Bd)); try assumption.
    2:{ destruct Hcorner as [Hc|Hc]; [left|right; assumption].
        destruct la; [cbn in Hc; lia|discriminate]. }
    f_equal. f_equal; [|f_equal; lia].
    f_equal. f_equal.
    rewrite !rev_unit, bmerge_cc.
    assert (Hm : exists x xs, merge (gtb_of cmp c0) la (b :: ra') = x :: xs).
    { destruct la as [|a la']; [cbn; eauto|].
      rewrite merge_cc. destruct (gtb_of cmp c0 a b); eauto. }
    destruct Hm as (x & xs & ->). cbn [hd firstn app].
    destruct (gtb_of cmp c0 a' b'); reflexivity.
  - cbn [merge_loop].
    destruct (ends_of mid) as (m1 & mid' & m2 & ->); [lia|].
    destruct (last_of lb) as (lb' & a' & ->); [lia|].
    destruct (last_of rb) as (rb' & b' & ->); [lia|].
    destruct (head_of ra) as (b & ra' & ->); [lia|].
    destruct (head_of la) as (a & la' & ->); [lia|].
    norm_len.
    rewrite <- app_assoc in Hl', Hr'. cbn [app] in Hl', Hr'.
    rewrite !bind_assoc_eq.
    replace (dp ++ (Fd ++ (m1 :: mid' ++ [m2]) ++ Bd) ++ dq)
      with (dp ++ (Fd ++ m1 :: (mid' ++ m2 :: Bd)) ++ dq)
      by list_eq.
    mrew (merge_head_pure c k lx a la' rx b ra' Fd m1 (mid' ++ m2 :: Bd)
            Hl Hr Hptl Hptr Hptd).
    set (x := if gtb_of cmp c0 a b then b else a).
    set (c1 := if gtb_of cmp c0 a b then _ else _).
    assert (Hc1 : i_tpl c1 = i_tpl c /\ i_tpr c1 = i_tpr c /\ i_tpd c1 = i_tpd c
                  /\ i_ptd c1 = S (i_ptd c)).
    { subst c1. destruct (gtb_of cmp c0 a b); cbn; auto. }
    destruct Hc1 as (Q1 & Q2 & Q3 & Q4).
    replace (dp ++ (Fd ++ x :: mid' ++ m2 :: Bd) ++ dq)
      with (dp ++ ((Fd ++ x :: mid') ++ m2 :: Bd) ++ dq)
      by list_eq.
    mrew (merge_tail_pure c1 (S k) lb' a' ly rb' b' ry (Fd ++ x :: mid') m2 Bd).
    2-3: assumption.
    2-6: rewrite ?length_app; cbn [length]; lia.
    set (y := if gtb_of cmp c0 a' b' then a' else b').
    set (c2 := if gtb_of cmp c0 a' b' then _ else _).
    replace (dp ++ ((Fd ++ x :: mid') ++ y :: Bd) ++ dq)
      with (dp ++ ((Fd ++ [x]) ++ mid' ++ (y :: Bd)) ++ dq)
      by list_eq.
    rewrite !rev_unit, merge_cc, bmerge_cc.
    subst x y c1 c2.
    assert (Hfin : forall Fd' X Y Bd' k1 k2 x y, k1 = k2 ->
      Fd' = Fd ++ [x] -> Bd' = y :: Bd ->
      Some (dp ++ (Fd' ++ firstn (S n) X ++ rev (firstn (S n) Y) ++ Bd') ++ dq,
            CState c0 k1)
      = Some (dp ++ (Fd ++ firstn (S (S n)) (x :: X)
                        ++ rev (firstn (S (S n)) (y :: Y)) ++ Bd) ++ dq,
              CState c0 k2)).
    { intros Fd' X Y Bd' k1 k2 x y -> -> ->. do 3 f_equal.
      change (firstn (S (S n)) (x :: X)) with (x :: firstn (S n) X).
      change (firstn (S (S n)) (y :: Y)) with (y :: firstn (S n) Y).
      cbn [rev]. list_eq. }
    destruct (gtb_of cmp c0 a b) eqn:G1; destruct (gtb_of cmp c0 a' b') eqn:G2;
      cbn [i_ptd i_tpd i_ptl i_ptr i_tpl i_tpr] in *.
    + rewrite (IH _ (S (S k)) (Fd ++ [b]) mid' (a' :: Bd)
                 lx (a :: la') (rx ++ [b]) ra' lb' (a' :: ly)
                 (rb' ++ [b']) ry);
        [rewrite rev_unit; apply Hfin; [lia|reflexivity|reflexivity] | ..];
        rewrite ?length_app; cbn [length i_ptd i_tpd i_ptl i_ptr i_tpl i_tpr];
        decomp_side.
    + rewrite (IH _ (S (S k)) (Fd ++ [b]) mid' (b' :: Bd)
                 lx (a :: la') (rx ++ [b]) ra' (lb' ++ [a']) ly
                 rb' (b' :: ry));
        [rewrite rev_unit; apply Hfin; [lia|reflexivity|reflexivity] | ..];
        rewrite ?length_app; cbn [length i_ptd i_tpd i_ptl i_ptr i_tpl i_tpr];
        decomp_side.
    + rewrite (IH _ (S (S k)) (Fd ++ [a]) mid' (a' :: Bd)
                 (lx ++ [a]) la' rx (b :: ra') lb' (a' :: ly)
                 (rb' ++ [b']) ry);
        [rewrite rev_unit; apply Hfin; [lia|reflexivity|reflexivity] | ..];
        rewrite ?length_app; cbn [length i_ptd i_tpd i_ptl i_ptr i_tpl i_tpr];
        decomp_side;
        try (destruct Hcorner; [left; lia|right; assumption]).
    + rewrite (IH _ (S (S k)) (Fd ++ [a]) mid' (b' :: Bd)
                 (lx ++ [a]) la' rx (b :: ra') (lb' ++ [a']) ly
                 rb' (b' :: ry));
        [rewrite rev_unit; apply Hfin; [lia|reflexivity|reflexivity] | ..];
        rewrite ?length_app; cbn [length i_ptd i_tpd i_ptl i_ptr i_tpl i_tpr];
        decomp_side;
        try (destruct Hcorner; [left; lia|right; assumption]).
Qed.

(** The merger on two runs whose lengths differ by at most one: the head
    front writes the first [right] elements of the merge from the heads, the
    tail front the first [left] elements of the merge from the tails. *)
Lemma parity_merge_ctx_pure old k :
  1 <= length l -> length l <= length r <= length l + 1 ->
  length old = length l + length r ->
  parity_merge_ctx cmp sb src (dp ++ old ++ dq) dst (length l) (length r)
                   (CState c0 k)
  = Some (dp ++ (firstn (length r) (merge (gtb_of cmp c0) l r)
                 ++ rev (firstn (length l) (bmerge (gtb_of cmp c0) (rev l) (rev r))))
             ++ dq,
          CState c0 (k + length l + length r)).
Proof.
  intros H1 H2 Hold. unfold parity_merge_ctx.
  mrew (dec_pos (Ctx:=Ctx) (length l + length r)); [|lia].
  destruct (Nat.ltb_spec (length l) (length r)) as [Hlt|Hge].
  - destruct (head_of l) as (a & la' & Hl); [lia|].
    destruct (head_of r) as (b & ra' & Hr); [lia|].
    destruct (head_of old) as (m & old' & ->); [lia|].
    replace (dp ++ (m :: old') ++ dq) with (dp ++ ([] ++ m :: old') ++ dq)
      by reflexivity.
    mrew (merge_head_pure (Cursors 0 (length l + length r - 1) 0 (length l) 0 0)
            k [] a la' [] b ra' [] m old' Hl Hr).
    2-4: cbn; lia.
    mrew (dec_pos (Ctx:=Ctx) (length l)); [|lia].
    mrew (dec_pos (Ctx:=Ctx) (length l + length r)); [|lia].
    cbn [length] in Hold.
    assert (Hla : length l = S (length la')) by (rewrite Hl; reflexivity).
    assert (Hra : length r = S (length ra')) by (rewrite Hr; reflexivity).
    assert (Hm : merge (gtb_of cmp c0) l r
                 = (if gtb_of cmp c0 a b then b else a)
                     :: (if gtb_of cmp c0 a b then merge (gtb_of cmp c0) l ra'
                         else merge (gtb_of cmp c0) la' r)).
    { rewrite Hl, Hr, merge_cc. destruct (gtb_of cmp c0 a b); reflexivity. }
    destruct (gtb_of cmp c0 a b); cbn [i_ptd i_tpd i_ptl i_ptr i_tpl i_tpr].
    + replace (dp ++ ([] ++ b :: old') ++ dq)
        with (dp ++ ([b] ++ old' ++ []) ++ dq) by (rewrite app_nil_r; reflexivity).
      rewrite (merge_loop_finish_pure (length l - 1) _ (S k) [b] old' []
                 [] l [b] ra' l [] r []);
        cbn [length i_ptd i_tpd i_ptl i_ptr i_tpl i_tpr]; rewrite ?app_nil_r;
        decomp_side; try (right; reflexivity).
      rewrite Hm. replace (S (length l - 1)) with (length l) by lia.
      replace (length r) with (S (length l)) by lia. cbn [firstn].
      apply some_state_eq; [list_eq|lia].
    + replace (dp ++ ([] ++ a :: old') ++ dq)
        with (dp ++ ([a] ++ old' ++ []) ++ dq) by (rewrite app_nil_r; reflexivity).
      rewrite (merge_loop_finish_pure (length l - 1) _ (S k) [a] old' []
                 [a] la' [] r l [] r []);
        cbn [length i_ptd i_tpd i_ptl i_ptr i_tpl i_tpr]; rewrite ?app_nil_r;
        decomp_side; try (right; reflexivity).
      rewrite Hm. replace (S (length l - 1)) with (length l) by lia.
      replace (length r) with (S (length l)) by lia. cbn [firstn].
      apply some_state_eq; [list_eq|lia].
  - unfold ret at 1. unfold bind at 1.
    mrew (dec_pos (Ctx:=Ctx) (length l)); [|lia].
    mrew (dec_pos (Ctx:=Ctx) (length l + length r)); [|lia].
    cbn [i_ptd i_tpd i_ptl i_ptr i_tpl i_tpr].
    replace (dp ++ old ++ dq) with (dp ++ ([] ++ old ++ []) ++ dq)
      by (rewrite app_nil_r; reflexivity).
    rewrite (merge_loop_finish_pure (length l - 1) _ k [] old []
                 [] l [] r l [] r []);
      cbn [length i_ptd i_tpd i_ptl i_ptr i_tpl i_tpr]; rewrite ?app_nil_r;
      decomp_side.
    replace (S (length l - 1)) with (length l) by lia.
    replace (length r) with (length l) by lia.
    apply some_state_eq; [list_eq|lia].
Qed.

End MergePure.

(** ** Sorted runs and the stable merge *)

Section OrderFacts.
Context {E : Type}.
Variable gtb : E -> E -> bool.
Hypothesis WO : weak_order gtb.

Lemma gtb_irrefl a : gtb a a = false.
Proof.
  destruct (gtb a a) eqn:H; [|reflexivity].
  now rewrite (gtb_asym WO a a H) in H.
Qed.

Lemma gt_le_trans a b c : gtb a b = true -> gtb c b = false -> gtb a c = true.
Proof.
  intros Hab Hcb. destruct (gtb a c) eqn:H; [reflexivity|].
  now rewrite (le_trans WO a c b H Hcb) in Hab.
Qed.

Lemma le_gt_trans a b c : gtb b a = false -> gtb b c = true -> gtb a c = true.
Proof.
  intros Hba Hbc. destruct (gtb a c) eqn:H; [reflexivity|].
  now rewrite (le_trans WO b a c Hba H) in Hbc.
Qed.

Lemma gt_trans a b c : gtb a b = true -> gtb b c = true -> gtb a c = true.
Proof.
  intros Hab Hbc. eapply gt_le_trans; [exact Hab|].
  apply (gtb_asym WO). exact Hbc.
Qed.

Lemma sorted_app l1 l2 :
  sorted gtb (l1 ++ l2) <->
  sorted gtb l1 /\ sorted gtb l2 /\ (forall x y, In x l1 -> In y l2 -> le_of gtb x y).
Proof.
  unfold sorted. induction l1 as [|a l1 IH]; cbn [app].
  - split.
    + intros H. repeat split; [constructor|assumption|intros x y []].
    + intros (_ & H & _). assumption.
  - split.
    + intros H. apply StronglySorted_inv in H. destruct H as [H Ha].
      apply IH in H. destruct H as (H1 & H2 & H12).
      rewrite Forall_app in Ha. destruct Ha as [Ha1 Ha2].
      repeat split; [constructor; assumption|assumption|].
      intros x y [<-|Hx] Hy.
      * rewrite Forall_forall in Ha2. now apply Ha2.
      * now apply H12.
    + intros (H1 & H2 & H12). apply StronglySorted_inv in H1.
      destruct H1 as [H1 Ha]. constructor.
      * apply IH. repeat split; [assumption|assumption|].
        intros x y Hx Hy. apply H12; [now right|assumption].
      * rewrite Forall_app. split; [assumption|].
        rewrite Forall_forall. intros y Hy. apply H12; [now left|assumption].
Qed.

Lemma sorted_cons a l :
  sorted gtb (a :: l) <-> sorted gtb l /\ (forall y, In y l -> le_of gtb a y).
Proof.
  unfold sorted. split.
  - intros H. apply StronglySorted_inv in H. destruct H as [H Ha].
    split; [assumption|]. now rewrite Forall_forall in Ha.
  - intros [H Ha]. constructor; [assumption|]. now rewrite Forall_forall.
Qed.

Lemma sorted_nil : sorted gtb [].
Proof. constructor. Qed.

Lemma sorted_one a : sorted gtb [a].
Proof. apply sorted_cons. split; [apply sorted_nil|intros y []]. Qed.

(** Neighbours in a sorted gtb list. *)
Lemma sorted_adjacent l i x y :
  sorted gtb l -> nth_error l i = Some x -> nth_error l (S i) = Some y -> le_of gtb x y.
Proof.
  intros H. revert i. induction H as [|a l H IH Ha]; intros i Hx Hy.
  - destruct i; discriminate.
  - destruct i as [|i].
    + cbn in Hx, Hy. injection Hx as <-.
      rewrite Forall_forall in Ha. apply Ha.
      destruct l; [discriminate|]. cbn in Hy. injection Hy as <-. now left.
    + cbn in Hx. change (nth_error (a :: l) (S (S i))) with (nth_error l (S i)) in Hy.
      eapply IH; eauto.
Qed.

(** Ordered neighbours make a sorted gtb list. *)
Lemma adjacent_sorted l :
  (forall i x y, nth_error l i = Some x -> nth_error l (S i) = Some y -> le_of gtb x y) ->
  sorted gtb l.
Proof.
  intros H. apply Sorted_StronglySorted.
  - intros a b c. apply (le_trans WO).
  - induction l as [|a l IH]; constructor.
    + apply IH. intros i x y Hx Hy. apply (H (S i) x y); assumption.
    + destruct l as [|b l]; constructor. apply (H 0 a b); reflexivity.
Qed.

Lemma merge_nil_r l : merge gtb l [] = l.
Proof. destruct l; reflexivity. Qed.

Lemma merge_cons a l b r :
  merge gtb (a :: l) (b :: r)
  = if gtb a b then b :: merge gtb (a :: l) r else a :: merge gtb l (b :: r).
Proof. reflexivity. Qed.

Lemma bmerge_nil_r l : bmerge gtb l [] = l.
Proof. destruct l; reflexivity. Qed.

Lemma bmerge_cons a l b r :
  bmerge gtb (a :: l) (b :: r)
  = if gtb a b then a :: bmerge gtb l (b :: r) else b :: bmerge gtb (a :: l) r.
Proof. reflexivity. Qed.

Lemma merge_perm l : forall r, Permutation (l ++ r) (merge gtb l r).
Proof.
  induction l as [|a l IHl]; intros r; [reflexivity|].
  induction r as [|b r IHr].
  - rewrite merge_nil_r, app_nil_r. reflexivity.
  - rewrite merge_cons. destruct (gtb a b).
    + rewrite <- IHr. symmetry. apply Permutation_middle with (l1 := a :: l).
    + cbn [app]. constructor. apply IHl.
Qed.

Lemma merge_length l r : length (merge gtb l r) = length l + length r.
Proof.
  rewrite <- (Permutation_length (merge_perm l r)). apply length_app.
Qed.

Lemma merge_sorted l : forall r, sorted gtb l -> sorted gtb r -> sorted gtb (merge gtb l r).
Proof.
  induction l as [|a l IHl]; intros r Hl Hr; [assumption|].
  induction r as [|b r IHr]; [now rewrite merge_nil_r|].
  rewrite merge_cons.
  apply sorted_cons in Hl. destruct Hl as [Hl Ha].
  apply sorted_cons in Hr. destruct Hr as [Hr Hb].
  destruct (gtb a b) eqn:Hab.
  - apply sorted_cons. split.
    + apply IHr. assumption.
    + intros y Hy.
      apply (Permutation_in _ (Permutation_sym (merge_perm (a :: l) r))) in Hy.
      apply in_app_or in Hy. destruct Hy as [[<-|Hy]|Hy].
      * apply (gtb_asym WO). assumption.
      * apply (le_trans WO) with a; [apply (gtb_asym WO); assumption|now apply Ha].
      * now apply Hb.
  - apply sorted_cons. split.
    + apply IHl; [assumption|]. apply sorted_cons. now split.
    + intros y Hy.
      apply (Permutation_in _ (Permutation_sym (merge_perm l (b :: r)))) in Hy.
      apply in_app_or in Hy. destruct Hy as [Hy|[<-|Hy]].
      * now apply Ha.
      * assumption.
      * apply (le_trans WO) with b; [assumption|now apply Hb].
Qed.

Lemma eqvb_gt_l e a b : eqvb gtb e b = true -> gtb a b = true -> eqvb gtb e a = false.
Proof.
  unfold eqvb. intros He Hab.
  apply andb_true_iff in He. destruct He as [H1 H2].
  apply negb_true_iff in H1, H2.
  rewrite (gt_le_trans a b e Hab H1). cbn. apply andb_false_r.
Qed.

Lemma eqvb_gt_r e a b : eqvb gtb e a = true -> gtb a b = true -> eqvb gtb e b = false.
Proof.
  unfold eqvb. intros He Hab.
  apply andb_true_iff in He. destruct He as [H1 H2].
  apply negb_true_iff in H1, H2.
  rewrite (le_gt_trans e a b H2 Hab). reflexivity.
Qed.

(** Two lists of which every element of the first is greater than every
    element of the second share no class. *)
Lemma filter_eqvb_above e l1 l2 :
  (forall x y, In x l1 -> In y l2 -> gtb x y = true) ->
  filter (eqvb gtb e) l1 = [] \/ filter (eqvb gtb e) l2 = [].
Proof.
  intros H.
  destruct (filter (eqvb gtb e) l2) as [|y ys] eqn:H2; [now right|left].
  assert (Hy : In y (filter (eqvb gtb e) l2)) by (rewrite H2; now left).
  apply filter_In in Hy. destruct Hy as [Hy He].
  induction l1 as [|x l1 IH]; [reflexivity|].
  cbn [filter]. rewrite (eqvb_gt_l e x y He (H x y (or_introl eq_refl) Hy)).
  apply IH. intros x' y' Hx'. apply H. now right.
Qed.

Lemma merge_stable l : forall r, sorted gtb l -> sorted gtb r ->
  forall e, filter (eqvb gtb e) (merge gtb l r) = filter (eqvb gtb e) (l ++ r).
Proof.
  induction l as [|a l IHl]; intros r Hl Hr e; [reflexivity|].
  induction r as [|b r IHr]; [now rewrite merge_nil_r, app_nil_r|].
  rewrite merge_cons.
  pose proof Hl as Hl0. pose proof Hr as Hr0.
  apply sorted_cons in Hl. destruct Hl as [Hl Ha].
  apply sorted_cons in Hr. destruct Hr as [Hr Hb].
  destruct (gtb a b) eqn:Hab.
  - cbn [filter]. rewrite IHr by assumption.
    rewrite !filter_app. cbn [filter].
    destruct (eqvb gtb e b) eqn:Heb; [|reflexivity].
    assert (Hnil : filter (eqvb gtb e) (a :: l) = []).
    { assert (Hall : forall x, In x (a :: l) -> eqvb gtb e x = false).
      { intros x [<-|Hx]; [now apply eqvb_gt_l with b|].
        apply eqvb_gt_l with b; [assumption|].
        apply le_gt_trans with a; [now apply Ha|assumption]. }
      clear - Hall. induction (a :: l) as [|x xs IH]; [reflexivity|].
      cbn [filter]. rewrite (Hall x (or_introl eq_refl)).
      apply IH. intros y Hy. apply Hall. now right. }
    cbn [filter] in Hnil. rewrite Hnil. reflexivity.
  - cbn [filter app]. rewrite IHl by assumption. reflexivity.
Qed.

(** Appending the greatest element to the left run. *)
Lemma merge_snoc_l a l : forall r,
  (forall y, In y r -> gtb a y = true) ->
  merge gtb (l ++ [a]) r = merge gtb l r ++ [a].
Proof.
  induction l as [|x l IHl]; intros r Hr.
  - cbn [app]. induction r as [|y r IHr]; [reflexivity|].
    rewrite merge_cons, (Hr y (or_introl eq_refl)).
    cbn [merge app]. f_equal. apply IHr.
    intros z Hz. apply Hr. now right.
  - induction r as [|y r IHr]; [now rewrite !merge_nil_r|].
    cbn [app]. rewrite !merge_cons. destruct (gtb x y).
    + cbn [app]. f_equal. apply IHr. intros z Hz. apply Hr. now right.
    + cbn [app]. f_equal. apply IHl. assumption.
Qed.

(** Appending to the right run an element that no left element exceeds. *)
Lemma merge_snoc_r b l : forall r,
  (forall x, In x l -> gtb x b = false) ->
  merge gtb l (r ++ [b]) = merge gtb l r ++ [b].
Proof.
  induction l as [|x l IHl]; intros r Hl; [reflexivity|].
  induction r as [|y r IHr].
  - cbn [app]. rewrite merge_cons, (Hl x (or_introl eq_refl)), merge_nil_r.
    cbn [app]. f_equal.
    specialize (IHl [] (fun z Hz => Hl z (or_intror Hz))).
    now rewrite merge_nil_r in IHl.
  - cbn [app]. rewrite !merge_cons. destruct (gtb x y).
    + cbn [app]. f_equal. apply IHr.
    + cbn [app]. f_equal. apply (IHl (y :: r)).
      intros z Hz. apply Hl. now right.
Qed.

(** On sorted gtb runs the merge gtb from the tails builds the same list as the
    merge gtb from the heads. *)
Lemma bmerge_rev l : forall r,
  sorted gtb (rev l) -> sorted gtb (rev r) ->
  rev (bmerge gtb l r) = merge gtb (rev l) (rev r).
Proof.
  induction l as [|a l IHl]; intros r Hl Hr; [reflexivity|].
  induction r as [|b r IHr].
  - rewrite bmerge_nil_r. cbn [rev]. now rewrite merge_nil_r.
  - rewrite bmerge_cons.
    pose proof Hl as Hl0. pose proof Hr as Hr0.
    cbn [rev] in Hl, Hr. apply sorted_app in Hl, Hr.
    destruct Hl as (Hl & _ & Hla). destruct Hr as (Hr & _ & Hrb).
    destruct (gtb a b) eqn:Hab.
    + cbn [rev]. rewrite IHl by assumption.
      change (rev r ++ [b]) with (rev (b :: r)).
      symmetry. apply merge_snoc_l.
      intros y Hy. cbn [rev] in Hy. apply in_app_or in Hy.
      destruct Hy as [Hy|[<-|[]]]; [|assumption].
      apply gt_le_trans with b; [assumption|].
      apply Hrb; [assumption|now left].
    + cbn [rev]. rewrite IHr by assumption.
      change (rev l ++ [a]) with (rev (a :: l)).
      symmetry. apply merge_snoc_r.
      intros x Hx. cbn [rev] in Hx. apply in_app_or in Hx.
      destruct Hx as [Hx|[<-|[]]]; [|assumption].
      apply (le_trans WO) with a; [|assumption].
      apply Hla; [assumption|now left].
Qed.

(** What the two fronts of the parity merger write is the stable merge. *)
Lemma parity_fronts l r :
  sorted gtb l -> sorted gtb r ->
  firstn (length r) (merge gtb l r)
    ++ rev (firstn (length l) (bmerge gtb (rev l) (rev r)))
  = merge gtb l r.
Proof.
  intros Hl Hr.
  assert (Hb : bmerge gtb (rev l) (rev r) = rev (merge gtb l r)).
  { rewrite <- (rev_involutive (bmerge gtb (rev l) (rev r))).
    rewrite bmerge_rev by (rewrite rev_involutive; assumption).
    now rewrite !rev_involutive. }
  rewrite Hb, firstn_rev, rev_involutive, merge_length.
  replace (length l + length r - length l) with (length r) by lia.
  apply firstn_skipn.
Qed.

End OrderFacts.

(** ** The base-case sorter: framing, permutation, stability *)

Section OddevenFrame.
Context {E Ctx : Type}.
Variable cmp : cmp_ctx_fn_t E Ctx.

(** The sorter on a run inside a larger buffer does what it does on the run
    alone. *)
Lemma oddeven_sort_ctx_frame pre run post elements s run' s' :
  oddeven_sort_ctx cmp run 0 elements s = Some (run', s') ->
  oddeven_sort_ctx cmp (pre ++ run ++ post) (length pre) elements s
  = Some (pre ++ run' ++ post, s').
Proof.
  intros H.
  destruct (oddeven_sort_ctx_rel cmp cmp
              (fun b1 s1 b2 s2 => b2 = pre ++ b1 ++ post /\ s2 = s1)
              0 (length pre)) with (elements := elements) (b1 := run) (s1 := s)
              (b2 := pre ++ run ++ post) (s2 := s) (b1' := run') (s1' := s')
    as (b2' & s2' & Hrun & -> & ->); auto.
  intros i b1 s1 b2 s2 r b1' s1' [-> ->] Hx.
  apply xchg_ctx_inv in Hx.
  destruct Hx as (p & x & y & q & -> & Hp & -> & -> & ->). cbn [Nat.add] in Hp.
  exists (pre ++ (p ++ (if (0 <? fst (cmp x y (ctx s1)))%Z then [y; x] else [x; y]) ++ q)
              ++ post).
  eexists. split; [|split; reflexivity].
  replace (pre ++ (p ++ x :: y :: q) ++ post)
    with ((pre ++ p) ++ x :: y :: (q ++ post)) by list_eq.
  replace (length pre + i) with (length (pre ++ p))
    by (rewrite length_app; lia).
  rewrite xchg_ctx_spec. f_equal. f_equal. f_equal.
  destruct (0 <? _)%Z; list_eq.
Qed.

(** A property that every compare-exchange keeps is kept by the sorter. *)
Lemma oddeven_sort_ctx_invariant (P : list E -> cstate Ctx -> Prop)
      seg elements b s b' s' :
  (forall pre x y post s,
      P (pre ++ x :: y :: post) s ->
      P (pre ++ (if (0 <? fst (cmp x y (ctx s)))%Z then [y; x] else [x; y]) ++ post)
        (CState (snd (cmp x y (ctx s))) (S (ncmp s)))) ->
  P b s ->
  oddeven_sort_ctx cmp b seg elements s = Some (b', s') ->
  P b' s'.
Proof.
  intros Hstep HP H.
  destruct (oddeven_sort_ctx_rel cmp cmp
              (fun b1 s1 b2 s2 => b2 = b1 /\ s2 = s1 /\ P b1 s1)
              seg seg) with (elements := elements) (b1 := b) (s1 := s)
              (b2 := b) (s2 := s) (b1' := b') (s1' := s')
    as (b2' & s2' & Hrun & -> & -> & HP'); auto.
  intros i b1 s1 b2 s2 r b1' s1' (-> & -> & HP1) Hx.
  exists b1', s1'. split; [assumption|]. split; [reflexivity|].
  split; [reflexivity|].
  apply xchg_ctx_inv in Hx.
  destruct Hx as (p & x & y & q & -> & Hp & -> & -> & ->).
  apply Hstep. assumption.
Qed.

(** Whatever the comparator answers, the sorter permutes its buffer. *)
Lemma oddeven_sort_ctx_perm seg elements b s b' s' :
  oddeven_sort_ctx cmp b seg elements s = Some (b', s') -> Permutation b b'.
Proof.
  apply (oddeven_sort_ctx_invariant (fun b1 _ => Permutation b b1));
    [|reflexivity].
  intros pre x y post s1 HP. rewrite HP.
  apply Permutation_app_head.
  destruct (0 <? _)%Z; [apply perm_swap|reflexivity].
Qed.
End OddevenFrame.

(** ** Ranks *)

Section RankFacts.
Context {E : Type}.
Variable gtb : E -> E -> bool.
Hypothesis WO : weak_order gtb.

Lemma filter_length_le (P Q : E -> bool) l :
  (forall x, In x l -> P x = true -> Q x = true) ->
  length (filter P l) <= length (filter Q l).
Proof.
  induction l as [|a l IH]; intros H; [reflexivity|].
  cbn [filter].
  assert (IH' : length (filter P l) <= length (filter Q l))
    by (apply IH; intros x Hx; apply H; now right).
  specialize (H a (or_introl eq_refl)).
  destruct (P a), (Q a); cbn [length];
    first [lia | discriminate H; reflexivity].
Qed.

Lemma filter_length_lt (P Q : E -> bool) l b :
  (forall x, In x l -> P x = true -> Q x = true) ->
  In b l -> P b = false -> Q b = true ->
  length (filter P l) < length (filter Q l).
Proof.
  induction l as [|a l IH]; intros H Hb HP HQ; [destruct Hb|].
  cbn [filter].
  assert (Hle : length (filter P l) <= length (filter Q l))
    by (apply filter_length_le; intros x Hx; apply H; now right).
  destruct Hb as [->|Hb].
  - rewrite HP, HQ. cbn [length]. lia.
  - assert (IH' : length (filter P l) < length (filter Q l))
      by (apply IH; auto; intros x Hx; apply H; now right).
    specialize (H a (or_introl eq_refl)).
    destruct (P a), (Q a); cbn [length];
      first [lia | discriminate H; reflexivity].
Qed.

(** Ranks decide the comparator on the elements of the list. *)
Lemma rank_gtb l a b :
  In a l -> In b l -> gtb a b = (rank gtb l b <? rank gtb l a).
Proof.
  intros Ha Hb. unfold rank. destruct (gtb a b) eqn:Hab; symmetry.
  - apply Nat.ltb_lt. apply filter_length_lt with b; auto.
    + intros x _ Hx. apply (gt_trans gtb WO) with b; assumption.
    + apply (gtb_irrefl gtb WO).
  - apply Nat.ltb_ge. apply filter_length_le.
    intros x _ Hx. apply (le_gt_trans gtb WO) with a; assumption.
Qed.

Lemma filter_true (l : list E) : filter (fun _ => true) l = l.
Proof. induction l as [|a l IH]; cbn; [reflexivity|now rewrite IH]. Qed.

Lemma rank_lt l a : In a l -> rank gtb l a < length l.
Proof.
  intros Ha. unfold rank.
  pose proof (filter_length_lt (gtb a) (fun _ => true) l a) as H.
  rewrite filter_true in H. apply H; auto.
  apply (gtb_irrefl gtb WO).
Qed.

Lemma rank_closed_map l : rank_closed (map (rank gtb l) l) = true.
Proof.
  unfold rank_closed. apply forallb_forall. intros v Hv.
  apply in_map_iff in Hv. destruct Hv as (x & <- & Hx).
  apply Nat.eqb_eq. unfold rank at 3.
  assert (Hf : forall l', incl l' l ->
    length (filter (fun w => w <? rank gtb l x) (map (rank gtb l) l'))
    = length (filter (gtb x) l')).
  { induction l' as [|y l' IH]; intros Hi; [reflexivity|].
    cbn [map filter].
    rewrite <- (rank_gtb l x y Hx (Hi y (or_introl eq_refl))).
    assert (IH' := IH (fun z Hz => Hi z (or_intror Hz))).
    destruct (gtb x y); cbn [length]; congruence. }
  apply Hf. apply incl_refl.
Qed.

Lemma sortedb_map l' l :
  incl l' l -> sortedb (map (rank gtb l) l') = true ->
  forall i x y, nth_error l' i = Some x -> nth_error l' (S i) = Some y ->
                gtb x y = false.
Proof.
  induction l' as [|a l' IH]; intros Hi Hs i x y Hx Hy.
  - destruct i; discriminate.
  - destruct l' as [|b l']; [destruct i as [|[|i]]; discriminate|].
    cbn [map sortedb] in Hs. apply andb_true_iff in Hs. destruct Hs as [Hab Hs].
    destruct i as [|i].
    + cbn in Hx, Hy. injection Hx as <-. injection Hy as <-.
      rewrite (rank_gtb l a b); [|apply Hi; now left|apply Hi; right; now left].
      apply Nat.ltb_ge. now apply Nat.leb_le.
    + apply (IH (fun z Hz => Hi z (or_intror Hz)) Hs i x y); assumption.
Qed.
End RankFacts.

Lemma all_lists_spec vals k : forall P,
  all_lists vals k P = true ->
  forall l, length l = k -> (forall x, In x l -> In x vals) -> P l = true.
Proof.
  induction k as [|k IH]; intros P H l Hl Hin.
  - destruct l; [assumption|discriminate].
  - destruct l as [|v l]; [discriminate|].
    cbn [all_lists] in H. rewrite forallb_forall in H.
    apply (IH (fun l => P (v :: l))).
    + apply H. apply Hin. now left.
    + now injection Hl.
    + intros x Hx. apply Hin. now right.
Qed.

(** The base-case sorter sorts every list of ranks of length at most 7. *)
Lemma oddeven_check_all : forallb oddeven_check (seq 0 8) = true.
Proof. vm_cast_no_check (eq_refl true). Qed.

Lemma oddeven_sorts_ranks n l :
  n <= 7 -> length l = n -> (forall v, In v l -> v < n) -> rank_closed l = true ->
  exists out s, oddeven_sort_ctx rank_cmp l 0 n (CState tt 0) = Some (out, s)
                /\ sortedb out = true.
Proof.
  intros Hn Hl Hv Hc.
  assert (Hchk : oddeven_check n = true).
  { pose proof oddeven_check_all as H. rewrite forallb_forall in H.
    apply H. apply in_seq. lia. }
  unfold oddeven_check in Hchk.
  pose proof (all_lists_spec _ _ _ Hchk l Hl) as H.
  cbv beta in H. rewrite Hc in H. unfold oddeven_sorts in H.
  destruct (oddeven_sort_ctx rank_cmp l 0 n (CState tt 0)) as [[out s]|].
  - exists out, s. split; [reflexivity|]. apply H.
    intros x Hx. apply in_seq. specialize (Hv x Hx). lia.
  - discriminate H. intros x Hx. apply in_seq. specialize (Hv x Hx). lia.
Qed.

(** ** The base-case sorter with a consistent read-only comparator *)

Section OddevenPure.
Context {E Ctx : Type}.
Variable cmp : cmp_ctx_fn_t E Ctx.
Variable c0 : Ctx.
Hypothesis cmp_ro : forall a b, snd (cmp a b c0) = c0.
Hypothesis WO : weak_order (gtb_of cmp c0).

Lemma filter_swap (P : E -> bool) x y :
  P x = false \/ P y = false -> filter P [y; x] = filter P [x; y].
Proof.
  cbn [filter]. intros [H|H]; rewrite H; destruct (P x), (P y); reflexivity.
Qed.

Lemma oddeven_sort_ctx_stable seg elements b k b' s' :
  oddeven_sort_ctx cmp b seg elements (CState c0 k) = Some (b', s') ->
  ctx s' = c0 /\ stable (gtb_of cmp c0) b b'.
Proof.
  apply (oddeven_sort_ctx_invariant cmp
           (fun b1 s1 => ctx s1 = c0 /\ stable (gtb_of cmp c0) b b1)).
  - intros pre x y post s [Hc Hs]. cbn [ctx]. rewrite Hc. split; [apply cmp_ro|].
    intros e. rewrite <- (Hs e).
    change (x :: y :: post) with ([x; y] ++ post).
    rewrite !filter_app. f_equal. f_equal.
    fold (gtb_of cmp c0 x y). destruct (gtb_of cmp c0 x y) eqn:Hxy;
      [|reflexivity].
    apply filter_swap.
    destruct (eqvb (gtb_of cmp c0) e x) eqn:Hx; [right|now left].
    now apply (eqvb_gt_r _ WO e x y).
  - split; [reflexivity|intros e; reflexivity].
Qed.

Lemma oddeven_sort_ctx_sorted run elements k run' s' :
  length run = elements -> elements <= 7 ->
  oddeven_sort_ctx cmp run 0 elements (CState c0 k) = Some (run', s') ->
  sorted (gtb_of cmp c0) run'.
Proof.
  intros Hlen Hn H.
  pose (rk := rank (gtb_of cmp c0) run).
  destruct (oddeven_sort_ctx_rel cmp rank_cmp
              (fun b1 s1 b2 (s2 : cstate unit) =>
                 b2 = map rk b1 /\ ctx s1 = c0 /\ incl b1 run)
              0 0) with (elements := elements) (b1 := run) (s1 := CState c0 k)
              (b2 := map rk run) (s2 := CState tt 0) (b1' := run') (s1' := s')
    as (b2' & s2' & Hrun & -> & Hc & Hincl); auto.
  - intros i b1 s1 b2 s2 r b1' s1' (-> & Hc & Hi) Hx.
    apply xchg_ctx_inv in Hx.
    destruct Hx as (p & x & y & q & -> & Hp & -> & -> & ->).
    cbn [Nat.add] in Hp. rewrite Hc.
    exists (map rk (p ++ (if (0 <? fst (cmp x y c0))%Z then [y; x] else [x; y]) ++ q)).
    eexists. split; [|split; [reflexivity|split]].
    + rewrite map_app. cbn [map].
      replace (0 + i) with (length (map rk p)) by (rewrite length_map; lia).
      rewrite xchg_ctx_spec. cbn [rank_cmp fst snd ctx].
      assert (Hg : (0 <? (if (rk y <? rk x)%nat then 1 else 0))%Z
                   = (0 <? fst (cmp x y c0))%Z).
      { fold (gtb_of cmp c0 x y). unfold rk.
        rewrite (rank_gtb _ WO run x y).
        - destruct (_ <? _); reflexivity.
        - apply Hi. apply in_or_app. right. now left.
        - apply Hi. apply in_or_app. right. right. now left. }
      rewrite Hg. f_equal. f_equal. f_equal.
      rewrite !map_app. destruct (0 <? fst (cmp x y c0))%Z; reflexivity.
    + cbn [ctx]. apply cmp_ro.
    + intros z Hz. apply Hi.
      apply in_app_or in Hz. apply in_or_app.
      destruct Hz as [Hz|Hz]; [now left|right].
      apply in_app_or in Hz.
      destruct Hz as [Hz|Hz]; [|right; right; assumption].
      destruct (0 <? _)%Z; cbn in Hz; cbn; tauto.
  - split; [reflexivity|split; [reflexivity|apply incl_refl]].
  - destruct (oddeven_sorts_ranks elements (map rk run))
      as (out & s & Hout & Hs); auto.
    + now rewrite length_map.
    + intros v Hv. apply in_map_iff in Hv. destruct Hv as (x & <- & Hx).
      rewrite <- Hlen. apply (rank_lt _ WO). assumption.
    + apply (rank_closed_map _ WO).
    + rewrite Hrun in Hout. apply some_inj in Hout.
      assert (out = map rk run') by congruence. subst out.
      apply (adjacent_sorted _ WO).
      apply (sortedb_map _ WO run' run Hincl Hs).
Qed.

(** The base-case sorter sorts runs of at most 7 elements, stably. *)
Lemma oddeven_sort_ctx_sorts pre run post elements k :
  length run = elements -> elements <= 7 ->
  exists run' k',
    oddeven_sort_ctx cmp (pre ++ run ++ post) (length pre) elements (CState c0 k)
    = Some (pre ++ run' ++ post, CState c0 k')
    /\ Permutation run run'
    /\ sorted (gtb_of cmp c0) run'
    /\ stable (gtb_of cmp c0) run run'.
Proof.
  intros Hlen Hn.
  destruct (oddeven_sort_ctx_safe cmp run 0 elements (CState c0 k))
    as (run' & s' & Hrun & Hl); [lia|].
  destruct (oddeven_sort_ctx_stable _ _ _ _ _ _ Hrun) as [Hc Hst].
  destruct s' as [c' k']. cbn [ctx] in Hc. subst c'.
  exists run', k'. split; [|split; [|split]].
  - apply oddeven_sort_ctx_frame. assumption.
  - eapply oddeven_sort_ctx_perm; eauto.
  - exact (oddeven_sort_ctx_sorted run elements k run' _ Hlen Hn Hrun).
  - assumption.
Qed.
End OddevenPure.

(** ** The rotator *)

Section RotateFacts.
Context {E : Type}.
Implicit Types (pre post A B wb ab : list E).

Lemma firstn_exact A B n : length A = n -> firstn n (A ++ B) = A.
Proof.
  intros <-. rewrite firstn_app, Nat.sub_diag, firstn_all. cbn [firstn].
  apply app_nil_r.
Qed.

Lemma skipn_exact A B n : length A = n -> skipn n (A ++ B) = B.
Proof.
  intros <-. rewrite skipn_app, Nat.sub_diag, skipn_all. reflexivity.
Qed.

Lemma load_range_frame pre A post n :
  length A = n -> load_range (pre ++ A ++ post) (length pre) n = Some A.
Proof.
  intros Hn. unfold load_range.
  destruct (Nat.leb_spec (length pre + n) (length (pre ++ A ++ post))) as [_|H].
  - rewrite (skipn_exact pre) by reflexivity. now rewrite firstn_exact.
  - rewrite !length_app in H. lia.
Qed.

Lemma store_range_frame pre A post vs :
  length vs = length A ->
  store_range (pre ++ A ++ post) (length pre) vs = Some (pre ++ vs ++ post).
Proof.
  intros Hn. unfold store_range.
  destruct (Nat.leb_spec (length pre + length vs) (length (pre ++ A ++ post)))
    as [_|H].
  - rewrite (firstn_exact pre) by reflexivity.
    replace (pre ++ A ++ post) with ((pre ++ A) ++ post) by list_eq.
    rewrite skipn_exact by (rewrite length_app; lia). reflexivity.
  - rewrite !length_app in H. lia.
Qed.

(** Rotation moves the first [left] cells behind the next [right] cells and
    leaves a copy of them at the start of the auxiliary buffer. *)
Lemma rotate_spec pre A B post wb left right :
  length A = left -> length B = right -> left <= length wb ->
  rotate (pre ++ A ++ B ++ post) (length pre) wb left right
  = Some (pre ++ B ++ A ++ post, A ++ skipn left wb).
Proof.
  intros HA HB Hw. unfold rotate.
  rewrite (load_range_frame pre A (B ++ post) left HA).
  assert (Hst : store_range wb 0 A = Some (A ++ skipn left wb)).
  { rewrite <- (firstn_skipn left wb) at 1.
    apply (store_range_frame [] (firstn left wb) (skipn left wb) A).
    rewrite length_firstn. lia. }
  rewrite Hst.
  replace (pre ++ A ++ B ++ post) with ((pre ++ A) ++ B ++ post) at 1 by list_eq.
  replace (length pre + left) with (length (pre ++ A))
    by (rewrite length_app; lia).
  rewrite (load_range_frame (pre ++ A) B post right HB).
  destruct (split_at (A ++ B) right) as (X & Y & HXY & HX).
  { rewrite length_app. lia. }
  assert (HY : length Y = left).
  { apply (f_equal (@length E)) in HXY. rewrite !length_app in HXY. lia. }
  replace (pre ++ A ++ B ++ post) with (pre ++ X ++ Y ++ post)
    by (rewrite (app_assoc A), HXY; list_eq).
  rewrite (store_range_frame pre X (Y ++ post) B) by lia.
  rewrite (load_range_frame [] A (skipn left wb) left HA : load_range (A ++ skipn left wb) 0 left = Some A).
  replace (pre ++ B ++ Y ++ post) with ((pre ++ B) ++ Y ++ post) by list_eq.
  replace (length pre + right) with (length (pre ++ B))
    by (rewrite length_app; lia).
  rewrite (store_range_frame (pre ++ B) Y post A) by lia.
  f_equal. f_equal. list_eq.
Qed.

Lemma rotate_safe ab array wb left right :
  array + (left + right) <= length ab -> left <= length wb ->
  exists ab' wb', rotate ab array wb left right = Some (ab', wb')
                  /\ length ab' = length ab /\ length wb' = length wb.
Proof.
  intros Ha Hw.
  destruct (split_run ab array (left + right) Ha) as (pre & run & post & -> & Hp & Hr).
  destruct (split_at run left) as (A & B & -> & HA); [lia|].
  rewrite length_app in Hr. subst array.
  replace (pre ++ (A ++ B) ++ post) with (pre ++ A ++ B ++ post) by list_eq.
  rewrite (rotate_spec pre A B post wb left right) by lia.
  do 2 eexists. split; [reflexivity|].
  rewrite !length_app, length_skipn. split; lia.
Qed.
End RotateFacts.

(** ** The partitioner *)

Lemma partition_array_sizes n :
  let seg := partition_array n in
  lh seg = q1 seg + q2 seg /\ rh seg = q3 seg + q4 seg /\ lh seg + rh seg = n
  /\ q1 seg <= q2 seg <= q1 seg + 1
  /\ q3 seg <= q4 seg <= q3 seg + 1
  /\ lh seg <= rh seg <= lh seg + 1.
Proof.
  cbv [partition_array lh q1 q2 rh q3 q4].
  repeat split.
  all: pose proof (Nat.div_mod_eq n 2); pose proof (Nat.mod_upper_bound n 2);
    pose proof (Nat.div_mod_eq (n / 2) 2);
    pose proof (Nat.mod_upper_bound (n / 2) 2);
    pose proof (Nat.div_mod_eq (n - n / 2) 2);
    pose proof (Nat.mod_upper_bound (n - n / 2) 2); lia.
Qed.

(** The descriptor on 64-bit words is the descriptor on natural numbers: no
    subtraction of [partition_array] wraps. *)
Lemma partition_array_w_exact (n : nat) :
  (Z.of_nat n < 2 ^ 64)%Z ->
  let seg := partition_array n in
  partition_array_w (Z.of_nat n)
  = (Z.of_nat (lh seg), Z.of_nat (q1 seg), Z.of_nat (q2 seg),
     Z.of_nat (rh seg), Z.of_nat (q3 seg), Z.of_nat (q4 seg)).
Proof.
  intros Hn. cbv [partition_array partition_array_w lh q1 q2 rh q3 q4 wrap64].
  assert (Hd : forall m, m / 2 <= m)
    by (intros m; apply Nat.Div0.div_le_upper_bound; lia).
  repeat (rewrite Nat2Z.inj_div || rewrite Nat2Z.inj_sub by apply Hd).
  change (Z.of_nat 2) with 2%Z.
  change (2 ^ 64)%Z with 18446744073709551616%Z in *.
  assert (Ha : (0 <= Z.of_nat n)%Z) by lia.
  revert Hn Ha. generalize (Z.of_nat n). intros a Hn Ha.
  rewrite (Z.mod_small (a - a / 2)) by (Z.div_mod_to_equations; lia).
  rewrite !Z.mod_small by (Z.div_mod_to_equations; lia).
  reflexivity.
Qed.

Lemma partition_array_large n :
  8 <= n ->
  let seg := partition_array n in
  2 <= q1 seg /\ 2 <= q3 seg /\ 4 <= lh seg.
Proof.
  intros Hn. cbv [partition_array lh q1 q2 rh q3 q4].
  pose proof (Nat.div_mod_eq n 2); pose proof (Nat.mod_upper_bound n 2);
    pose proof (Nat.div_mod_eq (n / 2) 2);
    pose proof (Nat.mod_upper_bound (n / 2) 2);
    pose proof (Nat.div_mod_eq (n - n / 2) 2);
    pose proof (Nat.mod_upper_bound (n - n / 2) 2); lia.
Qed.

(** ** The merge-decision phase stays inside the run *)

Section PhaseSafe.
Context {E Ctx : Type}.
Variable cmp : cmp_ctx_fn_t E Ctx.

Lemma le_at_safe (b : list E) i j (s : cstate Ctx) :
  i < length b -> j < length b ->
  exists t s', le_at cmp b i j s = Some (t, s') /\ ncmp s' = S (ncmp s).
Proof.
  intros Hi Hj. unfold le_at.
  destruct (ld_safe b i s Hi) as [x Hx]. mrew Hx.
  destruct (ld_safe b j s Hj) as [y Hy]. mrew Hy.
  destruct (call_safe cmp x y s) as (z & s' & Hc & Hn). mrew Hc.
  unfold ret. eauto.
Qed.

Lemma gt_at_safe (b : list E) i j (s : cstate Ctx) :
  i < length b -> j < length b ->
  exists t s', gt_at cmp b i j s = Some (t, s') /\ ncmp s' = S (ncmp s).
Proof.
  intros Hi Hj. unfold gt_at.
  destruct (ld_safe b i s Hi) as [x Hx]. mrew Hx.
  destruct (ld_safe b j s Hj) as [y Hy]. mrew Hy.
  destruct (call_safe cmp x y s) as (z & s' & Hc & Hn). mrew Hc.
  unfold ret. eauto.
Qed.

Variables (d : list E) (data elements : nat) (seg : segment_t).
Hypothesis Hd : data + elements <= length d.
Hypothesis Hlh : lh seg = q1 seg + q2 seg.
Hypothesis Hrh : rh seg = q3 seg + q4 seg.
Hypothesis Hn : lh seg + rh seg = elements.
Hypothesis Hq12 : 1 <= q1 seg <= q2 seg.
Hypothesis Hq34 : 1 <= q3 seg <= q4 seg.
Hypothesis Hlr : lh seg <= rh seg.

Lemma already_ordered_safe s :
  exists t s', already_ordered cmp d data seg s = Some (t, s')
               /\ ncmp s < ncmp s' <= ncmp s + 3.
Proof.
  unfold already_ordered.
  mrew (dec_pos (Ctx:=Ctx) (q1 seg)); [|lia].
  destruct (le_at_safe d (data + (q1 seg - 1)) (data + q1 seg) s)
    as (t1 & s1 & H1 & N1); try lia.
  mrew H1. destruct t1; [|unfold ret; do 2 eexists; split; [reflexivity|lia]].
  mrew (dec_pos (Ctx:=Ctx) (lh seg)); [|lia].
  destruct (le_at_safe d (data + (lh seg - 1)) (data + lh seg) s1)
    as (t2 & s2 & H2 & N2); try lia.
  mrew H2. destruct t2; [|unfold ret; do 2 eexists; split; [reflexivity|lia]].
  mrew (dec_pos (Ctx:=Ctx) (lh seg + q3 seg)); [|lia].
  destruct (le_at_safe d (data + (lh seg + q3 seg - 1))
              (data + (lh seg + q3 seg)) s2)
    as (t3 & s3 & H3 & N3); try lia.
  rewrite H3. do 2 eexists; split; [reflexivity|lia].
Qed.

Lemma fully_reversed_safe s :
  exists t s', fully_reversed cmp d data elements seg s = Some (t, s')
               /\ ncmp s < ncmp s' <= ncmp s + 3.
Proof.
  unfold fully_reversed.
  mrew (dec_pos (Ctx:=Ctx) (lh seg)); [|lia].
  destruct (gt_at_safe d (data + 0) (data + (lh seg - 1)) s)
    as (t1 & s1 & H1 & N1); try lia.
  mrew H1. destruct t1; [|unfold ret; do 2 eexists; split; [reflexivity|lia]].
  mrew (dec_pos (Ctx:=Ctx) (lh seg + q3 seg)); [|lia].
  destruct (gt_at_safe d (data + q1 seg) (data + (lh seg + q3 seg - 1)) s1)
    as (t2 & s2 & H2 & N2); try lia.
  mrew H2. destruct t2; [|unfold ret; do 2 eexists; split; [reflexivity|lia]].
  mrew (dec_pos (Ctx:=Ctx) elements); [|lia].
  destruct (gt_at_safe d (data + lh seg) (data + (elements - 1)) s2)
    as (t3 & s3 & H3 & N3); try lia.
  rewrite H3. do 2 eexists; split; [reflexivity|lia].
Qed.

(** Whatever the comparator answers, the merge-decision phase of a frame
    whose descriptor has [1 <= q1 <= q2], [1 <= q3 <= q4] and [lh <= rh]
    returns, and changes no length. *)
Lemma merge_phase_safe w s :
  elements <= length w ->
  exists p d' w' s',
    merge_phase cmp d w data elements seg s = Some (p, d', w', s')
    /\ length d' = length d /\ length w' = length w.
Proof.
  intros Hw. unfold merge_phase.
  destruct (already_ordered_safe s) as (t & s1 & H1 & _). mrew H1.
  destruct t; [unfold ret; do 4 eexists; split; [reflexivity|split; reflexivity]|].
  destruct (fully_reversed_safe s1) as (t & s2 & H2 & _). mrew H2.
  destruct t.
  - destruct (rotate_safe d data w (q1 seg) (q2 seg + rh seg))
      as (d1 & w1 & R1 & L1 & L1'); try lia.
    unfold lift at 1. rewrite R1. unfold bind at 1.
    destruct (rotate_safe d1 data w1 (q2 seg) (rh seg))
      as (d2 & w2 & R2 & L2 & L2'); try lia.
    unfold lift at 1. rewrite R2. unfold bind at 1.
    destruct (rotate_safe d2 data w2 (q3 seg) (q4 seg))
      as (d3 & w3 & R3 & L3 & L3'); try lia.
    unfold lift at 1. rewrite R3. unfold bind at 1.
    unfold ret. do 4 eexists. split; [reflexivity|split; lia].
  - destruct (parity_merge_ctx_safe cmp d data w 0 (q1 seg) (q2 seg) s2)
      as (w1 & s3 & M1 & L1 & _); try lia.
    mrew M1.
    destruct (parity_merge_ctx_safe cmp d (data + lh seg) w1 (lh seg)
                (q3 seg) (q4 seg) s3)
      as (w2 & s4 & M2 & L2 & _); try lia.
    mrew M2.
    destruct (parity_merge_ctx_safe cmp w2 0 d data (lh seg) (rh seg) s4)
      as (d1 & s5 & M3 & L3 & _); try lia.
    mrew M3.
    unfold ret. do 4 eexists. split; [reflexivity|split; lia].
Qed.
End PhaseSafe.

(** ** The merge-decision phase with a read-only comparator *)

Lemma lift_some {Ctx A} (o : option A) (a : A) (s : cstate Ctx) :
  o = Some a -> lift o s = Some (a, s).
Proof. now intros ->. Qed.

Lemma load_in {E} (X : list E) x Y d i :
  d = X ++ x :: Y -> i = length X -> load d i = Some x.
Proof. intros -> ->. apply load_middle. Qed.

Section PhasePure.
Context {E Ctx : Type}.
Variable cmp : cmp_ctx_fn_t E Ctx.
Variable c0 : Ctx.
Hypothesis cmp_ro : forall a b, snd (cmp a b c0) = c0.

Lemma le_at_pure (d : list E) i j x y k :
  load d i = Some x -> load d j = Some y ->
  le_at cmp d i j (CState c0 k)
  = Some (negb (gtb_of cmp c0 x y), CState c0 (S k)).
Proof.
  intros Hx Hy. unfold le_at, ld.
  mrew (lift_some (Ctx:=Ctx) _ _ (CState c0 k) Hx).
  mrew (lift_some (Ctx:=Ctx) _ _ (CState c0 k) Hy).
  mrew (call_pure cmp c0 cmp_ro x y k).
  unfold ret. now rewrite leb_gtb.
Qed.

Lemma gt_at_pure (d : list E) i j x y k :
  load d i = Some x -> load d j = Some y ->
  gt_at cmp d i j (CState c0 k)
  = Some (gtb_of cmp c0 x y, CState c0 (S k)).
Proof.
  intros Hx Hy. unfold gt_at, ld.
  mrew (lift_some (Ctx:=Ctx) _ _ (CState c0 k) Hx).
  mrew (lift_some (Ctx:=Ctx) _ _ (CState c0 k) Hy).
  mrew (call_pure cmp c0 cmp_ro x y k).
  reflexivity.
Qed.

Variables (pre post A B C D : list E) (seg : segment_t) (elements : nat).
Hypothesis HA : length A = q1 seg.
Hypothesis HB : length B = q2 seg.
Hypothesis HC : length C = q3 seg.
Hypothesis HD : length D = q4 seg.
Hypothesis Hlh : lh seg = q1 seg + q2 seg.
Hypothesis Hrh : rh seg = q3 seg + q4 seg.
Hypothesis Hn : lh seg + rh seg = elements.
Hypothesis Hq12 : 1 <= q1 seg /\ q1 seg <= q2 seg <= q1 seg + 1.
Hypothesis Hq34 : 1 <= q3 seg /\ q3 seg <= q4 seg <= q3 seg + 1.
Hypothesis Hlr : lh seg <= rh seg <= lh seg + 1.

Let d := pre ++ A ++ B ++ C ++ D ++ post.
Let data := length pre.
Let gtb := gtb_of cmp c0.

Lemma already_ordered_pure k :
  already_ordered cmp d data seg (CState c0 k)
  = Some (fst (nested3 (ends_below gtb A B) (ends_below gtb B C)
                       (ends_below gtb C D)),
          CState c0 (k + snd (nested3 (ends_below gtb A B) (ends_below gtb B C)
                                      (ends_below gtb C D)))).
Proof.
  destruct (last_of A) as (A2 & a9 & EA); [lia|].
  destruct (head_of B) as (b0 & B1 & EB); [lia|].
  destruct (last_of B) as (B2 & b9 & EB'); [lia|].
  destruct (head_of C) as (c1 & C1 & EC); [lia|].
  destruct (last_of C) as (C2 & c9 & EC'); [lia|].
  destruct (head_of D) as (d0 & D1 & ED); [lia|].
  assert (T1 : ends_below gtb A B = negb (gtb a9 b0)).
  { unfold ends_below. rewrite EA, rev_unit, EB. reflexivity. }
  assert (T2 : ends_below gtb B C = negb (gtb b9 c1)).
  { unfold ends_below. rewrite EB', rev_unit, EC. reflexivity. }
  assert (T3 : ends_below gtb C D = negb (gtb c9 d0)).
  { unfold ends_below. rewrite EC', rev_unit, ED. reflexivity. }
  rewrite T1, T2, T3. unfold already_ordered.
  mrew (dec_pos (Ctx:=Ctx) (q1 seg)); [|lia].
  mrew (le_at_pure d (data + (q1 seg - 1)) (data + q1 seg) a9 b0 k).
  2:{ apply (load_in (pre ++ A2) a9 (B ++ C ++ D ++ post)).
      - unfold d. rewrite EA. list_eq.
      - unfold data. rewrite length_app.
        rewrite EA, length_app in HA. cbn [length] in HA. lia. }
  2:{ apply (load_in (pre ++ A) b0 (B1 ++ C ++ D ++ post)).
      - unfold d. rewrite EB. list_eq.
      - unfold data. rewrite length_app. lia. }
  fold gtb. destruct (gtb a9 b0); cbn [negb nested3 fst snd].
  { unfold ret. apply some_state_eq; [reflexivity|lia]. }
  mrew (dec_pos (Ctx:=Ctx) (lh seg)); [|lia].
  mrew (le_at_pure d (data + (lh seg - 1)) (data + lh seg) b9 c1 (S k)).
  2:{ apply (load_in (pre ++ A ++ B2) b9 (C ++ D ++ post)).
      - unfold d. rewrite EB'. list_eq.
      - unfold data. rewrite !length_app.
        rewrite EB', length_app in HB. cbn [length] in HB. lia. }
  2:{ apply (load_in (pre ++ A ++ B) c1 (C1 ++ D ++ post)).
      - unfold d. rewrite EC. list_eq.
      - unfold data. rewrite !length_app. lia. }
  fold gtb. destruct (gtb b9 c1); cbn [negb nested3 fst snd].
  { unfold ret. apply some_state_eq; [reflexivity|lia]. }
  mrew (dec_pos (Ctx:=Ctx) (lh seg + q3 seg)); [|lia].
  rewrite (le_at_pure d (data + (lh seg + q3 seg - 1))
             (data + (lh seg + q3 seg)) c9 d0 (S (S k))).
  - fold gtb. apply some_state_eq; [reflexivity|lia].
  - apply (load_in (pre ++ A ++ B ++ C2) c9 (D ++ post)).
    + unfold d. rewrite EC'. list_eq.
    + unfold data. rewrite !length_app.
      rewrite EC', length_app in HC. cbn [length] in HC. lia.
  - apply (load_in (pre ++ A ++ B ++ C) d0 (D1 ++ post)).
    + unfold d. rewrite ED. list_eq.
    + unfold data. rewrite !length_app. lia.
Qed.

Lemma fully_reversed_pure k :
  fully_reversed cmp d data elements seg (CState c0 k)
  = Some (fst (nested3 (starts_above gtb A B) (starts_above gtb B C)
                       (starts_above gtb C D)),
          CState c0 (k + snd (nested3 (starts_above gtb A B)
                                      (starts_above gtb B C)
                                      (starts_above gtb C D)))).
Proof.
  destruct (head_of A) as (a0 & A1 & EA); [lia|].
  destruct (head_of B) as (b0 & B1 & EB); [lia|].
  destruct (last_of B) as (B2 & b9 & EB'); [lia|].
  destruct (head_of C) as (c1 & C1 & EC); [lia|].
  destruct (last_of C) as (C2 & c9 & EC'); [lia|].
  destruct (last_of D) as (D2 & d9 & ED); [lia|].
  assert (T1 : starts_above gtb A B = gtb a0 b9).
  { unfold starts_above. rewrite EB', rev_unit, EA. reflexivity. }
  assert (T2 : starts_above gtb B C = gtb b0 c9).
  { unfold starts_above. rewrite EC', rev_unit, EB. reflexivity. }
  assert (T3 : starts_above gtb C D = gtb c1 d9).
  { unfold starts_above. rewrite ED, rev_unit, EC. reflexivity. }
  rewrite T1, T2, T3. unfold fully_reversed.
  mrew (dec_pos (Ctx:=Ctx) (lh seg)); [|lia].
  mrew (gt_at_pure d (data + 0) (data + (lh seg - 1)) a0 b9 k).
  2:{ apply (load_in pre a0 (A1 ++ B ++ C ++ D ++ post)).
      - unfold d. rewrite EA. list_eq.
      - unfold data. lia. }
  2:{ apply (load_in (pre ++ A ++ B2) b9 (C ++ D ++ post)).
      - unfold d. rewrite EB'. list_eq.
      - unfold data. rewrite !length_app.
        rewrite EB', length_app in HB. cbn [length] in HB. lia. }
  fold gtb. destruct (gtb a0 b9); cbn [nested3 fst snd].
  2:{ unfold ret. apply some_state_eq; [reflexivity|lia]. }
  mrew (dec_pos (Ctx:=Ctx) (lh seg + q3 seg)); [|lia].
  mrew (gt_at_pure d (data + q1 seg) (data + (lh seg + q3 seg - 1)) b0 c9 (S k)).
  2:{ apply (load_in (pre ++ A) b0 (B1 ++ C ++ D ++ post)).
      - unfold d. rewrite EB. list_eq.
      - unfold data. rewrite !length_app. lia. }
  2:{ apply (load_in (pre ++ A ++ B ++ C2) c9 (D ++ post)).
      - unfold d. rewrite EC'. list_eq.
      - unfold data. rewrite !length_app.
        rewrite EC', length_app in HC. cbn [length] in HC. lia. }
  fold gtb. destruct (gtb b0 c9); cbn [nested3 fst snd].
  2:{ unfold ret. apply some_state_eq; [reflexivity|lia]. }
  mrew (dec_pos (Ctx:=Ctx) elements); [|lia].
  rewrite (gt_at_pure d (data + lh seg) (data + (elements - 1)) c1 d9 (S (S k))).
  - fold gtb. apply some_state_eq; [reflexivity|lia].
  - apply (load_in (pre ++ A ++ B) c1 (C1 ++ D ++ post)).
    + unfold d. rewrite EC. list_eq.
    + unfold data. rewrite !length_app. lia.
  - apply (load_in (pre ++ A ++ B ++ C ++ D2) d9 post).
    + unfold d. rewrite ED. list_eq.
    + unfold data. rewrite !length_app.
      rewrite ED, length_app in HD. cbn [length] in HD. lia.
Qed.

Lemma bmerge_length (l : list E) : forall r,
  length (bmerge gtb l r) = length l + length r.
Proof.
  induction l as [|a l IHl]; intros r; [reflexivity|].
  induction r as [|b r IHr]; [rewrite bmerge_nil_r; cbn; lia|].
  rewrite bmerge_cons. destruct (gtb a b); cbn [length].
  - rewrite IHl. cbn [length]. lia.
  - rewrite IHr. cbn [length]. lia.
Qed.

Lemma parity_merge_length (l r : list E) :
  length (parity_merge gtb l r) = length l + length r.
Proof.
  unfold parity_merge.
  rewrite length_app, length_rev, !length_firstn, merge_length, bmerge_length,
    !length_rev.
  lia.
Qed.

(** The merge-decision phase does what [phase_spec] says. *)
Lemma merge_phase_pure w k :
  elements <= length w ->
  exists w',
    merge_phase cmp d w data elements seg (CState c0 k)
    = Some (fst (fst (phase_spec gtb A B C D)),
            pre ++ snd (fst (phase_spec gtb A B C D)) ++ post, w',
            CState c0 (k + snd (phase_spec gtb A B C D)))
    /\ length w' = length w
    /\ (fst (fst (phase_spec gtb A B C D)) = Ordered -> w' = w).
Proof.
  intros Hw. unfold merge_phase, phase_spec.
  mrew (already_ordered_pure k).
  destruct (nested3 (ends_below gtb A B) (ends_below gtb B C)
                    (ends_below gtb C D)) as [o no].
  cbn [fst snd]. destruct o.
  { exists w. cbn [fst snd]. split; [|split; reflexivity].
    unfold ret, d. apply some_state_eq; [|reflexivity].
    f_equal. f_equal. list_eq. }
  mrew (fully_reversed_pure (k + no)).
  destruct (nested3 (starts_above gtb A B) (starts_above gtb B C)
                    (starts_above gtb C D)) as [r nr].
  cbn [fst snd]. destruct r; cbn [fst snd].
  - assert (R1 : rotate d data w (q1 seg) (q2 seg + rh seg)
                 = Some (pre ++ (B ++ C ++ D) ++ A ++ post,
                         A ++ skipn (q1 seg) w)).
    { unfold d, data.
      replace (pre ++ A ++ B ++ C ++ D ++ post)
        with (pre ++ A ++ (B ++ C ++ D) ++ post) by list_eq.
      apply rotate_spec; rewrite ?length_app; lia. }
    mrew (lift_some (Ctx:=Ctx) _ _ (CState c0 (k + no + nr)) R1).
    assert (R2 : rotate (pre ++ (B ++ C ++ D) ++ A ++ post) data
                        (A ++ skipn (q1 seg) w) (q2 seg) (rh seg)
                 = Some (pre ++ (C ++ D) ++ B ++ A ++ post,
                         B ++ skipn (q2 seg) (A ++ skipn (q1 seg) w))).
    { unfold data.
      replace (pre ++ (B ++ C ++ D) ++ A ++ post)
        with (pre ++ B ++ (C ++ D) ++ (A ++ post)) by list_eq.
      rewrite rotate_spec; rewrite ?length_app, ?length_skipn; try lia.
      reflexivity. }
    mrew (lift_some (Ctx:=Ctx) _ _ (CState c0 (k + no + nr)) R2).
    assert (R3 : rotate (pre ++ (C ++ D) ++ B ++ A ++ post) data
                        (B ++ skipn (q2 seg) (A ++ skipn (q1 seg) w))
                        (q3 seg) (q4 seg)
                 = Some (pre ++ D ++ C ++ B ++ A ++ post,
                         C ++ skipn (q3 seg)
                           (B ++ skipn (q2 seg) (A ++ skipn (q1 seg) w)))).
    { unfold data.
      replace (pre ++ (C ++ D) ++ B ++ A ++ post)
        with (pre ++ C ++ D ++ (B ++ A ++ post)) by list_eq.
      rewrite rotate_spec; rewrite ?length_app, ?length_skipn; try lia.
      reflexivity. }
    mrew (lift_some (Ctx:=Ctx) _ _ (CState c0 (k + no + nr)) R3).
    eexists. split; [|split; [|discriminate]].
    + unfold ret. apply some_state_eq; [|lia].
      apply f_equal2; [apply f_equal2; [reflexivity|list_eq]|reflexivity].
    + rewrite !length_app, !length_skipn, !length_app, !length_skipn,
        !length_app, !length_skipn. lia.
  - pose proof (parity_merge_length A B) as L1.
    pose proof (parity_merge_length C D) as L2.
    assert (M1 : parity_merge_ctx cmp d data w 0 (q1 seg) (q2 seg)
                   (CState c0 (k + no + nr))
                 = Some (parity_merge gtb A B ++ skipn (lh seg) w,
                         CState c0 (k + no + nr + length A + length B))).
    { unfold d, data. rewrite <- HA, <- HB.
      replace (pre ++ A ++ B ++ C ++ D ++ post)
        with (pre ++ (A ++ B) ++ (C ++ D ++ post)) by list_eq.
      rewrite <- (firstn_skipn (lh seg) w) at 1.
      apply (parity_merge_ctx_pure cmp c0 cmp_ro pre (C ++ D ++ post)
               [] (skipn (lh seg) w) A B (firstn (lh seg) w)); try lia.
      rewrite length_firstn. lia. }
    mrew M1.
    assert (M2 : parity_merge_ctx cmp d (data + lh seg)
                   (parity_merge gtb A B ++ skipn (lh seg) w) (lh seg)
                   (q3 seg) (q4 seg)
                   (CState c0 (k + no + nr + length A + length B))
                 = Some (parity_merge gtb A B ++ parity_merge gtb C D
                           ++ skipn (rh seg) (skipn (lh seg) w),
                         CState c0 (k + no + nr + length A + length B
                                    + length C + length D))).
    { unfold d, data. rewrite <- HC, <- HD.
      replace (pre ++ A ++ B ++ C ++ D ++ post)
        with ((pre ++ A ++ B) ++ (C ++ D) ++ post) by list_eq.
      replace (length pre + lh seg) with (length (pre ++ A ++ B))
        by (rewrite !length_app; lia).
      replace (lh seg) with (length (parity_merge gtb A B)) at 2 by lia.
      rewrite <- (firstn_skipn (rh seg) (skipn (lh seg) w)) at 1.
      apply (parity_merge_ctx_pure cmp c0 cmp_ro (pre ++ A ++ B) post
               (parity_merge gtb A B) (skipn (rh seg) (skipn (lh seg) w))
               C D (firstn (rh seg) (skipn (lh seg) w))); try lia.
      rewrite length_firstn, length_skipn. lia. }
    mrew M2.
    assert (M3 : parity_merge_ctx cmp
                   (parity_merge gtb A B ++ parity_merge gtb C D
                      ++ skipn (rh seg) (skipn (lh seg) w))
                   0 d data (lh seg) (rh seg)
                   (CState c0 (k + no + nr + length A + length B
                               + length C + length D))
                 = Some (pre ++ parity_merge gtb (parity_merge gtb A B)
                                  (parity_merge gtb C D) ++ post,
                         CState c0 (k + no + nr + length A + length B
                                    + length C + length D
                                    + length (parity_merge gtb A B)
                                    + length (parity_merge gtb C D)))).
    { unfold d, data.
      replace (lh seg) with (length (parity_merge gtb A B)) by lia.
      replace (rh seg) with (length (parity_merge gtb C D)) at 2 by lia.
      replace (pre ++ A ++ B ++ C ++ D ++ post)
        with (pre ++ (A ++ B ++ C ++ D) ++ post) by list_eq.
      replace (parity_merge gtb A B ++ parity_merge gtb C D
                 ++ skipn (rh seg) (skipn (length (parity_merge gtb A B)) w))
        with ([] ++ (parity_merge gtb A B ++ parity_merge gtb C D)
                 ++ skipn (rh seg) (skipn (length (parity_merge gtb A B)) w))
        by list_eq.
      apply (parity_merge_ctx_pure cmp c0 cmp_ro []
               (skipn (rh seg) (skipn (length (parity_merge gtb A B)) w))
               pre post (parity_merge gtb A B) (parity_merge gtb C D)
               (A ++ B ++ C ++ D)); rewrite ?length_app; lia. }
    mrew M3.
    eexists. split; [|split; [|discriminate]].
    + unfold ret. apply some_state_eq; [reflexivity|].
      rewrite !length_app, L1, L2. lia.
    + rewrite !length_app, !length_skipn. lia.
Qed.

End PhasePure.

(** ** What the merge-decision phase leaves behind *)

Section PhaseOrder.
Context {E : Type}.
Variable gtb : E -> E -> bool.
Hypothesis WO : weak_order gtb.

Lemma parity_merge_merge l r :
  sorted gtb l -> sorted gtb r -> parity_merge gtb l r = merge gtb l r.
Proof. apply (parity_fronts gtb WO). Qed.

Lemma sorted_last X a x : sorted gtb (X ++ [a]) -> In x (X ++ [a]) -> gtb x a = false.
Proof.
  intros H Hx. apply in_app_or in Hx. destruct Hx as [Hx|[<-|[]]].
  - apply (sorted_app gtb) in H. destruct H as (_ & _ & H).
    apply H; [assumption|now left].
  - apply (gtb_irrefl gtb WO).
Qed.

Lemma sorted_first a X x : sorted gtb (a :: X) -> In x (a :: X) -> gtb a x = false.
Proof.
  intros H [<-|Hx].
  - apply (gtb_irrefl gtb WO).
  - apply (sorted_cons gtb) in H. destruct H as [_ H]. now apply H.
Qed.

Lemma ends_below_all_le X Y :
  sorted gtb X -> sorted gtb Y -> ends_below gtb X Y = true -> all_le gtb X Y.
Proof.
  intros HX HY H x y Hx Hy. unfold ends_below in H.
  destruct (rev X) as [|a X'] eqn:EX; [discriminate|].
  destruct Y as [|b Y']; [discriminate|].
  apply negb_true_iff in H.
  assert (EX' : X = rev X' ++ [a]).
  { rewrite <- (rev_involutive X), EX. reflexivity. }
  rewrite EX' in HX, Hx.
  apply (le_trans WO) with a; [now apply (sorted_last (rev X'))|].
  apply (le_trans WO) with b; [assumption|now apply (sorted_first b Y')].
Qed.

Lemma starts_above_all_gt X Y :
  sorted gtb X -> sorted gtb Y -> starts_above gtb X Y = true -> all_gt gtb X Y.
Proof.
  intros HX HY H x y Hx Hy. unfold starts_above in H.
  destruct X as [|a X']; [discriminate|].
  destruct (rev Y) as [|b Y'] eqn:EY; [discriminate|].
  assert (EY' : Y = rev Y' ++ [b]).
  { rewrite <- (rev_involutive Y), EY. reflexivity. }
  rewrite EY' in HY, Hy.
  apply (gt_le_trans gtb WO) with b; [|now apply (sorted_last (rev Y'))].
  apply (le_gt_trans gtb WO) with a; [now apply (sorted_first a X')|assumption].
Qed.

Lemma all_le_ends_below X Y :
  X <> [] -> Y <> [] -> all_le gtb X Y -> ends_below gtb X Y = true.
Proof.
  intros HX HY H. unfold ends_below.
  destruct (rev X) as [|a X'] eqn:EX.
  { apply (f_equal (@rev E)) in EX. rewrite rev_involutive in EX. contradiction. }
  destruct Y as [|b Y']; [contradiction|].
  apply negb_true_iff. apply H; [|now left].
  apply in_rev. rewrite EX. now left.
Qed.

Lemma all_gt_starts_above X Y :
  X <> [] -> Y <> [] -> all_gt gtb X Y -> starts_above gtb X Y = true.
Proof.
  intros HX HY H. unfold starts_above.
  destruct X as [|a X']; [contradiction|].
  destruct (rev Y) as [|b Y'] eqn:EY.
  { apply (f_equal (@rev E)) in EY. rewrite rev_involutive in EY. contradiction. }
  apply H; [now left|]. apply in_rev. rewrite EY. now left.
Qed.

Lemma all_gt_not_ends_below X Y :
  X <> [] -> Y <> [] -> all_gt gtb X Y -> ends_below gtb X Y = false.
Proof.
  intros HX HY H. unfold ends_below.
  destruct (rev X) as [|a X'] eqn:EX; [reflexivity|].
  destruct Y as [|b Y']; [reflexivity|].
  apply negb_false_iff. apply H; [|now left].
  apply in_rev. rewrite EX. now left.
Qed.

Lemma all_le_trans X Y Z : Y <> [] -> all_le gtb X Y -> all_le gtb Y Z -> all_le gtb X Z.
Proof.
  intros HY H1 H2 x z Hx Hz. destruct Y as [|y Y]; [contradiction|].
  apply (le_trans WO) with y; [apply H1|apply H2]; auto; now left.
Qed.

Lemma all_gt_trans X Y Z : Y <> [] -> all_gt gtb X Y -> all_gt gtb Y Z -> all_gt gtb X Z.
Proof.
  intros HY H1 H2 x z Hx Hz. destruct Y as [|y Y]; [contradiction|].
  apply (gt_trans gtb WO) with y; [apply H1|apply H2]; auto; now left.
Qed.

Lemma all_le_app_r X Y Z : all_le gtb X Y -> all_le gtb X Z -> all_le gtb X (Y ++ Z).
Proof.
  intros H1 H2 x y Hx Hy. apply in_app_or in Hy. destruct Hy; auto.
Qed.

Lemma all_gt_le X Y : all_gt gtb X Y -> all_le gtb Y X.
Proof. intros H y x Hy Hx. apply (gtb_asym WO). now apply H. Qed.

Lemma sorted_app2 X Y : sorted gtb X -> sorted gtb Y -> all_le gtb X Y -> sorted gtb (X ++ Y).
Proof. intros HX HY H. apply (sorted_app gtb). auto. Qed.

Variables A B C D : list E.
Hypothesis NA : A <> [].
Hypothesis NB : B <> [].
Hypothesis NC : C <> [].
Hypothesis ND : D <> [].
Hypothesis SA : sorted gtb A.
Hypothesis SB : sorted gtb B.
Hypothesis SC : sorted gtb C.
Hypothesis SD : sorted gtb D.

Lemma nested3_true t1 t2 t3 n :
  nested3 t1 t2 t3 = (true, n) -> t1 = true /\ t2 = true /\ t3 = true /\ n = 3.
Proof.
  unfold nested3. destruct t1, t2, t3; intros H; inversion H; auto.
Qed.

Lemma stable_disjoint4 (fA fB fC fD : list E) :
  (fA = [] \/ fB = []) -> (fA = [] \/ fC = []) -> (fA = [] \/ fD = []) ->
  (fB = [] \/ fC = []) -> (fB = [] \/ fD = []) -> (fC = [] \/ fD = []) ->
  fD ++ fC ++ fB ++ fA = fA ++ fB ++ fC ++ fD.
Proof.
  intros H1 H2 H3 H4 H5 H6.
  destruct fA, fB, fC, fD; cbn [app]; rewrite ?app_nil_r;
    try reflexivity; exfalso; intuition discriminate.
Qed.

(** The run left by the merge-decision phase is the four sorted quarters
    sorted, with equal elements in their former order. *)
Lemma phase_spec_sorts p run' n :
  phase_spec gtb A B C D = (p, run', n) ->
  Permutation (A ++ B ++ C ++ D) run'
  /\ sorted gtb run'
  /\ stable gtb (A ++ B ++ C ++ D) run'.
Proof.
  unfold phase_spec.
  destruct (nested3 (ends_below gtb A B) (ends_below gtb B C)
                    (ends_below gtb C D)) as [o no] eqn:N1.
  destruct o.
  { intros H. inversion H; subst. clear H.
    apply nested3_true in N1. destruct N1 as (T1 & T2 & T3 & _).
    apply ends_below_all_le in T1, T2, T3; auto.
    split; [reflexivity|]. split; [|intros e; reflexivity].
    assert (T13 : all_le gtb A C) by (apply all_le_trans with B; auto).
    assert (T24 : all_le gtb B D) by (apply all_le_trans with C; auto).
    assert (T14 : all_le gtb A D) by (apply all_le_trans with B; auto).
    repeat (apply sorted_app2 || apply all_le_app_r); auto. }
  destruct (nested3 (starts_above gtb A B) (starts_above gtb B C)
                    (starts_above gtb C D)) as [r nr] eqn:N2.
  destruct r.
  { intros H. inversion H; subst. clear H.
    apply nested3_true in N2. destruct N2 as (T1 & T2 & T3 & _).
    apply starts_above_all_gt in T1, T2, T3; auto.
    assert (T13 : all_gt gtb A C) by (apply all_gt_trans with B; auto).
    assert (T24 : all_gt gtb B D) by (apply all_gt_trans with C; auto).
    assert (T14 : all_gt gtb A D) by (apply all_gt_trans with B; auto).
    split; [|split].
    - transitivity ((B ++ C ++ D) ++ A); [apply Permutation_app_comm|].
      replace (D ++ C ++ B ++ A) with ((D ++ C ++ B) ++ A) by list_eq.
      apply Permutation_app_tail.
      transitivity ((C ++ D) ++ B); [apply Permutation_app_comm|].
      replace (D ++ C ++ B) with ((D ++ C) ++ B) by list_eq.
      apply Permutation_app_tail. apply Permutation_app_comm.
    - repeat (apply sorted_app2 || apply all_le_app_r);
        auto using all_gt_le.
    - intros e. rewrite !filter_app. apply stable_disjoint4;
        apply (filter_eqvb_above gtb WO); assumption. }
  intros H. inversion H; subst. clear H.
  rewrite (parity_merge_merge A B), (parity_merge_merge C D) by assumption.
  rewrite parity_merge_merge by (apply (merge_sorted gtb WO); assumption).
  split; [|split].
  - rewrite <- merge_perm. rewrite <- !merge_perm. now rewrite <- app_assoc.
  - repeat apply (merge_sorted gtb WO); assumption.
  - intros e. rewrite (merge_stable gtb WO)
      by (apply (merge_sorted gtb WO); assumption).
    rewrite filter_app, !(merge_stable gtb WO) by assumption.
    rewrite <- filter_app. now rewrite <- app_assoc.
Qed.

(** Sorted input: the already-ordered path, after three comparator calls. *)
Lemma phase_spec_ordered :
  sorted gtb (A ++ B ++ C ++ D) ->
  phase_spec gtb A B C D = (Ordered, A ++ B ++ C ++ D, 3).
Proof.
  intros H. unfold phase_spec.
  apply (sorted_app gtb) in H. destruct H as (_ & H & HAB).
  apply (sorted_app gtb) in H. destruct H as (_ & H & HBC).
  apply (sorted_app gtb) in H. destruct H as (_ & _ & HCD).
  rewrite (all_le_ends_below A B), (all_le_ends_below B C),
    (all_le_ends_below C D); auto.
  - intros x y Hx Hy. apply HBC; [assumption|]. apply in_or_app. now left.
  - intros x y Hx Hy. apply HAB; [assumption|]. apply in_or_app. now left.
Qed.

(** Quarters in descending block order: the rotation path, after four
    comparator calls. *)
Lemma phase_spec_rotated :
  all_gt gtb A B -> all_gt gtb B C -> all_gt gtb C D ->
  phase_spec gtb A B C D = (Rotated, D ++ C ++ B ++ A, 4).
Proof.
  intros H1 H2 H3. unfold phase_spec.
  rewrite (all_gt_not_ends_below A B) by assumption.
  rewrite (all_gt_starts_above A B), (all_gt_starts_above B C),
    (all_gt_starts_above C D) by assumption.
  reflexivity.
Qed.
End PhaseOrder.

(** ** The engine: a frame runs like a recursive call *)

Section EngineSteps.
Context {E Ctx : Type}.
Variable cmp : cmp_ctx_fn_t E Ctx.

Lemma steps_step k c s c1 s1 r :
  step cmp c s = Some (c1, s1) -> steps cmp k c1 s1 = r ->
  steps cmp (S k) c s = r.
Proof. intros H1 H2. cbn [steps]. now rewrite H1. Qed.

Lemma steps_trans a : forall b c s c1 s1 r,
  steps cmp a c s = Some (c1, s1) -> steps cmp b c1 s1 = r ->
  steps cmp (a + b) c s = r.
Proof.
  induction a as [|a IH]; intros b c s c1 s1 r H1 H2.
  - cbn in H1. apply some_inj in H1. inversion H1; subst c1 s1. exact H2.
  - cbn [steps Nat.add] in *.
    destruct (step cmp c s) as [[c' s']|]; [|discriminate].
    eapply IH; eauto.
Qed.

(** Running with enough fuel goes through the configurations [steps]
    reaches. *)
Lemma run_steps k : forall fuel c s c1 s1,
  steps cmp k c s = Some (c1, s1) ->
  run cmp (k + fuel) c s = run cmp fuel c1 s1.
Proof.
  induction k as [|k IH]; intros fuel c s c1 s1 H.
  - cbn in H. apply some_inj in H. inversion H; subst c1 s1. reflexivity.
  - cbn [steps] in H.
    destruct (step cmp c s) as [[c' s']|] eqn:Hstep; [|discriminate].
    specialize (IH fuel c' s' c1 s1 H).
    cbn [Nat.add run]. destruct (stk c) eqn:Hstk.
    + unfold step in Hstep. rewrite Hstk in Hstep. unfold ret in Hstep.
      apply some_inj in Hstep. inversion Hstep; subst c' s'.
      rewrite <- IH. destruct (k + fuel); cbn [run]; now rewrite Hstk.
    + rewrite Hstep. exact IH.
Qed.

Lemma grown_le cap n : cap <= grown cap n.
Proof. unfold grown. destruct (cap <=? n + 1); lia. Qed.

Lemma grown_room cap n : 1 <= n <= cap -> n < grown cap n.
Proof.
  unfold grown. intros H. destruct (Nat.leb_spec cap (n + 1)); lia.
Qed.

Lemma schedule_ok cap below data elements seg next child child_elements
      (s : cstate Ctx) :
  length below + 1 < cap ->
  schedule cap below data elements seg next child child_elements s
  = Some (Frame child child_elements seg ret_addr_0
            :: Frame data elements seg next :: below, s).
Proof.
  intros H. unfold schedule, push.
  destruct (Nat.ltb_spec (length below) cap); [|lia].
  unfold bind at 1. unfold ret at 1. cbn [length].
  destruct (Nat.ltb_spec (S (length below)) cap); [|lia].
  reflexivity.
Qed.

(** One scheduling step: the parent is re-pushed with the next label and the
    child's run is sorted. *)
Lemma run_child lbl next data elements seg child n d w s d' w' s' k
      below cap :
  (forall c, step cmp (Config (Frame data elements seg lbl :: below) c d w) s
             = (t <- schedule (grown c (S (length below))) below data elements
                       seg next child n ;;
                ret (Config t (grown c (S (length below))) d w)) s) ->
  simulates cmp child n d w s d' w' s' k ->
  length below < cap ->
  exists cap',
    cap <= cap'
    /\ steps cmp (S k) (Config (Frame data elements seg lbl :: below) cap d w) s
       = Some (Config (Frame data elements seg next :: below) cap' d' w', s').
Proof.
  intros Hstep Hsim Hlen.
  pose proof (grown_le cap (S (length below))) as Hg.
  pose proof (grown_room cap (S (length below)) ltac:(lia)) as Hr.
  destruct (Hsim (Frame data elements seg next :: below)
                 (grown cap (S (length below))) seg)
    as (cap' & Hc & Hrun).
  { cbn [length]. lia. }
  exists cap'. split; [lia|].
  eapply steps_step; [|exact Hrun].
  rewrite Hstep. unfold bind. rewrite schedule_ok by lia. reflexivity.
Qed.

(** The four quarters of a frame: from its entry to its merge-decision
    phase. *)
Lemma run_children data elements d0 w0 s0 d1 w1 s1 d2 w2 s2 d3 w3 s3 d4 w4 s4
      k1 k2 k3 k4 :
  7 < elements ->
  simulates cmp (data + 0) (q1 (partition_array elements)) d0 w0 s0 d1 w1 s1 k1 ->
  simulates cmp (data + q1 (partition_array elements))
            (q2 (partition_array elements)) d1 w1 s1 d2 w2 s2 k2 ->
  simulates cmp (data + lh (partition_array elements))
            (q3 (partition_array elements)) d2 w2 s2 d3 w3 s3 k3 ->
  simulates cmp (data + (lh (partition_array elements)
                     + q3 (partition_array elements)))
            (q4 (partition_array elements)) d3 w3 s3 d4 w4 s4 k4 ->
  forall below cap seg0,
    length below < cap ->
    exists cap',
      cap <= cap'
      /\ steps cmp (4 + k1 + k2 + k3 + k4)
               (Config (Frame data elements seg0 ret_addr_0 :: below) cap d0 w0) s0
         = Some (Config (Frame data elements (partition_array elements)
                               ret_addr_4 :: below) cap' d4 w4, s4).
Proof.
  intros Hn H1 H2 H3 H4 below cap seg0 Hlen.
  set (seg := partition_array elements) in *.
  pose proof (grown_le cap (S (length below))) as Hg.
  pose proof (grown_room cap (S (length below)) ltac:(lia)) as Hr.
  destruct (H1 (Frame data elements seg ret_addr_1 :: below)
               (grown cap (S (length below))) seg)
    as (cap1 & Hc1 & Hrun1).
  { cbn [length]. lia. }
  assert (R0 : steps cmp (S k1)
                 (Config (Frame data elements seg0 ret_addr_0 :: below) cap d0 w0) s0
               = Some (Config (Frame data elements seg ret_addr_1 :: below)
                              cap1 d1 w1, s1)).
  { eapply steps_step; [|exact Hrun1].
    cbn [step stk fr_ret_addr fr_elements fr_data fr_segment frame_capacity length
         c_data c_swap].
    destruct (Nat.leb_spec elements 7); [lia|].
    fold seg. fold (grown cap (S (length below))).
    unfold bind. rewrite schedule_ok by lia. reflexivity. }
  destruct (run_child ret_addr_1 ret_addr_2 data elements seg
              (data + q1 seg) (q2 seg) d1 w1 s1 d2 w2 s2 k2 below cap1)
    as (cap2 & Hc2 & Hrun2); try assumption; try lia.
  { intros c. reflexivity. }
  destruct (run_child ret_addr_2 ret_addr_3 data elements seg
              (data + lh seg) (q3 seg) d2 w2 s2 d3 w3 s3 k3 below cap2)
    as (cap3 & Hc3 & Hrun3); try assumption; try lia.
  { intros c. reflexivity. }
  destruct (run_child ret_addr_3 ret_addr_4 data elements seg
              (data + (lh seg + q3 seg)) (q4 seg) d3 w3 s3 d4 w4 s4 k4 below cap3)
    as (cap4 & Hc4 & Hrun4); try assumption; try lia.
  { intros c. reflexivity. }
  exists cap4. split; [lia|].
  replace (4 + k1 + k2 + k3 + k4) with (S k1 + (S k2 + (S k3 + S k4))) by lia.
  eapply steps_trans; [exact R0|].
  eapply steps_trans; [exact Hrun2|].
  eapply steps_trans; [exact Hrun3|exact Hrun4].
Qed.

Lemma run_phase data elements seg below cap d w s p d' w' s' :
  merge_phase cmp d w data elements seg s = Some (p, d', w', s') ->
  steps cmp 1 (Config (Frame data elements seg ret_addr_4 :: below) cap d w) s
  = Some (Config below (grown cap (S (length below))) d' w', s').
Proof.
  intros H. eapply steps_step; [|reflexivity].
  cbn [step stk fr_ret_addr fr_elements fr_data fr_segment frame_capacity length
       c_data c_swap].
  unfold bind. rewrite H. reflexivity.
Qed.

(** The engine runs a frame as the recursion would. *)
Lemma sorts_simulates data elements d w s d' w' s' k :
  sorts cmp data elements d w s d' w' s' k ->
  simulates cmp data elements d w s d' w' s' k.
Proof.
  induction 1 as [data elements d w s d' s' Hn Hsort
                 |data elements d0 w0 s0 d1 w1 s1 d2 w2 s2 d3 w3 s3 d4 w4 s4
                       k1 k2 k3 k4 p d' w' s' Hn _ IH1 _ IH2 _ IH3 _ IH4 Hphase].
  - intros below cap seg0 Hlen.
    exists (grown cap (S (length below))). split; [apply grown_le|].
    eapply steps_step; [|reflexivity].
    cbn [step stk fr_ret_addr fr_elements fr_data fr_segment frame_capacity length
         c_data c_swap].
    destruct (Nat.leb_spec elements 7); [|lia].
    unfold bind. rewrite Hsort. reflexivity.
  - intros below cap seg0 Hlen.
    destruct (run_children data elements d0 w0 s0 d1 w1 s1 d2 w2 s2 d3 w3 s3
                d4 w4 s4 k1 k2 k3 k4 Hn IH1 IH2 IH3 IH4 below cap seg0 Hlen)
      as (cap4 & Hc4 & Hrun).
    exists (grown cap4 (S (length below))). split.
    + pose proof (grown_le cap4 (S (length below))). lia.
    + replace (5 + k1 + k2 + k3 + k4) with (4 + k1 + k2 + k3 + k4 + 1) by lia.
      eapply steps_trans; [exact Hrun|].
      eapply run_phase. eassumption.
Qed.
End EngineSteps.

(** ** Every frame returns, whatever the comparator answers *)

Section EngineSafe.
Context {E Ctx : Type}.
Variable cmp : cmp_ctx_fn_t E Ctx.

Lemma sorts_exists elements : forall data d w s,
  data + elements <= length d -> elements <= length w ->
  exists d' w' s' k,
    sorts cmp data elements d w s d' w' s' k
    /\ length d' = length d /\ length w' = length w
    /\ (k = 1 \/ k + 2 <= 2 * elements).
Proof.
  induction elements as [elements IH] using lt_wf_ind.
  intros data d w s Hd Hw.
  destruct (Nat.le_gt_cases elements 7) as [Hle|Hgt].
  - destruct (oddeven_sort_ctx_safe cmp d data elements s Hd)
      as (d' & s' & Hs & Hl).
    exists d', w, s', 1. split; [|auto].
    now constructor.
  - pose proof (partition_array_sizes elements) as Hsz.
    pose proof (partition_array_large elements Hgt) as Hlg.
    cbv zeta in Hsz, Hlg.
    set (seg := partition_array elements) in *.
    destruct Hsz as (Hlh & Hrh & Hn & Hq12 & Hq34 & Hlr).
    destruct Hlg as (Hq1 & Hq3 & Hl4).
    destruct (IH (q1 seg) ltac:(lia) (data + 0) d w s)
      as (d1 & w1 & s1 & k1 & S1 & Ld1 & Lw1 & K1); try lia.
    destruct (IH (q2 seg) ltac:(lia) (data + q1 seg) d1 w1 s1)
      as (d2 & w2 & s2 & k2 & S2 & Ld2 & Lw2 & K2); try lia.
    destruct (IH (q3 seg) ltac:(lia) (data + lh seg) d2 w2 s2)
      as (d3 & w3 & s3 & k3 & S3 & Ld3 & Lw3 & K3); try lia.
    destruct (IH (q4 seg) ltac:(lia) (data + (lh seg + q3 seg)) d3 w3 s3)
      as (d4 & w4 & s4 & k4 & S4 & Ld4 & Lw4 & K4); try lia.
    destruct (merge_phase_safe cmp d4 data elements seg) with (w := w4) (s := s4)
      as (p & d' & w' & s' & Hp & Ld' & Lw'); try lia.
    exists d', w', s', (5 + k1 + k2 + k3 + k4).
    split; [|split; [lia|split; [lia|right; lia]]].
    eapply sorts_rec; eauto.
Qed.
End EngineSafe.

(** ** The sorted, stable arrangement of a list is unique *)

Section Unique.
Context {E : Type}.
Variable gtb : E -> E -> bool.
Hypothesis WO : weak_order gtb.

Lemma eqvb_refl a : eqvb gtb a a = true.
Proof. unfold eqvb. now rewrite (gtb_irrefl gtb WO). Qed.

Lemma stable_refl (l : list E) : stable gtb l l.
Proof. intros e. reflexivity. Qed.

Lemma stable_trans (l1 l2 l3 : list E) :
  stable gtb l1 l2 -> stable gtb l2 l3 -> stable gtb l1 l3.
Proof. intros H1 H2 e. now rewrite H2, H1. Qed.

Lemma stable_app (l1 l2 l1' l2' : list E) :
  stable gtb l1 l1' -> stable gtb l2 l2' -> stable gtb (l1 ++ l2) (l1' ++ l2').
Proof. intros H1 H2 e. now rewrite !filter_app, H1, H2. Qed.

Lemma stable_sorted_unique l : forall l',
  sorted gtb l -> sorted gtb l' -> Permutation l l' -> stable gtb l l' ->
  l' = l.
Proof.
  induction l as [|a l IH]; intros l' Hs Hs' Hp Hst.
  - apply Permutation_nil in Hp. assumption.
  - destruct l' as [|a' l'].
    { symmetry in Hp. apply Permutation_nil in Hp. discriminate. }
    assert (Haa' : gtb a a' = false).
    { apply (sorted_first gtb WO a l); [assumption|].
      apply (Permutation_in a' (Permutation_sym Hp)). now left. }
    assert (Ha'a : gtb a' a = false).
    { apply (sorted_first gtb WO a' l'); [assumption|].
      apply (Permutation_in a Hp). now left. }
    assert (He : eqvb gtb a a' = true).
    { unfold eqvb. now rewrite Haa', Ha'a. }
    pose proof (Hst a) as Ha. cbn [filter] in Ha.
    rewrite He, eqvb_refl in Ha. injection Ha as Ha Hf. subst a'.
    f_equal. apply IH.
    + apply (sorted_cons gtb) in Hs. tauto.
    + apply (sorted_cons gtb) in Hs'. tauto.
    + eapply Permutation_cons_inv. eassumption.
    + intros e. pose proof (Hst e) as H. cbn [filter] in H.
      destruct (eqvb gtb e a); [now injection H|assumption].
Qed.
End Unique.

(** ** The engine with a consistent read-only comparator *)

Section EnginePure.
Context {E Ctx : Type}.
Variable cmp : cmp_ctx_fn_t E Ctx.
Variable c0 : Ctx.
Hypothesis cmp_ro : forall a b, snd (cmp a b c0) = c0.
Hypothesis WO : weak_order (gtb_of cmp c0).

Lemma sorted_from_length run run' : sorted_from cmp c0 run run' -> length run' = length run.
Proof. intros (H & _). symmetry. now apply Permutation_length. Qed.

Lemma quarters_chain data n1 n2 n3 n4 lhs
      d0 w0 s0 d1 w1 s1 d2 w2 s2 d3 w3 s3 d4 w4 s4 pre A B C D post kk :
  sorts_spec cmp c0 (data + 0) n1 d0 w0 s0 d1 w1 s1 ->
  sorts_spec cmp c0 (data + n1) n2 d1 w1 s1 d2 w2 s2 ->
  sorts_spec cmp c0 (data + lhs) n3 d2 w2 s2 d3 w3 s3 ->
  sorts_spec cmp c0 (data + (lhs + n3)) n4 d3 w3 s3 d4 w4 s4 ->
  lhs = n1 + n2 ->
  d0 = pre ++ A ++ B ++ C ++ D ++ post -> length pre = data ->
  length A = n1 -> length B = n2 -> length C = n3 -> length D = n4 ->
  s0 = CState c0 kk -> n1 + n2 + n3 + n4 <= length w0 ->
  exists A' B' C' D' k4,
    d4 = pre ++ A' ++ B' ++ C' ++ D' ++ post /\ s4 = CState c0 k4
    /\ length w4 = length w0
    /\ sorted_from cmp c0 A A' /\ sorted_from cmp c0 B B'
    /\ sorted_from cmp c0 C C' /\ sorted_from cmp c0 D D'.
Proof.
  intros H1 H2 H3 H4 Hlhs Hd Hpre HA HB HC HD Hs Hw.
  destruct (H1 pre A (B ++ C ++ D ++ post) kk)
    as (A' & k1 & -> & -> & Lw1 & SA); auto; try lia.
  pose proof (sorted_from_length _ _ SA) as LA.
  destruct (H2 (pre ++ A') B (C ++ D ++ post) k1)
    as (B' & k2 & -> & -> & Lw2 & SB); auto; try lia.
  { list_eq. } { rewrite length_app. lia. }
  pose proof (sorted_from_length _ _ SB) as LB.
  destruct (H3 (pre ++ A' ++ B') C (D ++ post) k2)
    as (C' & k3 & -> & -> & Lw3 & SC); auto; try lia.
  { list_eq. } { rewrite !length_app. lia. }
  pose proof (sorted_from_length _ _ SC) as LC.
  destruct (H4 (pre ++ A' ++ B' ++ C') D post k3)
    as (D' & k4 & -> & -> & Lw4 & SD); auto; try lia.
  { list_eq. } { rewrite !length_app. lia. }
  exists A', B', C', D', k4.
  split; [list_eq|split; [reflexivity|split; [lia|auto]]].
Qed.

Lemma nonempty_length (l : list E) : 1 <= length l -> l <> [].
Proof. destruct l; cbn; [lia|discriminate]. Qed.

Lemma sorted_from_app4 A B C D A' B' C' D' run' :
  sorted_from cmp c0 A A' -> sorted_from cmp c0 B B' -> sorted_from cmp c0 C C' -> sorted_from cmp c0 D D' ->
  Permutation (A' ++ B' ++ C' ++ D') run' ->
  sorted (gtb_of cmp c0) run' ->
  stable (gtb_of cmp c0) (A' ++ B' ++ C' ++ D') run' ->
  sorted_from cmp c0 (A ++ B ++ C ++ D) run'.
Proof.
  intros (PA & _ & TA) (PB & _ & TB) (PC & _ & TC) (PD & _ & TD) P S T.
  split; [|split; [assumption|]].
  - rewrite <- P. repeat apply Permutation_app; assumption.
  - eapply stable_trans; [|exact T].
    repeat apply stable_app; assumption.
Qed.

(** A frame sorts its run, stably, and touches nothing else in the array. *)
Lemma sorts_pure data elements d w s d' w' s' k :
  sorts cmp data elements d w s d' w' s' k ->
  sorts_spec cmp c0 data elements d w s d' w' s'.
Proof.
  induction 1 as [data elements d w s d' s' Hn Hsort
                 |data elements d0 w0 s0 d1 w1 s1 d2 w2 s2 d3 w3 s3 d4 w4 s4
                       k1 k2 k3 k4 p d' w' s' Hn _ IH1 _ IH2 _ IH3 _ IH4 Hphase];
    intros pre run post kk Hd Hpre Hrun Hs Hw.
  - subst d s data.
    destruct (oddeven_sort_ctx_sorts cmp c0 cmp_ro WO pre run post elements kk
                Hrun Hn)
      as (run' & k' & Hs' & P & S & T).
    rewrite Hs' in Hsort. apply some_inj in Hsort.
    exists run', k'. repeat split; try assumption; congruence.
  - pose proof (partition_array_sizes elements) as Hsz.
    pose proof (partition_array_large elements Hn) as Hlg.
    cbv zeta in Hsz, Hlg.
    set (seg := partition_array elements) in *.
    destruct Hsz as (Hlh & Hrh & Hnn & Hq12 & Hq34 & Hlr).
    destruct Hlg as (Hq1 & Hq3 & Hl4).
    destruct (split_at run (q1 seg)) as (A & r1 & -> & HA); [lia|].
    rewrite length_app in Hrun.
    destruct (split_at r1 (q2 seg)) as (B & r2 & -> & HB); [lia|].
    rewrite length_app in Hrun.
    destruct (split_at r2 (q3 seg)) as (C & D & -> & HC); [lia|].
    rewrite length_app in Hrun.
    destruct (quarters_chain data (q1 seg) (q2 seg) (q3 seg) (q4 seg) (lh seg)
                d0 w0 s0 d1 w1 s1 d2 w2 s2 d3 w3 s3 d4 w4 s4 pre A B C D post kk)
      as (A' & B' & C' & D' & k4' & -> & -> & Lw & SA & SB & SC & SD);
      auto; try lia.
    { rewrite Hd. list_eq. }
    pose proof (sorted_from_length _ _ SA) as LA.
    pose proof (sorted_from_length _ _ SB) as LB.
    pose proof (sorted_from_length _ _ SC) as LC.
    pose proof (sorted_from_length _ _ SD) as LD.
    destruct (merge_phase_pure cmp c0 cmp_ro pre post A' B' C' D' seg elements)
      with (w := w4) (k := k4') as (w5 & Hph & Lw5 & _); try lia.
    subst data. rewrite Hph in Hphase. apply some_inj in Hphase.
    destruct (phase_spec (gtb_of cmp c0) A' B' C' D') as [[p' run'] cnt] eqn:Hspec.
    cbn [fst snd] in Hphase.
    exists run', (k4' + cnt).
    split; [congruence|]. split; [congruence|]. split; [congruence|].
    destruct (phase_spec_sorts (gtb_of cmp c0) WO A' B' C' D') with
        (p := p') (run' := run') (n := cnt) as (P & S & T);
      try assumption; try (apply nonempty_length; lia);
      try (apply SA || apply SB || apply SC || apply SD).
    apply (sorted_from_app4 A B C D A' B' C' D'); assumption.
Qed.
End EnginePure.

(** ** Consistent comparators *)

Section ConsistentFacts.
Context {E Ctx : Type}.
Variable cmp : cmp_ctx_fn_t E Ctx.
Variable c0 : Ctx.
Hypothesis Hc : consistent cmp c0.

Lemma gtb_of_false a b :
  gtb_of cmp c0 a b = false <-> (fst (cmp a b c0) <= 0)%Z.
Proof. unfold gtb_of. rewrite Z.ltb_ge. reflexivity. Qed.

Lemma gtb_of_true a b :
  gtb_of cmp c0 a b = true <-> (0 < fst (cmp a b c0))%Z.
Proof. unfold gtb_of. rewrite Z.ltb_lt. reflexivity. Qed.

Lemma consistent_weak_order : weak_order (gtb_of cmp c0).
Proof.
  split.
  - intros a b H. apply gtb_of_true in H. apply gtb_of_false.
    pose proof (cmp_antisym Hc a b) as Ha.
    rewrite (Z.sgn_pos (fst (cmp a b c0))) in Ha by assumption.
    destruct (Z.sgn_spec (fst (cmp b a c0))) as [[? ?]|[[? ?]|[? ?]]]; lia.
  - intros a b c H1 H2. apply gtb_of_false in H1, H2. apply gtb_of_false.
    exact (cmp_trans Hc a b c H1 H2).
Qed.

(** The class of [e] is the set of elements the comparator calls equal to it. *)
Lemma eqvb_zero e x :
  eqvb (gtb_of cmp c0) e x = (fst (cmp e x c0) =? 0)%Z.
Proof.
  unfold eqvb, gtb_of.
  pose proof (cmp_antisym Hc e x) as Ha.
  destruct (Z.sgn_spec (fst (cmp e x c0))) as [[? He]|[[? He]|[? He]]];
    destruct (Z.sgn_spec (fst (cmp x e c0))) as [[? Hx]|[[? Hx]|[? Hx]]];
    rewrite He, Hx in Ha; try discriminate Ha;
    destruct (Z.ltb_spec 0 (fst (cmp e x c0)));
    destruct (Z.ltb_spec 0 (fst (cmp x e c0)));
    destruct (Z.eqb_spec (fst (cmp e x c0)) 0); cbn; try reflexivity; lia.
Qed.
End ConsistentFacts.

Lemma z_compare_consistent : consistent z_compare tt.
Proof.
  split.
  - intros a b c _. reflexivity.
  - intros a b. cbn. rewrite (Z.compare_antisym a b).
    destruct (a ?= b)%Z; reflexivity.
  - intros a b c. cbn.
    destruct (Z.compare_spec a b), (Z.compare_spec b c), (Z.compare_spec a c);
      lia.
Qed.

Lemma counting_compare_consistent : consistent counting_compare 0.
Proof.
  split.
  - intros a b c _. reflexivity.
  - intros a b. cbn. rewrite (Z.compare_antisym a b).
    destruct (a ?= b)%Z; reflexivity.
  - intros a b c. cbn.
    destruct (Z.compare_spec a b), (Z.compare_spec b c), (Z.compare_spec a c);
      lia.
Qed.

Lemma key_compare_consistent : consistent key_compare tt.
Proof.
  split.
  - intros a b c _. reflexivity.
  - intros a b. cbn. rewrite (Z.compare_antisym (fst a) (fst b)).
    destruct (fst a ?= fst b)%Z; reflexivity.
  - intros a b c. cbn.
    destruct (Z.compare_spec (fst a) (fst b)), (Z.compare_spec (fst b) (fst c)),
      (Z.compare_spec (fst a) (fst c)); lia.
Qed.

(** ** The whole call *)

Section Xsort.
Context {E Ctx : Type}.
Variable cmp : cmp_ctx_fn_t E Ctx.

(** Whatever the comparator, the call returns within [2 * elements + 1]
    iterations of the engine's loop, as the frame for the whole array does. *)
Lemma xsort_returns (junk l : list E) (c : Ctx) :
  length junk = length l ->
  exists d' w' s' k,
    sorts cmp 0 (length l) l junk (CState c 0) d' w' s' k
    /\ length d' = length l
    /\ forall fuel, 2 * length l + 1 <= fuel ->
                    xsort cmp fuel junk l (length l) c = Done d' s'.
Proof.
  intros Hj.
  destruct (sorts_exists cmp (length l) 0 l junk (CState c 0))
    as (d' & w' & s' & k & Hs & Ld & Lw & Hk); try lia.
  exists d', w', s', k. split; [assumption|]. split; [assumption|].
  intros fuel Hf.
  destruct (sorts_simulates cmp _ _ _ _ _ _ _ _ _ Hs [] 128 (Segment 0 0 0 0 0 0))
    as (cap' & _ & Hsteps).
  { cbn. lia. }
  unfold xsort, xsort_init.
  replace fuel with (k + (fuel - k)) by lia.
  rewrite (run_steps cmp k (fuel - k) _ _ _ _ Hsteps).
  destruct (fuel - k); reflexivity.
Qed.
End Xsort.

Section XsortPure.
Context {E Ctx : Type}.
Variable cmp : cmp_ctx_fn_t E Ctx.
Variable c0 : Ctx.
Hypothesis Hc : consistent cmp c0.
Hypothesis Hro : forall a b, snd (cmp a b c0) = c0.

(** With a consistent comparator that leaves its context as it is, the call
    leaves the array sorted, stably. *)
Lemma xsort_sorted_from (junk l : list E) :
  length junk = length l ->
  exists l' s',
    (forall fuel, 2 * length l + 1 <= fuel ->
                  xsort cmp fuel junk l (length l) c0 = Done l' s')
    /\ sorted_from cmp c0 l l'.
Proof.
  intros Hj.
  destruct (xsort_returns cmp junk l c0 Hj) as (d' & w' & s' & k & Hs & Ld & Hrun).
  destruct (sorts_pure cmp c0 Hro (consistent_weak_order cmp c0 Hc)
              _ _ _ _ _ _ _ _ _ Hs [] l [] 0)
    as (l' & k' & Hd & Hs' & _ & Hsf); auto; try lia.
  { now rewrite app_nil_r. }
  cbn [app] in Hd. rewrite app_nil_r in Hd. subst d'.
  exists l', s'. split; assumption.
Qed.
End XsortPure.

(** ** Frames on the stack *)

Section FrameFacts.
Context {E Ctx : Type}.
Variable cmp : cmp_ctx_fn_t E Ctx.

Lemma schedule_inv cap below data elements seg next child child_elements
      (s : cstate Ctx) stk' s' :
  schedule (Ctx := Ctx) cap below data elements seg next child child_elements s
  = Some (stk', s') ->
  stk' = Frame child child_elements seg ret_addr_0
           :: Frame data elements seg next :: below
  /\ s' = s.
Proof.
  unfold schedule, push. intros H.
  destruct (length below <? cap); [|discriminate H].
  unfold bind at 1, ret at 1 in H. cbn [length] in H.
  destruct (S (length below) <? cap); [|discriminate H].
  apply some_inj in H. inversion H. split; reflexivity.
Qed.

Lemma step_frame_ok (c c' : config (E := E)) (s s' : cstate Ctx) :
  Forall frame_ok (stk c) -> step cmp c s = Some (c', s') ->
  Forall frame_ok (stk c').
Proof.
  intros Hok H. unfold step in H.
  destruct (stk c) as [|top below] eqn:Es.
  { apply some_inj in H. inversion H; subst. now rewrite Es. }
  inversion Hok as [|? ? Htop Hbelow]; subst.
  destruct (fr_ret_addr top) eqn:El.
  - destruct (fr_elements top <=? 7) eqn:E7.
    + minv H. apply some_inj in H. inversion H; subst. exact Hbelow.
    + minv H. apply schedule_inv in Hm. destruct Hm as [-> _].
      apply some_inj in H. inversion H; subst. cbn [stk].
      apply Nat.leb_gt in E7.
      constructor; [left; reflexivity|].
      constructor; [right|assumption].
      cbn [fr_elements fr_segment]. split; [lia|reflexivity].
  - destruct Htop as [Htop|Htop]; [congruence|].
    minv H. apply schedule_inv in Hm. destruct Hm as [-> _].
    apply some_inj in H. inversion H; subst. cbn [stk].
    constructor; [left; reflexivity|].
    constructor; [right; exact Htop|assumption].
  - destruct Htop as [Htop|Htop]; [congruence|].
    minv H. apply schedule_inv in Hm. destruct Hm as [-> _].
    apply some_inj in H. inversion H; subst. cbn [stk].
    constructor; [left; reflexivity|].
    constructor; [right; exact Htop|assumption].
  - destruct Htop as [Htop|Htop]; [congruence|].
    minv H. apply schedule_inv in Hm. destruct Hm as [-> _].
    apply some_inj in H. inversion H; subst. cbn [stk].
    constructor; [left; reflexivity|].
    constructor; [right; exact Htop|assumption].
  - minv H. destruct a as [[p d] w]. apply some_inj in H.
    inversion H; subst. exact Hbelow.
Qed.

Lemma steps_frame_ok k : forall (c c' : config (E := E)) (s s' : cstate Ctx),
  Forall frame_ok (stk c) -> steps cmp k c s = Some (c', s') ->
  Forall frame_ok (stk c').
Proof.
  induction k as [|k IH]; intros c c' s s' Hok H; cbn [steps] in H.
  - apply some_inj in H. inversion H; subst. exact Hok.
  - destruct (step cmp c s) as [[c1 s1]|] eqn:E1; [|discriminate H].
    apply (IH c1 c' s1 s'); [|exact H].
    exact (step_frame_ok c c1 s s1 Hok E1).
Qed.

Lemma xsort_init_frame_ok (junk ptr : list E) (n : nat) :
  Forall frame_ok (stk (xsort_init junk ptr n)).
Proof. repeat constructor. Qed.

End FrameFacts.

(** ** Runs in strictly descending order *)

Section Descending.
Context {E : Type}.
Variable gtb : E -> E -> bool.
Hypothesis WO : weak_order gtb.

Lemma adjacent_descending l :
  (forall i x y, nth_error l i = Some x -> nth_error l (S i) = Some y ->
                 gtb x y = true) ->
  descending gtb l.
Proof.
  intros H. apply Sorted_StronglySorted.
  - intros a b c. apply (gt_trans gtb WO).
  - induction l as [|a l IH]; constructor.
    + apply IH. intros i x y Hx Hy. apply (H (S i) x y); assumption.
    + destruct l as [|b l]; constructor. apply (H 0 a b); reflexivity.
Qed.

Lemma descending_app l1 l2 :
  descending gtb (l1 ++ l2) ->
  descending gtb l1 /\ descending gtb l2 /\ all_gt gtb l1 l2.
Proof.
  unfold descending. induction l1 as [|a l1 IH]; cbn [app]; intros H.
  - repeat split; [constructor|assumption|intros x y []].
  - apply StronglySorted_inv in H. destruct H as [H Ha].
    destruct (IH H) as (H1 & H2 & H12). rewrite Forall_forall in Ha.
    repeat split.
    + constructor; [assumption|]. rewrite Forall_forall.
      intros x Hx. apply Ha. apply in_or_app. now left.
    + assumption.
    + intros x y [<-|Hx] Hy.
      * apply Ha. apply in_or_app. now right.
      * now apply H12.
Qed.

Lemma descending_rev_sorted l : descending gtb l -> sorted gtb (rev l).
Proof.
  unfold descending. induction 1 as [|a l H IH Ha]; cbn [rev].
  - constructor.
  - apply (sorted_app gtb). split; [assumption|]. split.
    + repeat constructor.
    + rewrite Forall_forall in Ha. intros x y Hx [<-|[]].
      apply (gtb_asym WO). apply Ha. now apply in_rev.
Qed.

Lemma class_above a e l :
  eqvb gtb e a = true -> (forall y, In y l -> gtb a y = true) ->
  filter (eqvb gtb e) l = [].
Proof.
  intros Ea Ha. induction l as [|b l IH]; [reflexivity|]. cbn [filter].
  destruct (eqvb gtb e b) eqn:Eb.
  - exfalso. unfold eqvb in Ea, Eb.
    apply andb_prop in Ea, Eb. destruct Ea as [Ea1 Ea2], Eb as [Eb1 Eb2].
    apply negb_true_iff in Ea1, Ea2, Eb1, Eb2.
    pose proof (le_trans WO a e b Ea2 Eb1) as Hab.
    rewrite (Ha b) in Hab; [discriminate|now left].
  - apply IH. intros y Hy. apply Ha. now right.
Qed.

Lemma descending_class l e :
  descending gtb l -> length (filter (eqvb gtb e) l) <= 1.
Proof.
  unfold descending. induction 1 as [|a l H IH Ha]; cbn [filter length].
  - lia.
  - destruct (eqvb gtb e a) eqn:Ea; [|assumption].
    rewrite Forall_forall in Ha.
    rewrite (class_above a e l Ea Ha). cbn. lia.
Qed.

Lemma descending_rev_stable l : descending gtb l -> stable gtb l (rev l).
Proof.
  intros H e. rewrite filter_rev.
  pose proof (descending_class l e H) as Hl.
  destruct (filter (eqvb gtb e) l) as [|x [|y t]]; cbn in *; [reflexivity..|lia].
Qed.

Lemma all_gt_rev (X Y : list E) : all_gt gtb X Y -> all_gt gtb (rev X) (rev Y).
Proof. intros H x y Hx Hy. apply H; now apply in_rev. Qed.

(** A stable sort leaves a sorted run as it is, and reverses a strictly
    descending one. *)
Lemma sorted_fixed (l l' : list E) :
  sorted gtb l -> Permutation l l' -> sorted gtb l' -> stable gtb l l' ->
  l' = l.
Proof.
  intros Hs P S T. now apply (stable_sorted_unique gtb WO l l').
Qed.

Lemma descending_reversed (l l' : list E) :
  descending gtb l -> Permutation l l' -> sorted gtb l' -> stable gtb l l' ->
  l' = rev l.
Proof.
  intros Hd P S T. apply (stable_sorted_unique gtb WO (rev l) l').
  - now apply descending_rev_sorted.
  - assumption.
  - rewrite <- P. symmetry. apply Permutation_rev.
  - intros e. rewrite (T e). symmetry. apply (descending_rev_stable l Hd).
Qed.
End Descending.

(** ** The merge-decision phase of the top-level frame *)

Section PhaseInversion.
Context {E Ctx : Type}.
Variable cmp : cmp_ctx_fn_t E Ctx.

(** A phase that ends on the already-ordered path made the three boundary
    tests, all passed, and nothing else. *)
Lemma merge_phase_ordered_inv (d w : list E) data elements seg
      (s : cstate Ctx) d' w' s' :
  merge_phase cmp d w data elements seg s = Some (Ordered, d', w', s') ->
  already_ordered cmp d data seg s = Some (true, s') /\ d' = d /\ w' = w.
Proof.
  unfold merge_phase. intros H. minv H. destruct a.
  - apply some_inj in H. inversion H; subst. auto.
  - minv H. destruct a.
    + minv H. destruct a as [d1 w1]. minv H. destruct a as [d2 w2].
      minv H. destruct a as [d3 w3]. apply some_inj in H. inversion H.
    + minv H. minv H. minv H. apply some_inj in H. inversion H.
Qed.

(** A phase that ends on the rotation path found the first boundary test
    failing or a later one, made the three reversal tests, all passed, and
    rotated three times. *)
Lemma merge_phase_rotated_inv (d w : list E) data elements seg
      (s : cstate Ctx) d' w' s' :
  merge_phase cmp d w data elements seg s = Some (Rotated, d', w', s') ->
  exists s1 d1 w1 d2 w2,
    already_ordered cmp d data seg s = Some (false, s1)
    /\ fully_reversed cmp d data elements seg s1 = Some (true, s')
    /\ rotate d data w (q1 seg) (q2 seg + rh seg) = Some (d1, w1)
    /\ rotate d1 data w1 (q2 seg) (rh seg) = Some (d2, w2)
    /\ rotate d2 data w2 (q3 seg) (q4 seg) = Some (d', w').
Proof.
  unfold merge_phase. intros H. minv H. destruct a.
  - apply some_inj in H. inversion H.
  - minv H. destruct a.
    + minv H. destruct a as [d1 w1]. minv H. destruct a as [d2 w2].
      minv H. destruct a as [d3 w3]. apply some_inj in H. inversion H; subst.
      apply lift_inv in Hm1, Hm2, Hm3.
      destruct Hm1 as [R1 ->], Hm2 as [R2 ->], Hm3 as [R3 ->].
      exists s0, d1, w1, d2, w2. auto 6.
    + minv H. minv H. minv H. apply some_inj in H. inversion H.
Qed.
End PhaseInversion.

Section TopFrame.
Context {E Ctx : Type}.
Variable cmp : cmp_ctx_fn_t E Ctx.
Variable c0 : Ctx.
Hypothesis Hc : consistent cmp c0.
Hypothesis Hro : forall a b, snd (cmp a b c0) = c0.

(** A call on at least 8 elements brings the frame of the whole array to
    [ret_addr_4] with each of its four quarters sorted, stably. *)
Lemma xsort_reaches_phase (junk l : list E) :
  length junk = length l -> 8 <= length l ->
  exists A B C D A' B' C' D' k cap w kk w',
    l = A ++ B ++ C ++ D
    /\ (A' <> [] /\ B' <> [] /\ C' <> [] /\ D' <> [])
    /\ sorted_from cmp c0 A A' /\ sorted_from cmp c0 B B'
    /\ sorted_from cmp c0 C C' /\ sorted_from cmp c0 D D'
    /\ steps cmp k (xsort_init junk l (length l)) (CState c0 0)
       = Some (Config [Frame 0 (length l) (partition_array (length l)) ret_addr_4]
                      cap (A' ++ B' ++ C' ++ D') w, CState c0 kk)
    /\ merge_phase cmp (A' ++ B' ++ C' ++ D') w 0 (length l)
                   (partition_array (length l)) (CState c0 kk)
       = Some (fst (fst (phase_spec (gtb_of cmp c0) A' B' C' D')),
               snd (fst (phase_spec (gtb_of cmp c0) A' B' C' D')), w',
               CState c0 (kk + snd (phase_spec (gtb_of cmp c0) A' B' C' D'))).
Proof.
  intros Hj Hn.
  pose proof (partition_array_sizes (length l)) as Hsz.
  pose proof (partition_array_large (length l) Hn) as Hlg.
  cbv zeta in Hsz, Hlg.
  set (n := length l) in *. set (seg := partition_array n) in *.
  destruct Hsz as (Hlh & Hrh & Hnn & Hq12 & Hq34 & Hlr).
  destruct Hlg as (Hq1 & Hq3 & Hl4).
  destruct (split_at l (q1 seg)) as (A & r1 & El & HA); [lia|].
  assert (Lr1 : length r1 = q2 seg + q3 seg + q4 seg).
  { apply (f_equal (@length E)) in El. rewrite length_app in El. lia. }
  destruct (split_at r1 (q2 seg)) as (B & r2 & Er1 & HB); [lia|].
  assert (Lr2 : length r2 = q3 seg + q4 seg).
  { apply (f_equal (@length E)) in Er1. rewrite length_app in Er1. lia. }
  destruct (split_at r2 (q3 seg)) as (C & D & Er2 & HC); [lia|].
  assert (HD : length D = q4 seg).
  { apply (f_equal (@length E)) in Er2. rewrite length_app in Er2. lia. }
  subst r1 r2.
  pose proof (consistent_weak_order cmp c0 Hc) as WO.
  destruct (sorts_exists cmp (q1 seg) (0 + 0) l junk (CState c0 0))
    as (d1 & w1 & s1 & k1 & S1 & Ld1 & Lw1 & _); try lia.
  destruct (sorts_exists cmp (q2 seg) (0 + q1 seg) d1 w1 s1)
    as (d2 & w2 & s2 & k2 & S2 & Ld2 & Lw2 & _); try lia.
  destruct (sorts_exists cmp (q3 seg) (0 + lh seg) d2 w2 s2)
    as (d3 & w3 & s3 & k3 & S3 & Ld3 & Lw3 & _); try lia.
  destruct (sorts_exists cmp (q4 seg) (0 + (lh seg + q3 seg)) d3 w3 s3)
    as (d4 & w4 & s4 & k4 & S4 & Ld4 & Lw4 & _); try lia.
  destruct (quarters_chain cmp c0 0 (q1 seg) (q2 seg) (q3 seg) (q4 seg) (lh seg)
              l junk (CState c0 0) d1 w1 s1 d2 w2 s2 d3 w3 s3 d4 w4 s4
              [] A B C D [] 0)
    as (A' & B' & C' & D' & kk & Ed4 & Es4 & Lw & SA & SB & SC & SD);
    try (eapply (sorts_pure cmp c0 Hro WO); eassumption);
    try reflexivity; try assumption; try lia.
  { rewrite El. cbn [app]. now rewrite app_nil_r. }
  pose proof (sorted_from_length cmp c0 _ _ SA) as LA.
  pose proof (sorted_from_length cmp c0 _ _ SB) as LB.
  pose proof (sorted_from_length cmp c0 _ _ SC) as LC.
  pose proof (sorted_from_length cmp c0 _ _ SD) as LD.
  cbn [app] in Ed4. rewrite app_nil_r in Ed4. subst d4 s4.
  destruct (run_children cmp 0 n l junk (CState c0 0) d1 w1 s1 d2 w2 s2 d3 w3 s3
              (A' ++ B' ++ C' ++ D') w4 (CState c0 kk) k1 k2 k3 k4)
    with (below := @nil stack_frame_t) (cap := 128) (seg0 := Segment 0 0 0 0 0 0)
    as (cap' & _ & Hrun);
    try (apply sorts_simulates; assumption); try lia.
  { cbn. lia. }
  destruct (merge_phase_pure cmp c0 Hro [] [] A' B' C' D' seg n) with
      (w := w4) (k := kk) as (w' & Hph & _); try lia.
  cbn [app length] in Hph. rewrite app_nil_r in Hph.
  exists A, B, C, D, A', B', C', D', (4 + k1 + k2 + k3 + k4), cap', w4, kk, w'.
  split; [assumption|].
  split; [repeat split; apply nonempty_length; lia|].
  do 4 (split; [assumption|]).
  split; [exact Hrun|]. rewrite app_nil_r in Hph. exact Hph.
Qed.
End TopFrame.

(** ** The parity merger writes every cell, with elements of its runs *)

Section CoverFacts.
Context {E : Type}.
Variable P : E -> Prop.
Variables (dp dq : list E) (T : nat).

Lemma cover_front db f b v :
  covered P dp dq T db f b -> f + b < T -> P v ->
  exists db', store db (length dp + f) v = Some db'
              /\ covered P dp dq T db' (S f) b.
Proof.
  intros (F & mid & B & -> & HF & HB & HT & PF & PB) Hlt Pv.
  destruct (head_of mid) as (m & mid' & ->); [lia|].
  exists (dp ++ ((F ++ [v]) ++ mid' ++ B) ++ dq). split.
  - replace (dp ++ (F ++ (m :: mid') ++ B) ++ dq)
      with ((dp ++ F) ++ m :: (mid' ++ B ++ dq)) by list_eq.
    replace (length dp + f) with (length (dp ++ F))
      by (rewrite length_app; lia).
    rewrite store_middle. f_equal. list_eq.
  - exists (F ++ [v]), mid', B. split; [reflexivity|].
    rewrite length_app. cbn [length] in *.
    repeat split; try lia; try assumption.
    apply Forall_app. split; [assumption|]. now constructor.
Qed.

Lemma cover_back db f b v i :
  covered P dp dq T db f b -> f + b < T -> P v -> i + b + 1 = T ->
  exists db', store db (length dp + i) v = Some db'
              /\ covered P dp dq T db' f (S b).
Proof.
  intros (F & mid & B & -> & HF & HB & HT & PF & PB) Hlt Pv Hi.
  destruct (last_of mid) as (mid' & m & ->); [lia|].
  rewrite length_app in HT. cbn [length] in HT.
  exists (dp ++ (F ++ mid' ++ v :: B) ++ dq). split.
  - replace (dp ++ (F ++ (mid' ++ [m]) ++ B) ++ dq)
      with ((dp ++ F ++ mid') ++ m :: (B ++ dq)) by list_eq.
    replace (length dp + i) with (length (dp ++ F ++ mid'))
      by (rewrite !length_app; lia).
    rewrite store_middle. f_equal. list_eq.
  - exists F, mid', (v :: B). split; [reflexivity|].
    cbn [length]. repeat split; try lia; try assumption.
    now constructor.
Qed.

Lemma covered_length db f b :
  covered P dp dq T db f b -> length db = length dp + T + length dq.
Proof.
  intros (F & mid & B & -> & HF & HB & HT & _).
  rewrite !length_app. lia.
Qed.

End CoverFacts.

Section MergeCover.
Context {E Ctx : Type}.
Variable cmp : cmp_ctx_fn_t E Ctx.
Variable P : E -> Prop.
Variables (sb dp dq : list E) (src T : nat).
Hypothesis Hsrc : src + T <= length sb.
Hypothesis HP : forall i x, i < T -> load sb (src + i) = Some x -> P x.

(** What a step of either front wrote, and where. *)
Lemma merge_head_inv db dst c (s : cstate Ctx) c' db' s' :
  merge_head cmp sb src db dst c s = Some (c', db', s') ->
  exists v i,
    (i = i_ptl c \/ i = i_ptr c) /\ load sb (src + i) = Some v
    /\ store db (dst + i_ptd c) v = Some db'.
Proof.
  unfold merge_head, ld, st. intros H.
  minv H. apply lift_inv in Hm. destruct Hm as [La ->].
  minv H. apply lift_inv in Hm. destruct Hm as [Lb ->].
  minv H. destruct (a1 <=? 0)%Z.
  - minv H. apply lift_inv in Hm0. destruct Hm0 as [St ->].
    apply some_inj in H. inversion H; subst. eauto 6.
  - minv H. apply lift_inv in Hm0. destruct Hm0 as [St ->].
    apply some_inj in H. inversion H; subst. eauto 6.
Qed.

Lemma merge_tail_inv db dst c (s : cstate Ctx) c' db' s' :
  merge_tail cmp sb src db dst c s = Some (c', db', s') ->
  exists v i,
    (i = i_tpl c \/ i = i_tpr c) /\ load sb (src + i) = Some v
    /\ store db (dst + i_tpd c) v = Some db'.
Proof.
  unfold merge_tail, ld, st. intros H.
  minv H. apply lift_inv in Hm. destruct Hm as [La ->].
  minv H. apply lift_inv in Hm. destruct Hm as [Lb ->].
  minv H. destruct (0 <? a1)%Z.
  - minv H. apply lift_inv in Hm0. destruct Hm0 as [St ->].
    minv H. minv H. apply some_inj in H. inversion H; subst. eauto 6.
  - minv H. apply lift_inv in Hm0. destruct Hm0 as [St ->].
    minv H. minv H. apply some_inj in H. inversion H; subst. eauto 6.
Qed.

Lemma merge_last_tail_inv db dst c (s : cstate Ctx) db' s' :
  merge_last_tail cmp sb src db dst c s = Some (db', s') ->
  exists v i,
    (i = i_tpl c \/ i = i_tpr c) /\ load sb (src + i) = Some v
    /\ store db (dst + i_tpd c) v = Some db'.
Proof.
  unfold merge_last_tail, ld, st. intros H.
  minv H. apply lift_inv in Hm. destruct Hm as [La ->].
  minv H. apply lift_inv in Hm. destruct Hm as [Lb ->].
  minv H. apply lift_inv in H. destruct H as [St ->].
  destruct (0 <? a1)%Z; eauto 6.
Qed.

Lemma merge_last_head_inv db dst c (s : cstate Ctx) db' s' :
  merge_last_head cmp sb src db dst c s = Some (db', s') ->
  exists v i,
    (i = i_ptl c \/ i = i_ptr c) /\ load sb (src + i) = Some v
    /\ store db (dst + i_ptd c) v = Some db'.
Proof.
  unfold merge_last_head, ld, st. intros H.
  minv H. apply lift_inv in Hm. destruct Hm as [La ->].
  minv H. apply lift_inv in Hm. destruct Hm as [Lb ->].
  minv H. apply lift_inv in H. destruct H as [St ->].
  destruct (a1 <=? 0)%Z; eauto 6.
Qed.

Lemma head_cover db c (s : cstate Ctx) f b c' db' s' :
  covered P dp dq T db f b -> i_ptd c = f -> f + b < T ->
  i_ptl c < T -> i_ptr c < T ->
  merge_head cmp sb src db (length dp) c s = Some (c', db', s') ->
  covered P dp dq T db' (S f) b.
Proof.
  intros Hc Hf Hlt H1 H2 H.
  destruct (merge_head_inv _ _ _ _ _ _ _ H) as (v & i & Hi & Lv & St).
  assert (Pv : P v) by (apply (HP i); [destruct Hi; lia|assumption]).
  destruct (cover_front P dp dq T db f b v Hc Hlt Pv) as (db2 & St2 & Hc2).
  rewrite Hf, St2 in St. apply some_inj in St. now subst db2.
Qed.

Lemma tail_cover db c (s : cstate Ctx) f b c' db' s' :
  covered P dp dq T db f b -> i_tpd c + b + 1 = T -> f + b < T ->
  i_tpl c < T -> i_tpr c < T ->
  merge_tail cmp sb src db (length dp) c s = Some (c', db', s') ->
  covered P dp dq T db' f (S b).
Proof.
  intros Hc Hb Hlt H1 H2 H.
  destruct (merge_tail_inv _ _ _ _ _ _ _ H) as (v & i & Hi & Lv & St).
  assert (Pv : P v) by (apply (HP i); [destruct Hi; lia|assumption]).
  destruct (cover_back P dp dq T db f b v (i_tpd c) Hc Hlt Pv Hb) as (db2 & St2 & Hc2).
  rewrite St2 in St. apply some_inj in St. now subst db2.
Qed.

Lemma last_tail_cover db c (s : cstate Ctx) f b db' s' :
  covered P dp dq T db f b -> i_tpd c + b + 1 = T -> f + b < T ->
  i_tpl c < T -> i_tpr c < T ->
  merge_last_tail cmp sb src db (length dp) c s = Some (db', s') ->
  covered P dp dq T db' f (S b).
Proof.
  intros Hc Hb Hlt H1 H2 H.
  destruct (merge_last_tail_inv _ _ _ _ _ _ H) as (v & i & Hi & Lv & St).
  assert (Pv : P v) by (apply (HP i); [destruct Hi; lia|assumption]).
  destruct (cover_back P dp dq T db f b v (i_tpd c) Hc Hlt Pv Hb) as (db2 & St2 & Hc2).
  rewrite St2 in St. apply some_inj in St. now subst db2.
Qed.

Lemma last_head_cover db c (s : cstate Ctx) f b db' s' :
  covered P dp dq T db f b -> i_ptd c = f -> f + b < T ->
  i_ptl c < T -> i_ptr c < T ->
  merge_last_head cmp sb src db (length dp) c s = Some (db', s') ->
  covered P dp dq T db' (S f) b.
Proof.
  intros Hc Hf Hlt H1 H2 H.
  destruct (merge_last_head_inv _ _ _ _ _ _ H) as (v & i & Hi & Lv & St).
  assert (Pv : P v) by (apply (HP i); [destruct Hi; lia|assumption]).
  destruct (cover_front P dp dq T db f b v Hc Hlt Pv) as (db2 & St2 & Hc2).
  rewrite Hf, St2 in St. apply some_inj in St. now subst db2.
Qed.

Lemma merge_loop_cover n : forall db c (s : cstate Ctx) f b c' db' s',
  covered P dp dq T db f b ->
  i_ptd c = f -> i_tpd c + b + 1 = T -> f + b + 2 * n <= T ->
  i_ptl c + n < T -> i_ptr c + n < T ->
  n <= i_tpl c < T -> n <= i_tpr c < T -> n <= i_tpd c ->
  merge_loop cmp sb src db (length dp) n c s = Some (c', db', s') ->
  covered P dp dq T db' (f + n) (b + n)
  /\ i_ptd c' = f + n /\ i_tpd c' + (b + n) + 1 = T
  /\ i_ptl c' <= i_ptl c + n /\ i_ptr c' <= i_ptr c + n
  /\ i_tpl c' <= i_tpl c /\ i_tpr c' <= i_tpr c.
Proof.
  induction n as [|n IH]; intros db c s f b c' db' s' Hc Hf Hb Hn H1 H2 H3 H4 H5 H;
    cbn [merge_loop] in H.
  - apply some_inj in H. inversion H; subst c' db' s'.
    rewrite !Nat.add_0_r. repeat split; try assumption; lia.
  - pose proof (covered_length P dp dq T db f b Hc) as Ldb.
    minv H. destruct a as [c1 d1].
    destruct (merge_head_safe cmp sb src (length dp) T Hsrc db c s)
      as (c1' & d1' & s1' & Hh & Hl1 & Hn1 & Q); try lia.
    rewrite Hh in Hm. apply some_inj in Hm. inversion Hm; subst c1' d1' s1'.
    pose proof (head_cover db c s f b c1 d1 s0 Hc Hf ltac:(lia) ltac:(lia)
                  ltac:(lia) Hh) as Hc1.
    minv H. destruct a as [c2 d2].
    destruct (merge_tail_safe cmp sb src (length dp) T Hsrc d1 c1 s0)
      as (c2' & d2' & s2' & Ht & Hl2 & Hn2 & Q'); try lia.
    rewrite Ht in Hm0. apply some_inj in Hm0. inversion Hm0; subst c2' d2' s2'.
    pose proof (tail_cover d1 c1 s0 (S f) b c2 d2 s1 Hc1 ltac:(lia) ltac:(lia)
                  ltac:(lia) ltac:(lia) Ht) as Hc2.
    destruct (IH d2 c2 s1 (S f) (S b) c' db' s' Hc2) as (R1 & R2 & R3 & R4);
      try lia; try assumption.
    replace (f + S n) with (S f + n) by lia.
    replace (b + S n) with (S b + n) by lia.
    repeat split; try assumption; lia.
Qed.
End MergeCover.

(** Whatever the comparator answers, a merge of runs of lengths
    [1 <= left <= right <= left + 1] overwrites each of the [left + right]
    cells at [dst] with an element of the run at [src]. *)
Lemma parity_merge_ctx_cover {E Ctx} (cmp : cmp_ctx_fn_t E Ctx) (P : E -> Prop)
      (sp run sq dp old dq : list E) left right (s : cstate Ctx) :
  1 <= left -> left <= right <= left + 1 ->
  length run = left + right -> length old = left + right ->
  Forall P run ->
  exists out s',
    parity_merge_ctx cmp (sp ++ run ++ sq) (length sp) (dp ++ old ++ dq)
                     (length dp) left right s
    = Some (dp ++ out ++ dq, s')
    /\ length out = left + right /\ Forall P out
    /\ ncmp s' = ncmp s + (left + right).
Proof.
  intros HL HLR Hrun Hold HPr.
  set (sb := sp ++ run ++ sq). set (db := dp ++ old ++ dq).
  assert (Hsrc : length sp + (left + right) <= length sb).
  { unfold sb. rewrite !length_app. lia. }
  assert (HP : forall i x, i < left + right ->
                           load sb (length sp + i) = Some x -> P x).
  { intros i x Hi Hx. rewrite Forall_forall in HPr. apply HPr.
    destruct (load_some run i ltac:(lia)) as [y Hy].
    unfold sb in Hx. rewrite (load_frame sp run sq i y Hy) in Hx.
    apply some_inj in Hx. subst y. apply (nth_error_In run i Hy). }
  assert (Hc0 : covered P dp dq (left + right) db 0 0).
  { exists [], old, []. cbn [app length]. rewrite app_nil_r.
    repeat split; auto; lia. }
  destruct (parity_merge_ctx_safe cmp sb (length sp) db (length dp) left right s)
    as (db' & s' & H & Ldb & Hn); try lia.
  { unfold db. rewrite !length_app. lia. }
  assert (Hcnt : ncmp s' = ncmp s + (left + right)).
  { rewrite Hn. destruct (Nat.ltb_spec left right); lia. }
  assert (Hfin : covered P dp dq (left + right) db' right left).
  { clear Hn Hcnt Ldb. unfold parity_merge_ctx in H.
    pose proof (covered_length P dp dq (left + right) db 0 0 Hc0) as Ldb0.
    destruct (left + right) as [|t] eqn:Et; [lia|]. cbn [dec] in H.
    minv H. apply some_inj in Hm. inversion Hm; subst a s0. clear Hm.
    set (c0 := Cursors 0 t 0 left 0 0) in H.
    minv H. destruct a as [c1 d1].
    assert (Hhead : covered P dp dq (S t) d1 (if left <? right then 1 else 0) 0
                    /\ i_ptd c1 = (if left <? right then 1 else 0)
                    /\ i_ptl c1 <= (if left <? right then 1 else 0)
                    /\ i_ptr c1 <= left + (if left <? right then 1 else 0)
                    /\ i_tpd c1 = t).
    { destruct (Nat.ltb_spec left right) as [Hlt|Hge].
      - destruct (merge_head_safe cmp sb (length sp) (length dp) (S t) Hsrc db c0 s)
          as (c1' & d1' & s1' & Hh & Hl & Hn & Q); cbn; try lia.
        rewrite Hh in Hm. apply some_inj in Hm. inversion Hm; subst c1' d1' s1'.
        cbn in Q. split.
        + apply (head_cover cmp P sb dp dq (length sp) (S t) Hsrc HP db c0 s 0 0 c1 d1 s0);
            cbn; try assumption; try lia.
        + repeat split; try tauto; lia.
      - apply some_inj in Hm. inversion Hm; subst c1 d1 s0.
        cbn. repeat split; auto; lia. }
    destruct Hhead as (Hc1 & P1 & P2 & P3 & P4).
    destruct left as [|l']; [lia|]. cbn [dec] in H.
    minv H. apply some_inj in Hm0. inversion Hm0; subst a s1. clear Hm0.
    minv H. apply some_inj in Hm0. inversion Hm0; subst a s1. clear Hm0.
    set (c2 := Cursors _ _ _ _ _ _) in H.
    assert (Hb : (if S l' <? right then 1 else 0) <= 1)
      by (destruct (S l' <? right); lia).
    assert (Hb' : S l' + (if S l' <? right then 1 else 0) = right)
      by (destruct (Nat.ltb_spec (S l') right); lia).
    minv H. destruct a as [c3 d3].
    destruct (merge_loop_cover cmp P sb dp dq (length sp) (S t) Hsrc HP l'
                d1 c2 s0 (if S l' <? right then 1 else 0) 0 c3 d3 s1 Hc1)
      as (Hc3 & Q1 & Q2 & Q3 & Q4 & Q5 & Q6); subst c2;
      cbn [i_ptl i_ptr i_ptd i_tpl i_tpr i_tpd]; try lia; try assumption.
    cbn [i_ptl i_ptr i_ptd i_tpl i_tpr i_tpd] in *.
    minv H.
    pose proof (last_tail_cover cmp P sb dp dq (length sp) (S t) Hsrc HP d3 c3 s1
                  _ _ a s2 Hc3 ltac:(lia) ltac:(lia) ltac:(lia) ltac:(lia) Hm1)
      as Hc4.
    pose proof (last_head_cover cmp P sb dp dq (length sp) (S t) Hsrc HP a c3 s2
                  _ _ db' s' Hc4 ltac:(lia) ltac:(lia) ltac:(lia) ltac:(lia) H)
      as Hc5.
    replace right with (S ((if S l' <? right then 1 else 0) + l')) by lia.
    exact Hc5. }
  destruct Hfin as (F & mid & B & -> & HF & HB & HT & PF & PB).
  assert (mid = []) by (destruct mid; [reflexivity|cbn in HT; lia]). subst mid.
  exists (F ++ B), s'. cbn [app] in *.
  split; [exact H|]. rewrite length_app. split; [lia|].
  split; [|assumption]. apply Forall_app. auto.
Qed.

(** ** Whatever the comparator answers, a frame fills its run from its run *)

Section EngineCover.
Context {E Ctx : Type}.
Variable cmp : cmp_ctx_fn_t E Ctx.
Variable P : E -> Prop.

Lemma merge_phase_cover (d w : list E) data elements seg (s : cstate Ctx)
      p d' w' s' pre run post :
  lh seg = q1 seg + q2 seg -> rh seg = q3 seg + q4 seg ->
  lh seg + rh seg = elements ->
  1 <= q1 seg /\ q1 seg <= q2 seg <= q1 seg + 1 ->
  1 <= q3 seg /\ q3 seg <= q4 seg <= q3 seg + 1 ->
  lh seg <= rh seg <= lh seg + 1 ->
  elements <= length w ->
  merge_phase cmp d w data elements seg s = Some (p, d', w', s') ->
  d = pre ++ run ++ post -> length pre = data -> length run = elements ->
  Forall P run ->
  exists run',
    d' = pre ++ run' ++ post /\ length run' = elements /\ Forall P run'
    /\ length w' = length w.
Proof.
  intros Hlh Hrh Hn Hq12 Hq34 Hlr Hw H Hd Hpre Hrun HP.
  destruct (merge_phase_safe cmp d data elements seg) with (w := w) (s := s)
    as (p2 & d2 & w2 & s2 & Hsafe & _ & Lw); try lia.
  { rewrite Hd, !length_app. lia. }
  rewrite H in Hsafe. apply some_inj in Hsafe. inversion Hsafe; subst p2 d2 w2 s2.
  clear Hsafe.
  destruct (split_at run (q1 seg)) as (A & r1 & -> & HA); [lia|].
  rewrite length_app in Hrun.
  destruct (split_at r1 (q2 seg)) as (B & r2 & -> & HB); [lia|].
  rewrite length_app in Hrun.
  destruct (split_at r2 (q3 seg)) as (C & D & -> & HC); [lia|].
  rewrite length_app in Hrun.
  apply Forall_app in HP. destruct HP as [PA HP].
  apply Forall_app in HP. destruct HP as [PB HP].
  apply Forall_app in HP. destruct HP as [PC PD].
  unfold merge_phase in H. minv H. destruct a.
  { apply some_inj in H. inversion H; subst.
    exists (A ++ B ++ C ++ D). split; [reflexivity|].
    rewrite !length_app. split; [lia|]. split; [|reflexivity].
    repeat (apply Forall_app; split); assumption. }
  minv H. destruct a.
  - minv H. destruct a as [d1 w1]. minv H. destruct a as [d2 w2].
    minv H. destruct a as [d3 w3]. apply some_inj in H. inversion H; subst d3 w3.
    apply lift_inv in Hm1, Hm2, Hm3.
    destruct Hm1 as [R1 _], Hm2 as [R2 _], Hm3 as [R3 _].
    subst d data.
    replace (pre ++ (A ++ B ++ C ++ D) ++ post)
      with (pre ++ A ++ (B ++ C ++ D) ++ post) in R1 by list_eq.
    rewrite (rotate_spec pre A (B ++ C ++ D) post w) in R1;
      [|lia|rewrite !length_app; lia|lia].
    apply some_inj in R1. inversion R1; subst d1 w1. clear R1.
    replace (pre ++ (B ++ C ++ D) ++ A ++ post)
      with (pre ++ B ++ (C ++ D) ++ (A ++ post)) in R2 by list_eq.
    rewrite (rotate_spec pre B (C ++ D) (A ++ post)) in R2;
      [|lia|rewrite !length_app; lia|rewrite length_app, length_skipn; lia].
    apply some_inj in R2. inversion R2; subst d2 w2. clear R2.
    replace (pre ++ (C ++ D) ++ B ++ A ++ post)
      with (pre ++ C ++ D ++ (B ++ A ++ post)) in R3 by list_eq.
    rewrite (rotate_spec pre C D (B ++ A ++ post)) in R3;
      [|lia|lia|rewrite !length_app, !length_skipn; lia].
    apply some_inj in R3. inversion R3; subst d'.
    exists (D ++ C ++ B ++ A). split; [list_eq|].
    split; [rewrite !length_app; lia|]. split; [|rewrite H3; assumption].
    repeat (apply Forall_app; split); assumption.
  - minv H. minv H. minv H. apply some_inj in H. inversion H; subst p d' w' s'.
    clear H.
    subst d data.
    destruct (split_at w (lh seg)) as (o1 & r1 & Ew & Ho1); [lia|].
    assert (Lr1 : length r1 = length w - lh seg).
    { apply (f_equal (@length E)) in Ew. rewrite length_app in Ew. lia. }
    destruct (split_at r1 (rh seg)) as (o2 & rest & -> & Ho2); [lia|].
    destruct (parity_merge_ctx_cover cmp P pre (A ++ B) (C ++ D ++ post)
                [] o1 (o2 ++ rest) (q1 seg) (q2 seg) s1)
      as (out1 & t1 & M1 & L1 & P1 & _); try lia.
    { rewrite length_app. lia. }
    { apply Forall_app. split; assumption. }
    cbn [app length] in M1.
    replace (pre ++ (A ++ B) ++ C ++ D ++ post)
      with (pre ++ (A ++ B ++ C ++ D) ++ post) in M1 by list_eq.
    rewrite <- Ew in M1. rewrite M1 in Hm1.
    apply some_inj in Hm1. inversion Hm1; subst a s2. clear Hm1.
    destruct (parity_merge_ctx_cover cmp P (pre ++ A ++ B) (C ++ D) post
                out1 o2 rest (q3 seg) (q4 seg) t1)
      as (out2 & t2 & M2 & L2 & P2 & _); try lia.
    { rewrite length_app. lia. }
    { apply Forall_app. split; assumption. }
    replace ((pre ++ A ++ B) ++ (C ++ D) ++ post)
      with (pre ++ (A ++ B ++ C ++ D) ++ post) in M2 by list_eq.
    replace (length (pre ++ A ++ B)) with (length pre + lh seg) in M2
      by (rewrite !length_app; lia).
    replace (length out1) with (lh seg) in M2 by lia.
    rewrite M2 in Hm2.
    apply some_inj in Hm2. inversion Hm2; subst a0 s3. clear Hm2.
    destruct (parity_merge_ctx_cover cmp P [] (out1 ++ out2) rest
                pre (A ++ B ++ C ++ D) post (lh seg) (rh seg) t2)
      as (out & t3 & M3 & L3 & P3 & _); try lia.
    { rewrite length_app. lia. }
    { rewrite !length_app. lia. }
    { apply Forall_app. split; assumption. }
    cbn [app length] in M3.
    replace ((out1 ++ out2) ++ rest) with (out1 ++ out2 ++ rest) in M3 by list_eq.
    rewrite M3 in Hm3.
    apply some_inj in Hm3. inversion Hm3; subst a1 s4. clear Hm3.
    exists out. split; [reflexivity|]. split; [lia|]. split; assumption.
Qed.

(** A frame leaves in each cell of its run an element the run held when the
    frame was entered, and touches nothing else in the array. *)
Lemma sorts_cover data elements (d w : list E) (s : cstate Ctx) d' w' s' k :
  sorts cmp data elements d w s d' w' s' k ->
  elements <= length w ->
  forall pre run post,
    d = pre ++ run ++ post -> length pre = data -> length run = elements ->
    Forall P run ->
    exists run',
      d' = pre ++ run' ++ post /\ length run' = elements /\ Forall P run'
      /\ length w' = length w.
Proof.
  induction 1 as [data elements d w s d' s' Hn Hsort
                 |data elements d0 w0 s0 d1 w1 s1 d2 w2 s2 d3 w3 s3 d4 w4 s4
                       k1 k2 k3 k4 p d' w' s' Hn _ IH1 _ IH2 _ IH3 _ IH4 Hphase];
    intros Hw pre run post Hd Hpre Hrun HP.
  - subst d data.
    destruct (oddeven_sort_ctx_safe cmp run 0 elements s ltac:(lia))
      as (run' & s2 & Hs & Hl).
    rewrite (oddeven_sort_ctx_frame cmp pre run post elements s run' s2 Hs)
      in Hsort.
    apply some_inj in Hsort. inversion Hsort; subst d' s2.
    exists run'. split; [reflexivity|]. split; [lia|]. split; [|reflexivity].
    pose proof (oddeven_sort_ctx_perm cmp _ _ _ _ _ _ Hs) as Hperm.
    now rewrite <- Hperm.
  - pose proof (partition_array_sizes elements) as Hsz.
    pose proof (partition_array_large elements Hn) as Hlg.
    cbv zeta in Hsz, Hlg.
    set (seg := partition_array elements) in *.
    destruct Hsz as (Hlh & Hrh & Hnn & Hq12 & Hq34 & Hlr).
    destruct Hlg as (Hq1 & Hq3 & Hl4).
    destruct (split_at run (q1 seg)) as (A & r1 & -> & HA); [lia|].
    rewrite length_app in Hrun.
    destruct (split_at r1 (q2 seg)) as (B & r2 & -> & HB); [lia|].
    rewrite length_app in Hrun.
    destruct (split_at r2 (q3 seg)) as (C & D & -> & HC); [lia|].
    rewrite length_app in Hrun.
    apply Forall_app in HP. destruct HP as [PA HP].
    apply Forall_app in HP. destruct HP as [PB HP].
    apply Forall_app in HP. destruct HP as [PC PD].
    destruct (IH1 ltac:(lia) pre A (B ++ C ++ D ++ post))
      as (A' & -> & LA & PA' & Lw1); try assumption; try lia.
    { rewrite Hd. list_eq. }
    destruct (IH2 ltac:(lia) (pre ++ A') B (C ++ D ++ post))
      as (B' & -> & LB & PB' & Lw2); try assumption; try lia.
    { list_eq. } { rewrite length_app. lia. }
    destruct (IH3 ltac:(lia) (pre ++ A' ++ B') C (D ++ post))
      as (C' & -> & LC & PC' & Lw3); try assumption; try lia.
    { list_eq. } { rewrite !length_app. lia. }
    destruct (IH4 ltac:(lia) (pre ++ A' ++ B' ++ C') D post)
      as (D' & -> & LD & PD' & Lw4); try assumption; try lia.
    { list_eq. } { rewrite !length_app. lia. }
    assert (Hw4 : elements <= length w4) by lia.
    assert (Hq12' : 1 <= q1 seg /\ q1 seg <= q2 seg <= q1 seg + 1) by lia.
    assert (Hq34' : 1 <= q3 seg /\ q3 seg <= q4 seg <= q3 seg + 1) by lia.
    destruct (merge_phase_cover _ _ _ _ _ _ _ _ _ _ pre (A' ++ B' ++ C' ++ D') post
                Hlh Hrh Hnn Hq12' Hq34' Hlr Hw4 Hphase)
      as (run' & -> & Lr & Pr & Lw5); try assumption.
    { list_eq. }
    { rewrite !length_app. lia. }
    { repeat (apply Forall_app; split); assumption. }
    exists run'. split; [reflexivity|]. split; [assumption|].
    split; [assumption|lia].
Qed.
End EngineCover.

(** Whatever the comparator answers, the call returns an array of the same
    length, each of whose cells holds an element of the input. *)
Lemma xsort_cover {E Ctx} (cmp : cmp_ctx_fn_t E Ctx) (junk l : list E) (c : Ctx) :
  length junk = length l ->
  exists l' s',
    (forall fuel, 2 * length l + 1 <= fuel ->
                  xsort cmp fuel junk l (length l) c = Done l' s')
    /\ length l' = length l
    /\ incl l' l.
Proof.
  intros Hj.
  destruct (xsort_returns cmp junk l c Hj) as (d' & w' & s' & k & Hs & Ld & Hrun).
  destruct (sorts_cover cmp (fun x => In x l) _ _ _ _ _ _ _ _ _ Hs ltac:(lia)
              [] l []) as (l' & -> & Ll & Pl & _); try reflexivity.
  { now rewrite app_nil_r. }
  { apply Forall_forall. auto. }
  cbn [app] in *. rewrite app_nil_r in *.
  exists l', s'. split; [assumption|]. split; [assumption|].
  intros x Hx. rewrite Forall_forall in Pl. now apply Pl.
Qed.

(** ** A consistent comparator and its answers run alike *)

Section Transfer.
Context {E Ctx : Type}.
Variable cmp : cmp_ctx_fn_t E Ctx.
Variable c0 : Ctx.
Hypothesis Hc : consistent cmp c0.

Lemma answers_consistent : consistent (answers cmp c0) c0.
Proof.
  split.
  - intros a b c _. reflexivity.
  - exact (cmp_antisym Hc).
  - exact (cmp_trans Hc).
Qed.

Lemma answers_read_only a b : snd (answers cmp c0 a b c0) = c0.
Proof. reflexivity. Qed.

Lemma srel_start k : srel cmp c0 (CState c0 k) (CState c0 k).
Proof. repeat split. constructor. Qed.

Lemma mrel_ret {A} (a : A) : mrel cmp c0 (ret a) (ret a).
Proof. intros s1 s2 R. cbn. auto. Qed.

Lemma mrel_fault {A} : mrel cmp c0 (@fault Ctx A) fault.
Proof. intros s1 s2 R. exact I. Qed.

Lemma mrel_lift {A} (o : option A) : mrel cmp c0 (lift o) (lift o).
Proof. intros s1 s2 R. unfold lift. destruct o; cbn; auto. Qed.

Lemma mrel_dec n : mrel cmp c0 (dec n) (dec (Ctx := Ctx) n).
Proof. destruct n; [apply mrel_fault|apply mrel_ret]. Qed.

Lemma mrel_bind {A B} (m1 m2 : M Ctx A) (k1 k2 : A -> M Ctx B) :
  mrel cmp c0 m1 m2 -> (forall a, mrel cmp c0 (k1 a) (k2 a)) ->
  mrel cmp c0 (bind m1 k1) (bind m2 k2).
Proof.
  intros Hm Hk s1 s2 R. unfold bind. specialize (Hm s1 s2 R).
  destruct (m1 s1) as [[a1 t1]|], (m2 s2) as [[a2 t2]|]; try contradiction.
  - destruct Hm as [<- R']. exact (Hk a1 t1 t2 R').
  - exact I.
Qed.

Lemma mrel_call a b : mrel cmp c0 (call cmp a b) (call (answers cmp c0) a b).
Proof.
  intros s1 s2 (Hr & Hc2 & Hn). unfold call, answers.
  destruct (cmp a b (ctx s1)) as [z c] eqn:Ez. cbn [fst].
  split.
  - rewrite <- (cmp_steady Hc a b (ctx s1) Hr), Ez. reflexivity.
  - repeat split; cbn [ctx ncmp].
    + replace c with (snd (cmp a b (ctx s1))) by now rewrite Ez.
      now constructor.
    + assumption.
    + now rewrite Hn.
Qed.

(** From a run with the answers to the run with the comparator. *)
Lemma mrel_some {A} (m1 m2 : M Ctx A) s1 s2 a t2 :
  mrel cmp c0 m1 m2 -> srel cmp c0 s1 s2 -> m2 s2 = Some (a, t2) ->
  exists t1, m1 s1 = Some (a, t1) /\ srel cmp c0 t1 t2.
Proof.
  intros Hm R H2. specialize (Hm s1 s2 R). rewrite H2 in Hm.
  destruct (m1 s1) as [[a1 t1]|]; [|contradiction].
  destruct Hm as [-> R']. eauto.
Qed.
End Transfer.

Create HintDb mrel.
#[export] Hint Resolve mrel_ret mrel_fault mrel_lift mrel_dec mrel_call : mrel.

(** One step through two computations of the same shape. *)
Ltac mrel_step :=
  first
    [ solve [auto with mrel]
    | apply mrel_bind; [|intros ?]
    | match goal with
      | |- mrel _ _ (if ?b then _ else _) (if ?b then _ else _) => destruct b
      | |- mrel _ _ (match ?x with _ => _ end) (match ?x with _ => _ end) =>
          destruct x
      end ].

Ltac mrel_auto := repeat mrel_step.

Section TransferKernel.
Context {E Ctx : Type}.
Variable cmp : cmp_ctx_fn_t E Ctx.
Variable c0 : Ctx.
Hypothesis Hc : consistent cmp c0.

Lemma mrel_xchg_ctx b seg :
  mrel cmp c0 (xchg_ctx cmp b seg) (xchg_ctx (answers cmp c0) b seg).
Proof. unfold xchg_ctx, ld, st. mrel_auto. Qed.

Lemma mrel_oddeven_sweep seg pair : forall b itr,
  mrel cmp c0 (oddeven_sweep cmp b seg pair itr)
       (oddeven_sweep (answers cmp c0) b seg pair itr).
Proof.
  induction pair as [pair IH] using lt_wf_ind. intros b itr.
  destruct pair as [|[|p]]; cbn [oddeven_sweep];
    (apply mrel_bind; [apply mrel_xchg_ctx|intros [r b1]]).
  - apply mrel_ret.
  - apply mrel_ret.
  - apply IH. lia.
Qed.

Lemma mrel_oddeven_loop elements : forall b seg elem z itr,
  mrel cmp c0 (oddeven_loop cmp b seg elem z itr elements)
       (oddeven_loop (answers cmp c0) b seg elem z itr elements).
Proof.
  induction elements as [|e IH]; intros b seg elem z itr; cbn [oddeven_loop].
  - apply mrel_fault.
  - apply mrel_bind; [apply mrel_oddeven_sweep|intros [itr1 b1]].
    destruct (itr1 =? 0)%Z; [apply mrel_ret|].
    destruct e; [apply mrel_ret|apply IH].
Qed.

Lemma mrel_oddeven_sort_ctx b seg elements :
  mrel cmp c0 (oddeven_sort_ctx cmp b seg elements)
       (oddeven_sort_ctx (answers cmp c0) b seg elements).
Proof.
  destruct elements as [|[|[|[|n]]]]; cbn [oddeven_sort_ctx].
  - apply mrel_ret.
  - apply mrel_ret.
  - apply mrel_bind; [apply mrel_xchg_ctx|intros [r b1]; apply mrel_ret].
  - apply mrel_bind; [apply mrel_xchg_ctx|intros [r1 b1]].
    apply mrel_bind; [apply mrel_xchg_ctx|intros [r2 b2]].
    destruct (negb r2); [apply mrel_ret|].
    apply mrel_bind; [apply mrel_xchg_ctx|intros [r3 b3]; apply mrel_ret].
  - apply mrel_oddeven_loop.
Qed.

Lemma mrel_merge_head sb src db dst c :
  mrel cmp c0 (merge_head cmp sb src db dst c)
       (merge_head (answers cmp c0) sb src db dst c).
Proof. unfold merge_head, ld, st. mrel_auto. Qed.

Lemma mrel_merge_tail sb src db dst c :
  mrel cmp c0 (merge_tail cmp sb src db dst c)
       (merge_tail (answers cmp c0) sb src db dst c).
Proof. unfold merge_tail, ld, st. mrel_auto. Qed.

Lemma mrel_merge_last_tail sb src db dst c :
  mrel cmp c0 (merge_last_tail cmp sb src db dst c)
       (merge_last_tail (answers cmp c0) sb src db dst c).
Proof. unfold merge_last_tail, ld, st. mrel_auto. Qed.

Lemma mrel_merge_last_head sb src db dst c :
  mrel cmp c0 (merge_last_head cmp sb src db dst c)
       (merge_last_head (answers cmp c0) sb src db dst c).
Proof. unfold merge_last_head, ld, st. mrel_auto. Qed.

Lemma mrel_merge_loop sb src dst n : forall db c,
  mrel cmp c0 (merge_loop cmp sb src db dst n c)
       (merge_loop (answers cmp c0) sb src db dst n c).
Proof.
  induction n as [|n IH]; intros db c; cbn [merge_loop].
  - apply mrel_ret.
  - apply mrel_bind; [apply mrel_merge_head|intros [c1 d1]].
    apply mrel_bind; [apply mrel_merge_tail|intros [c2 d2]].
    apply IH.
Qed.

Lemma mrel_parity_merge_ctx sb src db dst left right :
  mrel cmp c0 (parity_merge_ctx cmp sb src db dst left right)
       (parity_merge_ctx (answers cmp c0) sb src db dst left right).
Proof.
  unfold parity_merge_ctx.
  apply mrel_bind; [apply mrel_dec|intros tpd0].
  apply mrel_bind.
  { destruct (left <? right); [apply mrel_merge_head|apply mrel_ret]. }
  intros [c1 d1].
  apply mrel_bind; [apply mrel_dec|intros tpl0].
  apply mrel_bind; [apply mrel_dec|intros tpr0].
  apply mrel_bind; [apply mrel_merge_loop|intros [c3 d3]].
  apply mrel_bind; [apply mrel_merge_last_tail|intros d4].
  apply mrel_merge_last_head.
Qed.

Lemma mrel_le_at b i j :
  mrel cmp c0 (le_at cmp b i j) (le_at (answers cmp c0) b i j).
Proof. unfold le_at, ld. mrel_auto. Qed.

Lemma mrel_gt_at b i j :
  mrel cmp c0 (gt_at cmp b i j) (gt_at (answers cmp c0) b i j).
Proof. unfold gt_at, ld. mrel_auto. Qed.

Lemma mrel_already_ordered d data seg :
  mrel cmp c0 (already_ordered cmp d data seg)
       (already_ordered (answers cmp c0) d data seg).
Proof.
  unfold already_ordered.
  apply mrel_bind; [apply mrel_dec|intros i1].
  apply mrel_bind; [apply mrel_le_at|intros t1].
  destruct t1; [|apply mrel_ret].
  apply mrel_bind; [apply mrel_dec|intros i2].
  apply mrel_bind; [apply mrel_le_at|intros t2].
  destruct t2; [|apply mrel_ret].
  apply mrel_bind; [apply mrel_dec|intros i3].
  apply mrel_le_at.
Qed.

Lemma mrel_fully_reversed d data elements seg :
  mrel cmp c0 (fully_reversed cmp d data elements seg)
       (fully_reversed (answers cmp c0) d data elements seg).
Proof.
  unfold fully_reversed.
  apply mrel_bind; [apply mrel_dec|intros i1].
  apply mrel_bind; [apply mrel_gt_at|intros t1].
  destruct t1; [|apply mrel_ret].
  apply mrel_bind; [apply mrel_dec|intros i2].
  apply mrel_bind; [apply mrel_gt_at|intros t2].
  destruct t2; [|apply mrel_ret].
  apply mrel_bind; [apply mrel_dec|intros i3].
  apply mrel_gt_at.
Qed.

Lemma mrel_merge_phase d w data elements seg :
  mrel cmp c0 (merge_phase cmp d w data elements seg)
       (merge_phase (answers cmp c0) d w data elements seg).
Proof.
  unfold merge_phase.
  apply mrel_bind; [apply mrel_already_ordered|intros o].
  destruct o; [apply mrel_ret|].
  apply mrel_bind; [apply mrel_fully_reversed|intros r].
  destruct r.
  - apply mrel_bind; [apply mrel_lift|intros [d1 w1]].
    apply mrel_bind; [apply mrel_lift|intros [d2 w2]].
    apply mrel_bind; [apply mrel_lift|intros [d3 w3]].
    apply mrel_ret.
  - apply mrel_bind; [apply mrel_parity_merge_ctx|intros w1].
    apply mrel_bind; [apply mrel_parity_merge_ctx|intros w2].
    apply mrel_bind; [apply mrel_parity_merge_ctx|intros d1].
    apply mrel_ret.
Qed.

Lemma mrel_schedule cap below data elements seg next child n :
  mrel cmp c0 (schedule cap below data elements seg next child n)
       (schedule cap below data elements seg next child n).
Proof.
  unfold schedule, push.
  destruct (length below <? cap); [|apply mrel_bind; [apply mrel_fault|]].
  - apply mrel_bind; [apply mrel_ret|intros s1].
    destruct (length s1 <? cap); [apply mrel_ret|apply mrel_fault].
  - intros s1. destruct (length s1 <? cap); [apply mrel_ret|apply mrel_fault].
Qed.

Lemma mrel_step (c : config) :
  mrel cmp c0 (step cmp c) (step (answers cmp c0) c).
Proof.
  unfold step. destruct (stk c) as [|top below]; [apply mrel_ret|].
  destruct (fr_ret_addr top).
  - destruct (fr_elements top <=? 7).
    + apply mrel_bind; [apply mrel_oddeven_sort_ctx|intros d; apply mrel_ret].
    + apply mrel_bind; [apply mrel_schedule|intros s; apply mrel_ret].
  - apply mrel_bind; [apply mrel_schedule|intros s; apply mrel_ret].
  - apply mrel_bind; [apply mrel_schedule|intros s; apply mrel_ret].
  - apply mrel_bind; [apply mrel_schedule|intros s; apply mrel_ret].
  - apply mrel_bind; [apply mrel_merge_phase|intros [[p d] w]; apply mrel_ret].
Qed.

Lemma mrel_steps k : forall (c : config),
  mrel cmp c0 (steps cmp k c) (steps (answers cmp c0) k c).
Proof.
  induction k as [|k IH]; intros c s1 s2 R; cbn [steps].
  - auto.
  - pose proof (mrel_step c s1 s2 R) as H.
    destruct (step cmp c s1) as [[c1 t1]|],
             (step (answers cmp c0) c s2) as [[c2 t2]|]; try contradiction.
    + destruct H as [<- R']. exact (IH c1 t1 t2 R').
    + exact I.
Qed.

(** The call with the comparator returns what the call with its answers
    returns, after as many comparisons. *)
Lemma run_transfer fuel : forall (c : config) s1 s2 d t2,
  srel cmp c0 s1 s2 ->
  run (answers cmp c0) fuel c s2 = Done d t2 ->
  exists t1, run cmp fuel c s1 = Done d t1 /\ srel cmp c0 t1 t2.
Proof.
  induction fuel as [|fuel IH]; intros c s1 s2 d t2 R H; cbn [run] in *.
  - destruct (stk c); [|discriminate H].
    inversion H; subst. eauto.
  - destruct (stk c) eqn:Es.
    + inversion H; subst. eauto.
    + pose proof (mrel_step c s1 s2 R) as Hs.
      destruct (step cmp c s1) as [[c1 t1]|],
               (step (answers cmp c0) c s2) as [[c2 u2]|];
        try contradiction; try discriminate H.
      destruct Hs as [<- R']. exact (IH c1 t1 u2 d t2 R' H).
Qed.

Lemma xsort_transfer fuel (junk l : list E) n d t2 :
  xsort (answers cmp c0) fuel junk l n c0 = Done d t2 ->
  exists t1, xsort cmp fuel junk l n c0 = Done d t1 /\ srel cmp c0 t1 t2.
Proof.
  unfold xsort. apply run_transfer. apply srel_start.
Qed.
End TransferKernel.

(** ** The call with a consistent comparator *)

Section XsortConsistent.
Context {E Ctx : Type}.
Variable cmp : cmp_ctx_fn_t E Ctx.
Variable c0 : Ctx.
Hypothesis Hc : consistent cmp c0.

(** With a consistent comparator the call leaves the array sorted, stably. *)
Lemma xsort_sorted (junk l : list E) (fuel : nat) :
  length junk = length l -> 2 * length l + 1 <= fuel ->
  exists l' s',
    xsort cmp fuel junk l (length l) c0 = Done l' s'
    /\ sorted_from cmp c0 l l'.
Proof.
  intros Hj Hf.
  destruct (xsort_sorted_from (answers cmp c0) c0 (answers_consistent cmp c0 Hc)
              (answers_read_only cmp c0) junk l Hj)
    as (l' & t2 & Hrun & Hsf).
  destruct (xsort_transfer cmp c0 Hc fuel junk l (length l) l' t2 (Hrun fuel Hf))
    as (t1 & Hrun1 & _).
  exists l', t1. split; [assumption|exact Hsf].
Qed.

(** A call on at least 8 elements brings the frame of the whole array to
    [ret_addr_4] with each of its four quarters sorted, stably; the
    merge-decision phase then does what [phase_spec] says. *)
Lemma xsort_phase (junk l : list E) :
  length junk = length l -> 8 <= length l ->
  exists A B C D A' B' C' D' k cap w s w' s',
    l = A ++ B ++ C ++ D
    /\ (A' <> [] /\ B' <> [] /\ C' <> [] /\ D' <> [])
    /\ sorted_from cmp c0 A A' /\ sorted_from cmp c0 B B'
    /\ sorted_from cmp c0 C C' /\ sorted_from cmp c0 D D'
    /\ steps cmp k (xsort_init junk l (length l)) (CState c0 0)
       = Some (Config [Frame 0 (length l) (partition_array (length l)) ret_addr_4]
                      cap (A' ++ B' ++ C' ++ D') w, s)
    /\ merge_phase cmp (A' ++ B' ++ C' ++ D') w 0 (length l)
                   (partition_array (length l)) s
       = Some (fst (fst (phase_spec (gtb_of cmp c0) A' B' C' D')),
               snd (fst (phase_spec (gtb_of cmp c0) A' B' C' D')), w', s')
    /\ ncmp s' = ncmp s + snd (phase_spec (gtb_of cmp c0) A' B' C' D').
Proof.
  intros Hj H8.
  destruct (xsort_reaches_phase (answers cmp c0) c0 (answers_consistent cmp c0 Hc)
              (answers_read_only cmp c0) junk l Hj H8)
    as (A & B & C & D & A' & B' & C' & D' & k & cap & w & kk & w' & El
        & HN & SA & SB & SC & SD & Hsteps & Hph).
  destruct (mrel_some cmp c0 _ _ (CState c0 0) (CState c0 0) _ _
              (mrel_steps cmp c0 Hc k _) (srel_start cmp c0 0) Hsteps)
    as (s & Hsteps1 & R).
  destruct (mrel_some cmp c0 _ _ s (CState c0 kk) _ _
              (mrel_merge_phase cmp c0 Hc _ _ _ _ _) R Hph)
    as (s' & Hph1 & R').
  exists A, B, C, D, A', B', C', D', k, cap, w, s, w', s'.
  split; [assumption|]. split; [assumption|].
  do 4 (split; [assumption|]).
  split; [exact Hsteps1|]. split; [exact Hph1|].
  destruct R as (_ & _ & Rn), R' as (_ & _ & Rn').
  cbn [ncmp] in Rn, Rn'. rewrite Rn, Rn'. reflexivity.
Qed.

(** On a tie the head front of the merger takes the left element. *)
Lemma parity_merge_ctx_tie (sp sq dp dq l1 r1 old : list E) (a b : E) (k : nat) :
  length l1 <= length r1 <= length l1 + 1 ->
  length old = S (length l1) + S (length r1) ->
  (fst (cmp a b c0) <= 0)%Z ->
  exists rest s',
    parity_merge_ctx cmp (sp ++ ((a :: l1) ++ b :: r1) ++ sq) (length sp)
                     (dp ++ old ++ dq) (length dp)
                     (S (length l1)) (S (length r1)) (CState c0 k)
    = Some (dp ++ (a :: rest) ++ dq, s').
Proof.
  intros Hlr Hold Hab.
  pose proof (parity_merge_ctx_pure (answers cmp c0) c0 (answers_read_only cmp c0)
                sp sq dp dq (a :: l1) (b :: r1) old k) as H.
  cbn [length] in H. specialize (H ltac:(lia) ltac:(lia) ltac:(lia)).
  apply (gtb_of_false cmp c0) in Hab.
  rewrite merge_cc in H.
  change (gtb_of (answers cmp c0) c0 a b) with (gtb_of cmp c0 a b) in H.
  rewrite Hab in H. cbn [firstn app] in H.
  destruct (mrel_some cmp c0 _ _ (CState c0 k) (CState c0 k) _ _
              (mrel_parity_merge_ctx cmp c0 Hc _ _ _ _ _ _) (srel_start cmp c0 k) H)
    as (s' & H1 & _).
  do 2 eexists. exact H1.
Qed.
End XsortConsistent.

(** ** The call as the stable sort *)

Section XsortUnique.
Context {E Ctx : Type}.
Variable cmp : cmp_ctx_fn_t E Ctx.
Variable c0 : Ctx.
Hypothesis Hc : consistent cmp c0.

Lemma reach_trans c c' : reach cmp c0 c -> reach cmp c c' -> reach cmp c0 c'.
Proof. intros H0 H. induction H; [assumption|now constructor]. Qed.

(** A comparator consistent from [c0] on is consistent from every context it
    reaches, with the same answers. *)
Lemma consistent_reach c : reach cmp c0 c -> consistent cmp c.
Proof.
  intros Hr. split.
  - intros a b c' Hr'.
    rewrite (cmp_steady Hc a b c' (reach_trans c c' Hr Hr')).
    now rewrite (cmp_steady Hc a b c Hr).
  - intros a b. rewrite !(cmp_steady Hc _ _ c Hr). apply (cmp_antisym Hc).
  - intros a b d. rewrite !(cmp_steady Hc _ _ c Hr). apply (cmp_trans Hc).
Qed.

Lemma gtb_of_reach c a b : reach cmp c0 c -> gtb_of cmp c a b = gtb_of cmp c0 a b.
Proof. intros Hr. unfold gtb_of. now rewrite (cmp_steady Hc a b c Hr). Qed.

Lemma sorted_reach c (l : list E) :
  reach cmp c0 c -> sorted (gtb_of cmp c0) l -> sorted (gtb_of cmp c) l.
Proof.
  intros Hr. unfold sorted. induction 1 as [|a l H IH Ha]; constructor.
  - assumption.
  - rewrite Forall_forall in *. intros x Hx. unfold le_of.
    rewrite (gtb_of_reach c a x Hr). now apply Ha.
Qed.

(** The sorted array, and the context the comparator is left in. *)
Lemma xsort_sorted_ctx (junk l : list E) (fuel : nat) :
  length junk = length l -> 2 * length l + 1 <= fuel ->
  exists l' s',
    xsort cmp fuel junk l (length l) c0 = Done l' s'
    /\ sorted_from cmp c0 l l' /\ reach cmp c0 (ctx s').
Proof.
  intros Hj Hf.
  destruct (xsort_sorted_from (answers cmp c0) c0 (answers_consistent cmp c0 Hc)
              (answers_read_only cmp c0) junk l Hj)
    as (l' & t2 & Hrun & Hsf).
  destruct (xsort_transfer cmp c0 Hc fuel junk l (length l) l' t2 (Hrun fuel Hf))
    as (t1 & Hrun1 & (Hr & _)).
  exists l', t1. split; [assumption|]. split; [exact Hsf|exact Hr].
Qed.

(** The sorted, stable arrangement is the one the call returns. *)
Lemma xsort_returns_arrangement (junk l m : list E) (fuel : nat) :
  length junk = length l -> 2 * length l + 1 <= fuel ->
  sorted_from cmp c0 l m ->
  exists s', xsort cmp fuel junk l (length l) c0 = Done m s'
             /\ reach cmp c0 (ctx s').
Proof.
  intros Hj Hf (P2 & S2 & T2).
  pose proof (consistent_weak_order cmp c0 Hc) as WO.
  destruct (xsort_sorted_ctx junk l fuel Hj Hf)
    as (l' & s' & Hrun & (P1 & S1 & T1) & Hr).
  exists s'. split; [|exact Hr]. rewrite Hrun. f_equal.
  apply (stable_sorted_unique (gtb_of cmp c0) WO m l' S2 S1).
  - rewrite <- P2. exact P1.
  - intros e. rewrite (T1 e). symmetry. apply T2.
Qed.
End XsortUnique.

(** ** The frame stack stays small *)

Section StackFacts.
Context {E Ctx : Type}.
Variable cmp : cmp_ctx_fn_t E Ctx.
Variable N : nat.
Hypothesis HN : (Z.of_nat N < 2 ^ 64)%Z.

Lemma chained_tail f rest : chained N (f :: rest) -> chained N rest.
Proof. inversion 1; subst; [constructor|assumption]. Qed.

Lemma chained_head f f' rest :
  fr_elements f' = fr_elements f -> chained N (f :: rest) -> chained N (f' :: rest).
Proof.
  intros He H. inversion H; subst.
  - constructor. lia.
  - constructor; [assumption|lia|assumption].
Qed.

Lemma chained_weight rest : forall g,
  chained N (g :: rest) -> fr_elements g * 2 ^ length rest <= N.
Proof.
  induction rest as [|h rest IH]; intros g H; inversion H; subst.
  - cbn. lia.
  - specialize (IH h ltac:(assumption)). cbn [length Nat.pow].
    apply Nat.le_trans with (fr_elements h * 2 ^ length rest); [|assumption].
    rewrite Nat.mul_assoc. apply Nat.mul_le_mono_r. lia.
Qed.

Lemma pow_fits k : 8 * 2 ^ k <= N -> k <= 60.
Proof.
  intros H. apply Nat2Z.inj_le in H.
  rewrite Nat2Z.inj_mul, Nat2Z.inj_pow in H.
  change (Z.of_nat 8) with 8%Z in H. change (Z.of_nat 2) with 2%Z in H.
  destruct (Nat.le_gt_cases k 60) as [Hk|Hk]; [assumption|exfalso].
  assert (Hp : (2 ^ 61 <= 2 ^ Z.of_nat k)%Z)
    by (apply Z.pow_le_mono_r; lia).
  change (2 ^ 64)%Z with 18446744073709551616%Z in HN.
  change (2 ^ 61)%Z with 2305843009213693952%Z in Hp.
  lia.
Qed.

Lemma chained_length stk : chained N stk -> length stk <= 62.
Proof.
  intros H. destruct stk as [|f [|g rest]]; cbn [length]; try lia.
  inversion H; subst.
  pose proof (chained_weight rest g ltac:(assumption)) as Hw.
  assert (H8 : 8 * 2 ^ length rest <= N).
  { apply Nat.le_trans with (fr_elements g * 2 ^ length rest); [|assumption].
    apply Nat.mul_le_mono_r. assumption. }
  pose proof (pow_fits _ H8). lia.
Qed.

Lemma chained_push top below child next data seg :
  8 <= fr_elements top -> 2 * child <= fr_elements top ->
  chained N (top :: below) ->
  chained N (Frame data child seg ret_addr_0
               :: Frame (fr_data top) (fr_elements top) seg next :: below).
Proof.
  intros H8 Hc H. constructor; cbn [fr_elements]; try assumption.
  apply (chained_head top); [reflexivity|assumption].
Qed.

Lemma step_stack_ok (c c' : config (E := E)) (s s' : cstate Ctx) :
  stack_ok N c -> step cmp c s = Some (c', s') -> stack_ok N c'.
Proof.
  intros (Hch & Hok & Hcap) H.
  pose proof (step_frame_ok cmp c c' s s' Hok H) as Hok'.
  pose proof (chained_length _ Hch) as Hlen.
  unfold step in H.
  destruct (stk c) as [|top below] eqn:Es.
  { apply some_inj in H. injection H as <- <-.
    split; [now rewrite Es|]. split; [assumption|assumption]. }
  rewrite Hcap in H. cbn [length] in Hlen.
  destruct (Nat.leb_spec 128 (length (top :: below) + 1)) as [Hge|_];
    [cbn [length] in Hge; lia|].
  inversion Hok as [|? ? Htop _]; subst.
  pose proof (chained_tail _ _ Hch) as Hbelow.
  pose proof (partition_array_sizes (fr_elements top)) as Hsz.
  cbv zeta in Hsz.
  set (seg := partition_array (fr_elements top)) in *.
  destruct Hsz as (Hlh & Hrh & Hnn & Hq12 & Hq34 & Hlr).
  destruct (fr_ret_addr top) eqn:El.
  - destruct (fr_elements top <=? 7) eqn:E7.
    + minv H. apply some_inj in H. injection H as <- <-.
      split; [assumption|]. split; [assumption|reflexivity].
    + minv H. apply schedule_inv in Hm. destruct Hm as [-> _].
      apply some_inj in H. injection H as <- <-.
      apply Nat.leb_gt in E7.
      split; [|split; [assumption|reflexivity]].
      cbn [stk]. apply chained_push; [lia| |assumption].
      change (2 * q1 seg <= fr_elements top). lia.
  - destruct Htop as [Htop|[H8 Hseg]]; [congruence|]. rewrite Hseg in H.
    minv H. apply schedule_inv in Hm. destruct Hm as [-> _].
    apply some_inj in H. injection H as <- <-.
    split; [|split; [assumption|reflexivity]].
    cbn [stk]. apply chained_push; [exact H8| |assumption].
    change (2 * q2 seg <= fr_elements top).
    clear - Hlh Hrh Hnn Hq12 Hq34 Hlr H8. lia.
  - destruct Htop as [Htop|[H8 Hseg]]; [congruence|]. rewrite Hseg in H.
    minv H. apply schedule_inv in Hm. destruct Hm as [-> _].
    apply some_inj in H. injection H as <- <-.
    split; [|split; [assumption|reflexivity]].
    cbn [stk]. apply chained_push; [exact H8| |assumption].
    change (2 * q3 seg <= fr_elements top).
    clear - Hlh Hrh Hnn Hq12 Hq34 Hlr H8. lia.
  - destruct Htop as [Htop|[H8 Hseg]]; [congruence|]. rewrite Hseg in H.
    minv H. apply schedule_inv in Hm. destruct Hm as [-> _].
    apply some_inj in H. injection H as <- <-.
    split; [|split; [assumption|reflexivity]].
    cbn [stk]. apply chained_push; [exact H8| |assumption].
    change (2 * q4 seg <= fr_elements top).
    clear - Hlh Hrh Hnn Hq12 Hq34 Hlr H8. lia.
  - minv H. destruct a as [[p d] w]. apply some_inj in H. injection H as <- <-.
    split; [assumption|]. split; [assumption|reflexivity].
Qed.

Lemma steps_stack_ok k : forall (c c' : config (E := E)) (s s' : cstate Ctx),
  stack_ok N c -> steps cmp k c s = Some (c', s') -> stack_ok N c'.
Proof.
  induction k as [|k IH]; intros c c' s s' Hok H; cbn [steps] in H.
  - apply some_inj in H. inversion H; subst. exact Hok.
  - destruct (step cmp c s) as [[c1 s1]|] eqn:E1; [|discriminate H].
    apply (IH c1 c' s1 s'); [|exact H].
    exact (step_stack_ok c c1 s s1 Hok E1).
Qed.
End StackFacts.

(** ** How often the comparator is called *)

Section CostFacts.
Context {E Ctx : Type}.
Variable cmp : cmp_ctx_fn_t E Ctx.

Lemma xchg_ctx_cost (b : list E) i (s : cstate Ctx) r b' s' :
  xchg_ctx cmp b i s = Some (r, b', s') -> ncmp s' = S (ncmp s).
Proof.
  intros H. destruct (xchg_ctx_inv cmp _ _ _ _ _ _ H)
    as (? & ? & ? & ? & _ & _ & _ & _ & ->). reflexivity.
Qed.

(** A sweep from the pair at offset [pair] compare-exchanges every second
    pair down to offset 0 or 1. *)
Lemma oddeven_sweep_cost seg pair : forall (b : list E) itr (s : cstate Ctx) r s',
  oddeven_sweep cmp b seg pair itr s = Some (r, s') ->
  ncmp s' = ncmp s + pair / 2 + 1.
Proof.
  induction pair as [pair IH] using lt_wf_ind. intros b itr s r s' H.
  destruct pair as [|[|p]]; cbn [oddeven_sweep] in H; minv H;
    destruct a as [r1 b1]; apply xchg_ctx_cost in Hm.
  - apply some_inj in H. inversion H; subst. cbn. lia.
  - apply some_inj in H. inversion H; subst. cbn. lia.
  - apply IH in H; [|lia]. rewrite H, Hm.
    replace (S (S p)) with (p + 1 * 2) by lia. rewrite Nat.div_add by lia. lia.
Qed.

Lemma oddeven_loop_cost elements : forall (b : list E) seg elem z itr
                                          (s : cstate Ctx) b' s',
  oddeven_loop cmp b seg elem z itr elements s = Some (b', s') ->
  ncmp s' <= ncmp s + elements * ((elem + 1) / 2 + 1).
Proof.
  induction elements as [|e IH]; intros b seg elem z itr s b' s' H;
    cbn [oddeven_loop] in H; [discriminate H|].
  minv H. destruct a as [itr1 b1]. apply oddeven_sweep_cost in Hm.
  assert (Hs : ncmp s0 <= ncmp s + ((elem + 1) / 2 + 1)).
  { rewrite Hm. destruct (negb z).
    - lia.
    - rewrite Nat.add_0_r.
      pose proof (Nat.Div0.div_le_mono elem (elem + 1) 2 ltac:(lia)). lia. }
  destruct (itr1 =? 0)%Z.
  { apply some_inj in H. inversion H; subst. cbn [Nat.mul]. lia. }
  destruct e as [|e'].
  { apply some_inj in H. inversion H; subst. cbn [Nat.mul]. lia. }
  apply IH in H. cbn [Nat.mul] in *. lia.
Qed.

Lemma oddeven_sort_ctx_cost (b : list E) seg elements (s : cstate Ctx) b' s' :
  oddeven_sort_ctx cmp b seg elements s = Some (b', s') ->
  ncmp s' <= ncmp s + elements * (elements / 2).
Proof.
  intros H. destruct elements as [|[|[|[|n]]]]; cbn [oddeven_sort_ctx] in H.
  - apply some_inj in H. inversion H; subst. lia.
  - apply some_inj in H. inversion H; subst. lia.
  - minv H. destruct a as [r1 b1]. apply xchg_ctx_cost in Hm.
    apply some_inj in H. inversion H; subst. cbn. lia.
  - minv H. destruct a as [r1 b1]. apply xchg_ctx_cost in Hm.
    minv H. destruct a as [r2 b2]. apply xchg_ctx_cost in Hm0.
    destruct (negb r2).
    + apply some_inj in H. inversion H; subst. cbn. lia.
    + minv H. destruct a as [r3 b3]. apply xchg_ctx_cost in Hm1.
      apply some_inj in H. inversion H; subst. cbn. lia.
  - apply oddeven_loop_cost in H.
    replace (S (S (S (S n))) - 3 + 1) with (n + 1 * 2) in H by lia.
    rewrite Nat.div_add in H by lia.
    replace (S (S (S (S n))) / 2) with (n / 2 + 2).
    + lia.
    + replace (S (S (S (S n)))) with (n + 2 * 2) by lia.
      rewrite Nat.div_add by lia. reflexivity.
Qed.
End CostFacts.

Section EngineCost.
Context {E Ctx : Type}.
Variable cmp : cmp_ctx_fn_t E Ctx.

(** The merge-decision phase: at most three boundary tests, three reversal
    tests and the three merges, which call the comparator once per element
    they write. *)
Lemma merge_phase_cost (d w : list E) data elements seg (s : cstate Ctx)
      p d' w' s' :
  data + elements <= length d -> elements <= length w ->
  lh seg = q1 seg + q2 seg -> rh seg = q3 seg + q4 seg ->
  lh seg + rh seg = elements ->
  1 <= q1 seg /\ q1 seg <= q2 seg <= q1 seg + 1 ->
  1 <= q3 seg /\ q3 seg <= q4 seg <= q3 seg + 1 ->
  lh seg <= rh seg <= lh seg + 1 ->
  merge_phase cmp d w data elements seg s = Some (p, d', w', s') ->
  ncmp s' <= ncmp s + 6 + 2 * elements.
Proof.
  intros Hd Hw Hlh Hrh Hn Hq12 Hq34 Hlr H.
  unfold merge_phase in H. minv H.
  destruct (already_ordered_safe cmp d data elements seg Hd Hlh Hrh Hn
              ltac:(lia) ltac:(lia) ltac:(lia) s) as (t1 & u1 & H1 & C1).
  rewrite H1 in Hm. apply some_inj in Hm. inversion Hm; subst a s0. clear Hm.
  destruct t1.
  { apply some_inj in H. inversion H; subst. lia. }
  minv H.
  destruct (fully_reversed_safe cmp d data elements seg Hd Hlh Hrh Hn
              ltac:(lia) ltac:(lia) ltac:(lia) u1) as (t2 & u2 & H2 & C2).
  rewrite H2 in Hm. apply some_inj in Hm. inversion Hm; subst a s0. clear Hm.
  destruct t2.
  - minv H. destruct a as [d1 w1]. minv H. destruct a as [d2 w2].
    minv H. destruct a as [d3 w3]. apply some_inj in H. inversion H; subst.
    apply lift_inv in Hm, Hm0, Hm1.
    destruct Hm as [_ ->], Hm0 as [_ ->], Hm1 as [_ ->]. lia.
  - minv H. minv H. minv H. apply some_inj in H. inversion H; subst p d' w' s'.
    clear H.
    destruct (parity_merge_ctx_safe cmp d data w 0 (q1 seg) (q2 seg) u2)
      as (x1 & v1 & M1 & L1 & N1); try lia.
    rewrite M1 in Hm. apply some_inj in Hm. inversion Hm; subst a s0. clear Hm.
    destruct (parity_merge_ctx_safe cmp d (data + lh seg) x1 (lh seg)
                (q3 seg) (q4 seg) v1)
      as (x2 & v2 & M2 & L2 & N2); try lia.
    rewrite M2 in Hm0. apply some_inj in Hm0. inversion Hm0; subst a0 s1.
    clear Hm0.
    destruct (parity_merge_ctx_safe cmp x2 0 d data (lh seg) (rh seg) v2)
      as (x3 & v3 & M3 & L3 & N3); try lia.
    rewrite M3 in Hm1. apply some_inj in Hm1. inversion Hm1; subst a1 s2.
    clear Hm1.
    destruct (Nat.ltb_spec (q1 seg) (q2 seg)), (Nat.ltb_spec (q3 seg) (q4 seg)),
      (Nat.ltb_spec (lh seg) (rh seg)); lia.
Qed.

Lemma sorts_lengths data elements (d w : list E) (s : cstate Ctx) d' w' s' k :
  sorts cmp data elements d w s d' w' s' k ->
  data + elements <= length d -> elements <= length w ->
  length d' = length d /\ length w' = length w.
Proof.
  intros H Hd Hw.
  destruct (split_run d data elements Hd) as (pre & run & post & -> & Hp & Hr).
  destruct (sorts_cover cmp (fun _ => True) _ _ _ _ _ _ _ _ _ H Hw pre run post
              eq_refl Hp Hr) as (run' & -> & Lr & _ & Lw).
  { apply Forall_forall. auto. }
  split; [|exact Lw]. rewrite !length_app. lia.
Qed.

Lemma log2_half q n : 1 <= q -> 2 * q <= n -> Nat.log2 q + 1 <= Nat.log2 n.
Proof.
  intros Hq Hn. pose proof (Nat.log2_le_mono _ _ Hn) as H.
  rewrite Nat.log2_double in H by lia. lia.
Qed.

(** A frame on [elements] cells calls the comparator at most
    [3 * elements * (1 + log2 elements)] times. *)
Lemma sorts_cost data elements (d w : list E) (s : cstate Ctx) d' w' s' k :
  sorts cmp data elements d w s d' w' s' k ->
  data + elements <= length d -> elements <= length w ->
  ncmp s' <= ncmp s + 3 * elements * (1 + Nat.log2 elements).
Proof.
  induction 1 as [data elements d w s d' s' Hn Hsort
                 |data elements d0 w0 s0 d1 w1 s1 d2 w2 s2 d3 w3 s3 d4 w4 s4
                       k1 k2 k3 k4 p d' w' s' Hn S1 IH1 S2 IH2 S3 IH3 S4 IH4 Hphase];
    intros Hd Hw.
  - apply oddeven_sort_ctx_cost in Hsort.
    assert (elements * (elements / 2) <= 3 * elements).
    { rewrite (Nat.mul_comm 3). apply Nat.mul_le_mono_l.
      exact (Nat.Div0.div_le_mono elements 7 2 Hn). }
    nia.
  - pose proof (partition_array_sizes elements) as Hsz.
    pose proof (partition_array_large elements Hn) as Hlg.
    cbv zeta in Hsz, Hlg.
    set (seg := partition_array elements) in *.
    destruct Hsz as (Hlh & Hrh & Hnn & Hq12 & Hq34 & Hlr).
    destruct Hlg as (Hq1 & Hq3 & Hl4).
    destruct (sorts_lengths _ _ _ _ _ _ _ _ _ S1) as (Ld1 & Lw1); try lia.
    destruct (sorts_lengths _ _ _ _ _ _ _ _ _ S2) as (Ld2 & Lw2); try lia.
    destruct (sorts_lengths _ _ _ _ _ _ _ _ _ S3) as (Ld3 & Lw3); try lia.
    destruct (sorts_lengths _ _ _ _ _ _ _ _ _ S4) as (Ld4 & Lw4); try lia.
    specialize (IH1 ltac:(lia) ltac:(lia)). specialize (IH2 ltac:(lia) ltac:(lia)).
    specialize (IH3 ltac:(lia) ltac:(lia)). specialize (IH4 ltac:(lia) ltac:(lia)).
    pose proof (merge_phase_cost d4 w4 data elements seg s4 p d' w' s'
                  ltac:(lia) ltac:(lia) Hlh Hrh Hnn ltac:(lia) ltac:(lia) Hlr Hphase)
      as Hc.
    pose proof (log2_half (q1 seg) elements ltac:(lia) ltac:(lia)) as G1.
    pose proof (log2_half (q2 seg) elements ltac:(lia) ltac:(lia)) as G2.
    pose proof (log2_half (q3 seg) elements ltac:(lia) ltac:(lia)) as G3.
    pose proof (log2_half (q4 seg) elements ltac:(lia) ltac:(lia)) as G4.
    set (L := Nat.log2 elements) in *.
    assert (B1 : q1 seg * (1 + Nat.log2 (q1 seg)) <= q1 seg * L)
      by (apply Nat.mul_le_mono_l; lia).
    assert (B2 : q2 seg * (1 + Nat.log2 (q2 seg)) <= q2 seg * L)
      by (apply Nat.mul_le_mono_l; lia).
    assert (B3 : q3 seg * (1 + Nat.log2 (q3 seg)) <= q3 seg * L)
      by (apply Nat.mul_le_mono_l; lia).
    assert (B4 : q4 seg * (1 + Nat.log2 (q4 seg)) <= q4 seg * L)
      by (apply Nat.mul_le_mono_l; lia).
    assert (Hsum : elements * L
                   = q1 seg * L + q2 seg * L + q3 seg * L + q4 seg * L).
    { rewrite <- Hnn, Hlh, Hrh. rewrite !Nat.mul_add_distr_r. lia. }
    rewrite <- !Nat.mul_assoc in *.
    rewrite Nat.mul_add_distr_l, Nat.mul_1_r. lia.
Qed.
End EngineCost.

(** ** The auxiliary buffer is written before it is read *)

Section FilledFacts.
Context {E : Type}.
Variables (dp dq : list E) (T : nat).

Lemma filled_front F B db v db' :
  filled dp dq T F B db -> length F + length B < T ->
  store db (length dp + length F) v = Some db' ->
  filled dp dq T (F ++ [v]) B db'.
Proof.
  intros (mid & -> & HT) Hlt St.
  destruct (head_of mid) as (m & mid' & ->); [lia|].
  replace (dp ++ (F ++ (m :: mid') ++ B) ++ dq)
    with ((dp ++ F) ++ m :: (mid' ++ B ++ dq)) in St by list_eq.
  replace (length dp + length F) with (length (dp ++ F)) in St
    by (rewrite length_app; lia).
  rewrite store_middle in St. apply some_inj in St. subst db'.
  exists mid'. split; [list_eq|].
  rewrite length_app. cbn [length] in *. lia.
Qed.

Lemma filled_back F B db v db' i :
  filled dp dq T F B db -> length F + length B < T -> i + length B + 1 = T ->
  store db (length dp + i) v = Some db' ->
  filled dp dq T F (v :: B) db'.
Proof.
  intros (mid & -> & HT) Hlt Hi St.
  destruct (last_of mid) as (mid' & m & ->); [lia|].
  rewrite length_app in HT. cbn [length] in HT.
  replace (dp ++ (F ++ (mid' ++ [m]) ++ B) ++ dq)
    with ((dp ++ F ++ mid') ++ m :: (B ++ dq)) in St by list_eq.
  replace (length dp + i) with (length (dp ++ F ++ mid')) in St
    by (rewrite !length_app; lia).
  rewrite store_middle in St. apply some_inj in St. subst db'.
  exists mid'. split; [list_eq|]. cbn [length]. lia.
Qed.

Lemma filled_length F B db :
  filled dp dq T F B db -> length db = length dp + T + length dq.
Proof. intros (mid & -> & HT). rewrite !length_app. lia. Qed.
End FilledFacts.

(** [minv] with the names of the value, the state and the equation. *)
Ltac minv_as H a s1 H1 :=
  apply bind_inv in H; destruct H as (a & s1 & H1 & H).

Section MergeTwo.
Context {E Ctx : Type}.
Variable cmp : cmp_ctx_fn_t E Ctx.
Variables (sb1 sb2 : list E) (src1 src2 : nat).

(** Two steps of a front, on sources that agree in the two cells read: the
    same answer, the same value written, the same cursors. *)
Lemma merge_head_two db1 dst1 db2 dst2 c (s : cstate Ctx) c1 db1' s1 c2 db2' s2 :
  load sb1 (src1 + i_ptl c) = load sb2 (src2 + i_ptl c) ->
  load sb1 (src1 + i_ptr c) = load sb2 (src2 + i_ptr c) ->
  merge_head cmp sb1 src1 db1 dst1 c s = Some (c1, db1', s1) ->
  merge_head cmp sb2 src2 db2 dst2 c s = Some (c2, db2', s2) ->
  c1 = c2 /\ s1 = s2
  /\ exists v, store db1 (dst1 + i_ptd c) v = Some db1'
               /\ store db2 (dst2 + i_ptd c) v = Some db2'.
Proof.
  unfold merge_head, ld, st. intros Hl Hr H1 H2.
  minv_as H1 x t La. apply lift_inv in La. destruct La as [La ->].
  minv_as H1 y t Lb. apply lift_inv in Lb. destruct Lb as [Lb ->].
  minv_as H2 x' t La'. apply lift_inv in La'. destruct La' as [La' ->].
  minv_as H2 y' t Lb'. apply lift_inv in Lb'. destruct Lb' as [Lb' ->].
  rewrite Hl, La' in La. apply some_inj in La. subst x'.
  rewrite Hr, Lb' in Lb. apply some_inj in Lb. subst y'.
  minv_as H1 z t C1. minv_as H2 z' t' C2.
  rewrite C1 in C2. apply some_inj in C2. inversion C2; subst z' t'. clear C2.
  destruct (z <=? 0)%Z.
  - minv_as H1 d1 u1 St1. apply lift_inv in St1. destruct St1 as [St1 ->].
    minv_as H2 d2 u2 St2. apply lift_inv in St2. destruct St2 as [St2 ->].
    apply some_inj in H1, H2. inversion H1; inversion H2; subst. eauto.
  - minv_as H1 d1 u1 St1. apply lift_inv in St1. destruct St1 as [St1 ->].
    minv_as H2 d2 u2 St2. apply lift_inv in St2. destruct St2 as [St2 ->].
    apply some_inj in H1, H2. inversion H1; inversion H2; subst. eauto.
Qed.

Lemma merge_tail_two db1 dst1 db2 dst2 c (s : cstate Ctx) c1 db1' s1 c2 db2' s2 :
  load sb1 (src1 + i_tpl c) = load sb2 (src2 + i_tpl c) ->
  load sb1 (src1 + i_tpr c) = load sb2 (src2 + i_tpr c) ->
  merge_tail cmp sb1 src1 db1 dst1 c s = Some (c1, db1', s1) ->
  merge_tail cmp sb2 src2 db2 dst2 c s = Some (c2, db2', s2) ->
  c1 = c2 /\ s1 = s2
  /\ exists v, store db1 (dst1 + i_tpd c) v = Some db1'
               /\ store db2 (dst2 + i_tpd c) v = Some db2'.
Proof.
  unfold merge_tail, ld, st. intros Hl Hr H1 H2.
  minv_as H1 x t La. apply lift_inv in La. destruct La as [La ->].
  minv_as H1 y t Lb. apply lift_inv in Lb. destruct Lb as [Lb ->].
  minv_as H2 x' t La'. apply lift_inv in La'. destruct La' as [La' ->].
  minv_as H2 y' t Lb'. apply lift_inv in Lb'. destruct Lb' as [Lb' ->].
  rewrite Hl, La' in La. apply some_inj in La. subst x'.
  rewrite Hr, Lb' in Lb. apply some_inj in Lb. subst y'.
  minv_as H1 z t C1. minv_as H2 z' t' C2.
  rewrite C1 in C2. apply some_inj in C2. inversion C2; subst z' t'. clear C2.
  destruct (0 <? z)%Z.
  - minv_as H1 d1 u1 St1. apply lift_inv in St1. destruct St1 as [St1 ->].
    minv_as H2 d2 u2 St2. apply lift_inv in St2. destruct St2 as [St2 ->].
    minv_as H1 p1 u1 D1. minv_as H2 p2 u2 D2.
    rewrite D1 in D2. apply some_inj in D2. inversion D2; subst p2 u2. clear D2.
    minv_as H1 n1 v1 D3. minv_as H2 n2 v2 D4.
    rewrite D3 in D4. apply some_inj in D4. inversion D4; subst n2 v2. clear D4.
    apply some_inj in H1, H2. inversion H1; inversion H2; subst. eauto.
  - minv_as H1 d1 u1 St1. apply lift_inv in St1. destruct St1 as [St1 ->].
    minv_as H2 d2 u2 St2. apply lift_inv in St2. destruct St2 as [St2 ->].
    minv_as H1 p1 u1 D1. minv_as H2 p2 u2 D2.
    rewrite D1 in D2. apply some_inj in D2. inversion D2; subst p2 u2. clear D2.
    minv_as H1 n1 v1 D3. minv_as H2 n2 v2 D4.
    rewrite D3 in D4. apply some_inj in D4. inversion D4; subst n2 v2. clear D4.
    apply some_inj in H1, H2. inversion H1; inversion H2; subst. eauto.
Qed.

Lemma merge_last_tail_two db1 dst1 db2 dst2 c (s : cstate Ctx) db1' s1 db2' s2 :
  load sb1 (src1 + i_tpl c) = load sb2 (src2 + i_tpl c) ->
  load sb1 (src1 + i_tpr c) = load sb2 (src2 + i_tpr c) ->
  merge_last_tail cmp sb1 src1 db1 dst1 c s = Some (db1', s1) ->
  merge_last_tail cmp sb2 src2 db2 dst2 c s = Some (db2', s2) ->
  s1 = s2
  /\ exists v, store db1 (dst1 + i_tpd c) v = Some db1'
               /\ store db2 (dst2 + i_tpd c) v = Some db2'.
Proof.
  unfold merge_last_tail, ld, st. intros Hl Hr H1 H2.
  minv_as H1 x t La. apply lift_inv in La. destruct La as [La ->].
  minv_as H1 y t Lb. apply lift_inv in Lb. destruct Lb as [Lb ->].
  minv_as H2 x' t La'. apply lift_inv in La'. destruct La' as [La' ->].
  minv_as H2 y' t Lb'. apply lift_inv in Lb'. destruct Lb' as [Lb' ->].
  rewrite Hl, La' in La. apply some_inj in La. subst x'.
  rewrite Hr, Lb' in Lb. apply some_inj in Lb. subst y'.
  minv_as H1 z t C1. minv_as H2 z' t' C2.
  rewrite C1 in C2. apply some_inj in C2. inversion C2; subst z' t'. clear C2.
  apply lift_inv in H1, H2. destruct H1 as [St1 ->], H2 as [St2 ->]. eauto.
Qed.

Lemma merge_last_head_two db1 dst1 db2 dst2 c (s : cstate Ctx) db1' s1 db2' s2 :
  load sb1 (src1 + i_ptl c) = load sb2 (src2 + i_ptl c) ->
  load sb1 (src1 + i_ptr c) = load sb2 (src2 + i_ptr c) ->
  merge_last_head cmp sb1 src1 db1 dst1 c s = Some (db1', s1) ->
  merge_last_head cmp sb2 src2 db2 dst2 c s = Some (db2', s2) ->
  s1 = s2
  /\ exists v, store db1 (dst1 + i_ptd c) v = Some db1'
               /\ store db2 (dst2 + i_ptd c) v = Some db2'.
Proof.
  unfold merge_last_head, ld, st. intros Hl Hr H1 H2.
  minv_as H1 x t La. apply lift_inv in La. destruct La as [La ->].
  minv_as H1 y t Lb. apply lift_inv in Lb. destruct Lb as [Lb ->].
  minv_as H2 x' t La'. apply lift_inv in La'. destruct La' as [La' ->].
  minv_as H2 y' t Lb'. apply lift_inv in Lb'. destruct Lb' as [Lb' ->].
  rewrite Hl, La' in La. apply some_inj in La. subst x'.
  rewrite Hr, Lb' in Lb. apply some_inj in Lb. subst y'.
  minv_as H1 z t C1. minv_as H2 z' t' C2.
  rewrite C1 in C2. apply some_inj in C2. inversion C2; subst z' t'. clear C2.
  apply lift_inv in H1, H2. destruct H1 as [St1 ->], H2 as [St2 ->]. eauto.
Qed.
End MergeTwo.

Section MergeRuns.
Context {E Ctx : Type}.
Variable cmp : cmp_ctx_fn_t E Ctx.
Variables (sb1 sb2 : list E) (src1 src2 : nat).
Variables (dp1 dq1 dp2 dq2 : list E) (T : nat).
Hypothesis Hsrc1 : src1 + T <= length sb1.
Hypothesis Hag : forall i, i < T -> load sb1 (src1 + i) = load sb2 (src2 + i).

Lemma head_two db1 db2 c (s : cstate Ctx) F B c1 db1' s1 c2 db2' s2 :
  filled dp1 dq1 T F B db1 -> filled dp2 dq2 T F B db2 ->
  i_ptd c = length F -> length F + length B < T ->
  i_ptl c < T -> i_ptr c < T ->
  merge_head cmp sb1 src1 db1 (length dp1) c s = Some (c1, db1', s1) ->
  merge_head cmp sb2 src2 db2 (length dp2) c s = Some (c2, db2', s2) ->
  c1 = c2 /\ s1 = s2
  /\ exists v, filled dp1 dq1 T (F ++ [v]) B db1'
               /\ filled dp2 dq2 T (F ++ [v]) B db2'.
Proof.
  intros F1 F2 Hf Hlt Hl Hr H1 H2.
  destruct (merge_head_two cmp sb1 sb2 src1 src2 _ _ _ _ _ _ _ _ _ _ _ _
              (Hag _ Hl) (Hag _ Hr) H1 H2) as (-> & -> & v & St1 & St2).
  split; [reflexivity|]. split; [reflexivity|]. exists v.
  rewrite Hf in St1, St2. split.
  - exact (filled_front dp1 dq1 T F B db1 v db1' F1 Hlt St1).
  - exact (filled_front dp2 dq2 T F B db2 v db2' F2 Hlt St2).
Qed.

Lemma tail_two db1 db2 c (s : cstate Ctx) F B c1 db1' s1 c2 db2' s2 :
  filled dp1 dq1 T F B db1 -> filled dp2 dq2 T F B db2 ->
  i_tpd c + length B + 1 = T -> length F + length B < T ->
  i_tpl c < T -> i_tpr c < T ->
  merge_tail cmp sb1 src1 db1 (length dp1) c s = Some (c1, db1', s1) ->
  merge_tail cmp sb2 src2 db2 (length dp2) c s = Some (c2, db2', s2) ->
  c1 = c2 /\ s1 = s2
  /\ exists v, filled dp1 dq1 T F (v :: B) db1'
               /\ filled dp2 dq2 T F (v :: B) db2'.
Proof.
  intros F1 F2 Hb Hlt Hl Hr H1 H2.
  destruct (merge_tail_two cmp sb1 sb2 src1 src2 _ _ _ _ _ _ _ _ _ _ _ _
              (Hag _ Hl) (Hag _ Hr) H1 H2) as (-> & -> & v & St1 & St2).
  split; [reflexivity|]. split; [reflexivity|]. exists v. split.
  - exact (filled_back dp1 dq1 T F B db1 v db1' _ F1 Hlt Hb St1).
  - exact (filled_back dp2 dq2 T F B db2 v db2' _ F2 Hlt Hb St2).
Qed.

Lemma loop_two n : forall db1 db2 c (s : cstate Ctx) F B c1 db1' s1 c2 db2' s2,
  filled dp1 dq1 T F B db1 -> filled dp2 dq2 T F B db2 ->
  i_ptd c = length F -> i_tpd c + length B + 1 = T ->
  length F + length B + 2 * n <= T ->
  i_ptl c + n < T -> i_ptr c + n < T ->
  n <= i_tpl c < T -> n <= i_tpr c < T -> n <= i_tpd c ->
  merge_loop cmp sb1 src1 db1 (length dp1) n c s = Some (c1, db1', s1) ->
  merge_loop cmp sb2 src2 db2 (length dp2) n c s = Some (c2, db2', s2) ->
  c1 = c2 /\ s1 = s2
  /\ exists F' B',
      filled dp1 dq1 T F' B' db1' /\ filled dp2 dq2 T F' B' db2'
      /\ length F' = length F + n /\ length B' = length B + n
      /\ i_ptd c1 = length F' /\ i_tpd c1 + length B' + 1 = T
      /\ i_ptl c1 <= i_ptl c + n /\ i_ptr c1 <= i_ptr c + n
      /\ i_tpl c1 <= i_tpl c /\ i_tpr c1 <= i_tpr c.
Proof.
  induction n as [|n IH];
    intros db1 db2 c s F B c1 db1' s1 c2 db2' s2 F1 F2 Hf Hb Hn P1 P2 P3 P4 P5 H1 H2;
    cbn [merge_loop] in H1, H2.
  - apply some_inj in H1, H2. inversion H1; inversion H2; subst.
    split; [reflexivity|]. split; [reflexivity|].
    exists F, B. repeat split; try assumption; lia.
  - pose proof (filled_length dp1 dq1 T F B db1 F1) as Ldb.
    minv_as H1 r1 t1 Hh1. destruct r1 as [e1 g1].
    minv_as H2 r2 t2 Hh2. destruct r2 as [e2 g2].
    destruct (merge_head_safe cmp sb1 src1 (length dp1) T Hsrc1 db1 c s)
      as (e1' & g1' & t1' & Hh & Hl1 & Hn1 & Q); try lia.
    rewrite Hh in Hh1. apply some_inj in Hh1. inversion Hh1; subst e1' g1' t1'.
    clear Hh1.
    destruct (head_two db1 db2 c s F B e1 g1 t1 e2 g2 t2 F1 F2 Hf)
      as (<- & <- & v & G1 & G2); try assumption; try lia.
    minv_as H1 r1 u1 Ht1. destruct r1 as [e3 g3].
    minv_as H2 r2 u2 Ht2. destruct r2 as [e4 g4].
    pose proof (filled_length dp1 dq1 T _ _ g1 G1) as Lg1.
    destruct (merge_tail_safe cmp sb1 src1 (length dp1) T Hsrc1 g1 e1 t1)
      as (e3' & g3' & u1' & Ht & Hl2 & Hn2 & Q'); try lia.
    rewrite Ht in Ht1. apply some_inj in Ht1. inversion Ht1; subst e3' g3' u1'.
    clear Ht1.
    destruct (tail_two g1 g2 e1 t1 (F ++ [v]) B e3 g3 u1 e4 g4 u2 G1 G2)
      as (<- & <- & v' & G3 & G4); try assumption;
      try (rewrite ?length_app; cbn [length]; lia).
    destruct (IH g3 g4 e3 u1 (F ++ [v]) (v' :: B) c1 db1' s1 c2 db2' s2 G3 G4)
      as (-> & -> & F' & B' & R1 & R2 & R3 & R4 & R5 & R6 & R7 & R8 & R9 & R10);
      try assumption; try (rewrite ?length_app; cbn [length]; lia).
    split; [reflexivity|]. split; [reflexivity|].
    exists F', B'. rewrite length_app in R3. cbn [length] in R3, R4.
    repeat split; try assumption; lia.
Qed.
End MergeRuns.

(** Whatever the comparator answers, what a merge of runs of lengths
    [1 <= left <= right <= left + 1] writes, and the state it leaves the
    comparator in, depend on the two source runs alone: not on the cells
    around them, nor on what the destination held. *)
Lemma parity_merge_ctx_two {E Ctx} (cmp : cmp_ctx_fn_t E Ctx)
      (sp1 sq1 sp2 sq2 run dp1 old1 dq1 dp2 old2 dq2 : list E) left right
      (s : cstate Ctx) :
  1 <= left -> left <= right <= left + 1 ->
  length run = left + right ->
  length old1 = left + right -> length old2 = left + right ->
  exists out s',
    parity_merge_ctx cmp (sp1 ++ run ++ sq1) (length sp1) (dp1 ++ old1 ++ dq1)
                     (length dp1) left right s
    = Some (dp1 ++ out ++ dq1, s')
    /\ parity_merge_ctx cmp (sp2 ++ run ++ sq2) (length sp2) (dp2 ++ old2 ++ dq2)
                        (length dp2) left right s
       = Some (dp2 ++ out ++ dq2, s')
    /\ length out = left + right.
Proof.
  intros HL HLR Hrun Ho1 Ho2.
  set (sb1 := sp1 ++ run ++ sq1). set (sb2 := sp2 ++ run ++ sq2).
  set (db1 := dp1 ++ old1 ++ dq1). set (db2 := dp2 ++ old2 ++ dq2).
  assert (Hsrc1 : length sp1 + (left + right) <= length sb1)
    by (unfold sb1; rewrite !length_app; lia).
  assert (Hsrc2 : length sp2 + (left + right) <= length sb2)
    by (unfold sb2; rewrite !length_app; lia).
  assert (Hag : forall i, i < left + right ->
                          load sb1 (length sp1 + i) = load sb2 (length sp2 + i)).
  { intros i Hi. destruct (load_some run i ltac:(lia)) as [y Hy].
    unfold sb1, sb2.
    rewrite (load_frame sp1 run sq1 i y Hy), (load_frame sp2 run sq2 i y Hy).
    reflexivity. }
  assert (F1 : filled dp1 dq1 (left + right) [] [] db1).
  { exists old1. cbn [app length]. rewrite app_nil_r. split; [reflexivity|lia]. }
  assert (F2 : filled dp2 dq2 (left + right) [] [] db2).
  { exists old2. cbn [app length]. rewrite app_nil_r. split; [reflexivity|lia]. }
  destruct (parity_merge_ctx_safe cmp sb1 (length sp1) db1 (length dp1) left right s)
    as (r1 & s1 & H1 & _ & _); try lia.
  { unfold db1. rewrite !length_app. lia. }
  destruct (parity_merge_ctx_safe cmp sb2 (length sp2) db2 (length dp2) left right s)
    as (r2 & s2 & H2 & _ & _); try lia.
  { unfold db2. rewrite !length_app. lia. }
  assert (Hfin : s1 = s2 /\ exists F B,
             filled dp1 dq1 (left + right) F B r1
             /\ filled dp2 dq2 (left + right) F B r2
             /\ length F + length B = left + right).
  { pose proof H1 as K1. pose proof H2 as K2.
    unfold parity_merge_ctx in K1, K2.
    pose proof (filled_length dp1 dq1 (left + right) [] [] db1 F1) as Ldb1.
    destruct (left + right) as [|t] eqn:Et; [lia|]. cbn [dec] in K1, K2.
    minv_as K1 x1 t1 D1. apply some_inj in D1. inversion D1; subst x1 t1. clear D1.
    minv_as K2 x2 t2 D2. apply some_inj in D2. inversion D2; subst x2 t2. clear D2.
    set (c0 := Cursors 0 t 0 left 0 0) in K1, K2.
    minv_as K1 hr1 u1 Hh1. destruct hr1 as [c1 d1].
    minv_as K2 hr2 u2 Hh2. destruct hr2 as [c2 d2].
    assert (Hhead :
      c1 = c2 /\ u1 = u2
      /\ exists F, filled dp1 dq1 (S t) F [] d1 /\ filled dp2 dq2 (S t) F [] d2
                   /\ length F = (if left <? right then 1 else 0)
                   /\ i_ptd c1 = length F
                   /\ i_ptl c1 <= (if left <? right then 1 else 0)
                   /\ i_ptr c1 <= left + (if left <? right then 1 else 0)
                   /\ i_tpd c1 = t).
    { destruct (Nat.ltb_spec left right) as [Hlt|Hge].
      - destruct (merge_head_safe cmp sb1 (length sp1) (length dp1) (S t) Hsrc1
                    db1 c0 s)
          as (c1' & d1' & s1' & Hh & Hl & Hn & Q); cbn; try lia.
        rewrite Hh in Hh1. apply some_inj in Hh1.
        inversion Hh1; subst c1' d1' s1'. clear Hh1. cbn in Q.
        destruct (head_two cmp sb1 sb2 (length sp1) (length sp2) dp1 dq1 dp2 dq2
                    (S t) Hag db1 db2 c0 s [] [] c1 d1 u1 c2 d2 u2 F1 F2)
          as (<- & <- & v & G1 & G2); cbn; try assumption; try lia.
        split; [reflexivity|]. split; [reflexivity|].
        exists [v]. cbn [length]. repeat split; try assumption; try tauto; lia.
      - apply some_inj in Hh1, Hh2. inversion Hh1; inversion Hh2; subst.
        split; [reflexivity|]. split; [reflexivity|].
        exists []. cbn. repeat split; auto; lia. }
    destruct Hhead as (<- & <- & F & G1 & G2 & LF & P1 & P2 & P3 & P4).
    destruct left as [|l']; [lia|]. cbn [dec] in K1, K2.
    minv_as K1 x1 t1 D1. apply some_inj in D1. inversion D1; subst x1 t1. clear D1.
    minv_as K1 x1 t1 D1. apply some_inj in D1. inversion D1; subst x1 t1. clear D1.
    minv_as K2 x2 t2 D2. apply some_inj in D2. inversion D2; subst x2 t2. clear D2.
    minv_as K2 x2 t2 D2. apply some_inj in D2. inversion D2; subst x2 t2. clear D2.
    set (cc := Cursors _ _ _ _ _ _) in K1, K2.
    assert (Hb : (if S l' <? right then 1 else 0) <= 1)
      by (destruct (S l' <? right); lia).
    assert (Hb' : S l' + (if S l' <? right then 1 else 0) = right)
      by (destruct (Nat.ltb_spec (S l') right); lia).
    minv_as K1 lr1 v1 Hl1. destruct lr1 as [c3 d3].
    minv_as K2 lr2 v2 Hl2. destruct lr2 as [c4 d4].
    destruct (loop_two cmp sb1 sb2 (length sp1) (length sp2) dp1 dq1 dp2 dq2 (S t)
                Hsrc1 Hag l' d1 d2 cc u1 F [] c3 d3 v1 c4 d4 v2 G1 G2)
      as (<- & <- & F' & B' & G3 & G4 & LF' & LB' & Q1 & Q2 & Q3 & Q4 & Q5 & Q6);
      subst cc; cbn [i_ptl i_ptr i_ptd i_tpl i_tpr i_tpd length];
      try assumption; try lia.
    cbn [i_ptl i_ptr i_ptd i_tpl i_tpr i_tpd length] in *.
    minv_as K1 d5 w1 Hlt1. minv_as K2 d6 w2 Hlt2.
    assert (A1 : i_tpl c3 < S t) by lia.
    assert (A2 : i_tpr c3 < S t) by lia.
    assert (A3 : i_ptl c3 < S t) by lia.
    assert (A4 : i_ptr c3 < S t) by lia.
    destruct (merge_last_tail_two cmp sb1 sb2 (length sp1) (length sp2)
                _ _ _ _ _ _ _ _ _ _ (Hag _ A1) (Hag _ A2) Hlt1 Hlt2)
      as (<- & y & St1 & St2).
    assert (A5 : length F' + length B' < S t) by lia.
    assert (A6 : i_tpd c3 + length B' + 1 = S t) by lia.
    pose proof (filled_back dp1 dq1 (S t) F' B' d3 y d5 _ G3 A5 A6 St1) as G5.
    pose proof (filled_back dp2 dq2 (S t) F' B' d4 y d6 _ G4 A5 A6 St2) as G6.
    destruct (merge_last_head_two cmp sb1 sb2 (length sp1) (length sp2)
                _ _ _ _ _ _ _ _ _ _ (Hag _ A3) (Hag _ A4) K1 K2)
      as (<- & z & St3 & St4).
    rewrite Q1 in St3, St4.
    assert (A7 : length F' + length (y :: B') < S t) by (cbn [length]; lia).
    pose proof (filled_front dp1 dq1 (S t) F' (y :: B') d5 z r1 G5 A7 St3) as G7.
    pose proof (filled_front dp2 dq2 (S t) F' (y :: B') d6 z r2 G6 A7 St4) as G8.
    split; [reflexivity|].
    exists (F' ++ [z]), (y :: B'). split; [exact G7|]. split; [exact G8|].
    rewrite length_app. cbn [length]. lia. }
  destruct Hfin as (<- & F & B & (m1 & E1 & L1) & (m2 & E2 & L2) & LFB).
  assert (m1 = []) by (destruct m1; [reflexivity|cbn in L1; lia]).
  assert (m2 = []) by (destruct m2; [reflexivity|cbn in L2; lia]).
  subst m1 m2. cbn [app] in E1, E2. subst r1 r2.
  exists (F ++ B), s1. split; [exact H1|]. split; [exact H2|].
  rewrite length_app. lia.
Qed.

Section EngineIndep.
Context {E Ctx : Type}.
Variable cmp : cmp_ctx_fn_t E Ctx.

(** The merge-decision phase reads the auxiliary buffer only where it has
    written it: another buffer of the same length gives the same path, array
    and comparator state. *)
Lemma merge_phase_indep (d w v : list E) data elements seg (s : cstate Ctx)
      p d' w' s' :
  lh seg = q1 seg + q2 seg -> rh seg = q3 seg + q4 seg ->
  lh seg + rh seg = elements ->
  1 <= q1 seg /\ q1 seg <= q2 seg <= q1 seg + 1 ->
  1 <= q3 seg /\ q3 seg <= q4 seg <= q3 seg + 1 ->
  lh seg <= rh seg <= lh seg + 1 ->
  data + elements <= length d -> elements <= length w -> length v = length w ->
  merge_phase cmp d w data elements seg s = Some (p, d', w', s') ->
  exists v',
    merge_phase cmp d v data elements seg s = Some (p, d', v', s')
    /\ length v' = length v.
Proof.
  intros Hlh Hrh Hn Hq12 Hq34 Hlr Hd Hw Hv H.
  destruct (split_run d data elements Hd) as (pre & run & post & -> & Hpre & Hrun).
  destruct (split_at run (q1 seg)) as (A & r1 & -> & HA); [lia|].
  rewrite length_app in Hrun.
  destruct (split_at r1 (q2 seg)) as (B & r2 & -> & HB); [lia|].
  rewrite length_app in Hrun.
  destruct (split_at r2 (q3 seg)) as (C & D & -> & HC); [lia|].
  rewrite length_app in Hrun.
  unfold merge_phase in H |- *.
  minv_as H o t1 Ho. mrew Ho. destruct o.
  { apply some_inj in H. inversion H; subst. exists v. split; reflexivity. }
  minv_as H r t2 Hr. mrew Hr. destruct r.
  - minv H. destruct a as [d1 w1]. minv H. destruct a as [d2 w2].
    minv H. destruct a as [d3 w3]. apply some_inj in H. inversion H; subst d3 w3.
    apply lift_inv in Hm, Hm0, Hm1.
    destruct Hm as [R1 ->], Hm0 as [R2 ->], Hm1 as [R3 ->].
    subst data.
    replace (pre ++ (A ++ B ++ C ++ D) ++ post)
      with (pre ++ A ++ (B ++ C ++ D) ++ post) in R1 |- * by list_eq.
    rewrite (rotate_spec pre A (B ++ C ++ D) post w) in R1;
      [|lia|rewrite !length_app; lia|lia].
    apply some_inj in R1. inversion R1; subst d1 w1. clear R1.
    rewrite (rotate_spec pre A (B ++ C ++ D) post v);
      [|lia|rewrite !length_app; lia|lia].
    unfold lift at 1, bind at 1.
    replace (pre ++ (B ++ C ++ D) ++ A ++ post)
      with (pre ++ B ++ (C ++ D) ++ (A ++ post)) in R2 |- * by list_eq.
    rewrite (rotate_spec pre B (C ++ D) (A ++ post)) in R2;
      [|lia|rewrite !length_app; lia|rewrite length_app, length_skipn; lia].
    apply some_inj in R2. inversion R2; subst d2 w2. clear R2.
    rewrite (rotate_spec pre B (C ++ D) (A ++ post));
      [|lia|rewrite !length_app; lia|rewrite length_app, length_skipn; lia].
    unfold lift at 1, bind at 1.
    replace (pre ++ (C ++ D) ++ B ++ A ++ post)
      with (pre ++ C ++ D ++ (B ++ A ++ post)) in R3 |- * by list_eq.
    rewrite (rotate_spec pre C D (B ++ A ++ post)) in R3;
      [|lia|lia|rewrite !length_app, !length_skipn; lia].
    apply some_inj in R3. inversion R3; subst d'.
    rewrite (rotate_spec pre C D (B ++ A ++ post));
      [|lia|lia|rewrite !length_app, !length_skipn; lia].
    unfold lift at 1, bind at 1. unfold ret. subst p s'.
    eexists. split; [reflexivity|].
    repeat (rewrite length_app || rewrite length_skipn). lia.
  - minv_as H x1 u1 M1. minv_as H x2 u2 M2. minv_as H x3 u3 M3.
    apply some_inj in H. inversion H; subst p d' w' s'. clear H.
    subst data.
    destruct (split_at w (lh seg)) as (o1 & rw & Ew & Ho1); [lia|].
    assert (Lrw : length rw = length w - lh seg).
    { apply (f_equal (@length E)) in Ew. rewrite length_app in Ew. lia. }
    destruct (split_at rw (rh seg)) as (o2 & rest & -> & Ho2); [lia|].
    destruct (split_at v (lh seg)) as (o1' & rv & Ev & Ho1'); [lia|].
    assert (Lrv : length rv = length v - lh seg).
    { apply (f_equal (@length E)) in Ev. rewrite length_app in Ev. lia. }
    destruct (split_at rv (rh seg)) as (o2' & rest' & -> & Ho2'); [lia|].
    destruct (parity_merge_ctx_two cmp pre (C ++ D ++ post) pre (C ++ D ++ post)
                (A ++ B) [] o1 (o2 ++ rest) [] o1' (o2' ++ rest')
                (q1 seg) (q2 seg) t2)
      as (out1 & y1 & N1 & N1' & L1); try lia.
    { rewrite length_app. lia. }
    cbn [app length] in N1, N1'.
    replace (pre ++ (A ++ B) ++ C ++ D ++ post)
      with (pre ++ (A ++ B ++ C ++ D) ++ post) in N1, N1' by list_eq.
    rewrite <- Ew in N1. rewrite <- Ev in N1'.
    rewrite N1 in M1. apply some_inj in M1. inversion M1; subst x1 u1. clear M1.
    mrew N1'.
    destruct (parity_merge_ctx_two cmp (pre ++ A ++ B) post (pre ++ A ++ B) post
                (C ++ D) out1 o2 rest out1 o2' rest'
                (q3 seg) (q4 seg) y1)
      as (out2 & y2 & N2 & N2' & L2); try lia.
    { rewrite length_app. lia. }
    replace ((pre ++ A ++ B) ++ (C ++ D) ++ post)
      with (pre ++ (A ++ B ++ C ++ D) ++ post) in N2, N2' by list_eq.
    replace (length (pre ++ A ++ B)) with (length pre + lh seg) in N2, N2'
      by (rewrite !length_app; lia).
    replace (length out1) with (lh seg) in N2, N2' by lia.
    rewrite N2 in M2. apply some_inj in M2. inversion M2; subst x2 u2. clear M2.
    mrew N2'.
    destruct (parity_merge_ctx_two cmp [] rest [] rest'
                (out1 ++ out2) pre (A ++ B ++ C ++ D) post
                pre (A ++ B ++ C ++ D) post (lh seg) (rh seg) y2)
      as (out & y3 & N3 & N3' & L3); try lia.
    { rewrite length_app. lia. }
    { rewrite !length_app. lia. }
    { rewrite !length_app. lia. }
    cbn [app length] in N3, N3'.
    replace ((out1 ++ out2) ++ rest) with (out1 ++ out2 ++ rest) in N3 by list_eq.
    replace ((out1 ++ out2) ++ rest') with (out1 ++ out2 ++ rest') in N3' by list_eq.
    rewrite N3 in M3. apply some_inj in M3. inversion M3; subst x3 u3. clear M3.
    mrew N3'. unfold ret.
    eexists. split; [reflexivity|].
    rewrite Ev, !length_app. lia.
Qed.

(** A frame's effect on the array and on the comparator does not depend on
    what the auxiliary buffer holds, only on its length. *)
Lemma sorts_indep data elements (d w : list E) (s : cstate Ctx) d' w' s' k :
  sorts cmp data elements d w s d' w' s' k ->
  data + elements <= length d -> elements <= length w ->
  forall v, length v = length w ->
    exists v', sorts cmp data elements d v s d' v' s' k /\ length v' = length v.
Proof.
  induction 1 as [data elements d w s d' s' Hn Hsort
                 |data elements d0 w0 s0 d1 w1 s1 d2 w2 s2 d3 w3 s3 d4 w4 s4
                       k1 k2 k3 k4 p d' w' s' Hn S1 IH1 S2 IH2 S3 IH3 S4 IH4 Hphase];
    intros Hd Hw v Hv.
  - exists v. split; [|reflexivity]. now constructor.
  - pose proof (partition_array_sizes elements) as Hsz.
    pose proof (partition_array_large elements Hn) as Hlg.
    cbv zeta in Hsz, Hlg.
    set (seg := partition_array elements) in *.
    destruct Hsz as (Hlh & Hrh & Hnn & Hq12 & Hq34 & Hlr).
    destruct Hlg as (Hq1 & Hq3 & Hl4).
    destruct (sorts_lengths cmp _ _ _ _ _ _ _ _ _ S1) as [Ld1 Lw1]; try lia.
    destruct (sorts_lengths cmp _ _ _ _ _ _ _ _ _ S2) as [Ld2 Lw2]; try lia.
    destruct (sorts_lengths cmp _ _ _ _ _ _ _ _ _ S3) as [Ld3 Lw3]; try lia.
    destruct (sorts_lengths cmp _ _ _ _ _ _ _ _ _ S4) as [Ld4 Lw4]; try lia.
    destruct (IH1 ltac:(lia) ltac:(lia) v Hv) as (v1 & T1 & Lv1).
    destruct (IH2 ltac:(lia) ltac:(lia) v1 ltac:(lia)) as (v2 & T2 & Lv2).
    destruct (IH3 ltac:(lia) ltac:(lia) v2 ltac:(lia)) as (v3 & T3 & Lv3).
    destruct (IH4 ltac:(lia) ltac:(lia) v3 ltac:(lia)) as (v4 & T4 & Lv4).
    destruct (merge_phase_indep d4 w4 v4 data elements seg s4 p d' w' s')
      as (v' & Hp & Lv'); try assumption; try lia.
    exists v'. split; [|lia].
    exact (sorts_rec cmp data elements d0 v s0 d1 v1 s1 d2 v2 s2 d3 v3 s3 d4 v4 s4
             k1 k2 k3 k4 p d' v' s' Hn T1 T2 T3 T4 Hp).
Qed.
End EngineIndep.

(** * The claims *)

(** C1. For every buffer, every element count and every comparator that is a
    consistent weak ordering, [xsort] returns (after at most
    [2 * elements + 1] iterations of its loop, with no fault); on return the
    buffer holds a permutation of the original elements, and every adjacent
    pair of the output satisfies [cmp(out[i], out[i+1], arg) <= 0]. *)
Theorem xsort_sorts {E Ctx : Type} (cmp : cmp_ctx_fn_t E Ctx) (c0 : Ctx)
        (junk l : list E) (fuel : nat) :
  consistent cmp c0 -> length junk = length l -> 2 * length l + 1 <= fuel ->
  exists l' s',
    xsort cmp fuel junk l (length l) c0 = Done l' s'
    /\ Permutation l l'
    /\ forall i x y, nth_error l' i = Some x -> nth_error l' (S i) = Some y ->
                     (fst (cmp x y c0) <= 0)%Z.
Proof.
  intros Hc Hj Hf.
  destruct (xsort_sorted cmp c0 Hc junk l fuel Hj Hf) as (l' & s' & Hrun & P & S & T).
  exists l', s'. split; [assumption|]. split; [assumption|].
  intros i x y Hx Hy. apply (gtb_of_false cmp c0).
  exact (sorted_adjacent _ l' i x y S Hx Hy).
Qed.

Lemma xsort_sorts_witness :
  exists l' s',
    xsort counting_compare 21 (repeat 0%Z 10) [5; 3; 1; 4; 2; 9; 8; 7; 6; 0]%Z 10 0
    = Done l' s'
    /\ Permutation [5; 3; 1; 4; 2; 9; 8; 7; 6; 0]%Z l'
    /\ forall i x y, nth_error l' i = Some x -> nth_error l' (S i) = Some y ->
                     (fst (counting_compare x y 0%nat) <= 0)%Z.
Proof.
  apply (xsort_sorts counting_compare 0 (repeat 0%Z 10)
                     [5; 3; 1; 4; 2; 9; 8; 7; 6; 0]%Z 21
                     counting_compare_consistent);
    [reflexivity|cbn; lia].
Defined.

(** C2. For every input and every consistent comparator [xsort] is stable:
    the elements the comparator calls equal to any [e] stand in the output in
    the order they have in the input.  In particular the head front of the
    parity merger takes the left element on a tie ([cmp <= 0]): merging runs
    that start with [a] and [b], where [cmp(a, b) <= 0], writes [a] first. *)
Theorem xsort_stable {E Ctx : Type} (cmp : cmp_ctx_fn_t E Ctx) (c0 : Ctx)
        (junk l : list E) (fuel : nat)
        (sp sq dp dq l1 r1 old : list E) (a b : E) (k : nat) :
  consistent cmp c0 -> length junk = length l -> 2 * length l + 1 <= fuel ->
  length l1 <= length r1 <= length l1 + 1 ->
  length old = S (length l1) + S (length r1) ->
  (fst (cmp a b c0) <= 0)%Z ->
  (exists l' s',
      xsort cmp fuel junk l (length l) c0 = Done l' s'
      /\ forall e, filter (fun x => (fst (cmp e x c0) =? 0)%Z) l'
                   = filter (fun x => (fst (cmp e x c0) =? 0)%Z) l)
  /\ (exists rest s',
         parity_merge_ctx cmp (sp ++ ((a :: l1) ++ b :: r1) ++ sq) (length sp)
                          (dp ++ old ++ dq) (length dp)
                          (S (length l1)) (S (length r1)) (CState c0 k)
         = Some (dp ++ (a :: rest) ++ dq, s')).
Proof.
  intros Hc Hj Hf Hlr Hold Hab. split.
  - destruct (xsort_sorted cmp c0 Hc junk l fuel Hj Hf)
      as (l' & s' & Hrun & P & S & T).
    exists l', s'. split; [assumption|].
    intros e. specialize (T e).
    rewrite (filter_ext _ _ (eqvb_zero cmp c0 Hc e) l') in T.
    rewrite (filter_ext _ _ (eqvb_zero cmp c0 Hc e) l) in T.
    exact T.
  - exact (parity_merge_ctx_tie cmp c0 Hc sp sq dp dq l1 r1 old a b k Hlr Hold Hab).
Qed.

Lemma xsort_stable_witness :
  (exists l' s',
      xsort key_compare 19 (repeat (0, 0)%Z 9)
            [(1, 0); (1, 1); (0, 2); (1, 3); (0, 4); (2, 5); (0, 6); (1, 7); (2, 8)]%Z
            9 tt
      = Done l' s'
      /\ forall e, filter (fun x => (fst (key_compare e x tt) =? 0)%Z) l'
                   = filter (fun x => (fst (key_compare e x tt) =? 0)%Z)
                       [(1, 0); (1, 1); (0, 2); (1, 3); (0, 4); (2, 5); (0, 6);
                        (1, 7); (2, 8)]%Z)
  /\ (exists rest s',
         parity_merge_ctx key_compare
           ([] ++ (((1, 0) :: [(2, 1)]) ++ (1, 2) :: [(3, 3)])%Z ++ []) 0
           ([] ++ repeat (0, 0)%Z 4 ++ []) 0 2 2 (CState tt 0)
         = Some ([] ++ ((1, 0)%Z :: rest) ++ [], s')).
Proof.
  apply (xsort_stable key_compare tt (repeat (0, 0)%Z 9)
           [(1, 0); (1, 1); (0, 2); (1, 3); (0, 4); (2, 5); (0, 6); (1, 7); (2, 8)]%Z
           19 [] [] [] [] [(2, 1)]%Z [(3, 3)]%Z (repeat (0, 0)%Z 4)
           (1, 0)%Z (1, 2)%Z 0 key_compare_consistent);
    [reflexivity|cbn; lia|cbn; lia|reflexivity|cbn; lia].
Defined.

(** C3, as the code has it.  For every comparator, consistent or not, and
    whatever it does to its context, [xsort] returns with no access outside
    the array, the auxiliary buffer or the frame stack; the array keeps its
    length and each of its cells holds an element of the input (none is
    fabricated, none comes from the auxiliary buffer's former contents); with
    a consistent comparator the array holds a permutation of the input. *)
Theorem xsort_safe {E Ctx : Type} (cmp : cmp_ctx_fn_t E Ctx) (c : Ctx)
        (junk l : list E) (fuel : nat) :
  length junk = length l -> 2 * length l + 1 <= fuel ->
  exists l' s',
    xsort cmp fuel junk l (length l) c = Done l' s'
    /\ length l' = length l
    /\ incl l' l
    /\ (consistent cmp c -> Permutation l l').
Proof.
  intros Hj Hf.
  destruct (xsort_cover cmp junk l c Hj) as (l' & s' & Hrun & Ll & Hin).
  exists l', s'. split; [now apply Hrun|]. split; [assumption|].
  split; [assumption|].
  intros Hc.
  destruct (xsort_sorted cmp c Hc junk l fuel Hj Hf) as (l2 & s2 & Hrun2 & P & _).
  specialize (Hrun fuel Hf).
  rewrite Hrun in Hrun2. inversion Hrun2; subst. assumption.
Qed.

Lemma xsort_safe_witness :
  exists l' s',
    xsort cyclic_compare 17 (repeat 0%Z 8) [0; 1; 2; 3; 4; 5; 6; 7]%Z 8 tt
    = Done l' s'
    /\ length l' = 8
    /\ incl l' [0; 1; 2; 3; 4; 5; 6; 7]%Z
    /\ (consistent cyclic_compare tt -> Permutation [0; 1; 2; 3; 4; 5; 6; 7]%Z l').
Proof.
  apply (xsort_safe cyclic_compare tt (repeat 0%Z 8) [0; 1; 2; 3; 4; 5; 6; 7]%Z 17);
    [reflexivity|cbn; lia].
Defined.

(** C3, as stated, fails: with the comparator [cyclic_compare], which is not
    transitive, the call on [0 .. 7] returns an array from which 3 is gone
    and in which 0 stands twice. *)
Lemma xsort_cyclic_not_permutation :
  xsort cyclic_compare 17 (repeat 0%Z 8) [0; 1; 2; 3; 4; 5; 6; 7]%Z 8 tt
  = Done [0; 2; 0; 1; 4; 5; 6; 7]%Z (CState tt 23)
  /\ ~ Permutation [0; 1; 2; 3; 4; 5; 6; 7]%Z [0; 2; 0; 1; 4; 5; 6; 7]%Z.
Proof.
  split; [vm_compute; reflexivity|].
  intros H. apply (Permutation_in 3%Z) in H; [|cbn; tauto].
  cbn in H. repeat destruct H as [H|H]; try discriminate H. exact H.
Qed.

(** C4, as the code has it.  For every run length [n] the descriptor has
    [lh = q1 + q2], [rh = q3 + q4] and [lh + rh = n]; the halves, and the
    quarters of each half, differ by at most one element, and when a length
    is odd the extra element goes to the SECOND half (the second quarter):
    [lh = n / 2], [rh = lh + n mod 2], [q2 = q1 + lh mod 2],
    [q4 = q3 + rh mod 2]. *)
Theorem partition_array_balanced (n : nat) :
  let seg := partition_array n in
  lh seg = q1 seg + q2 seg /\ rh seg = q3 seg + q4 seg /\ lh seg + rh seg = n
  /\ lh seg = n / 2 /\ rh seg = lh seg + n mod 2
  /\ q1 seg = lh seg / 2 /\ q2 seg = q1 seg + lh seg mod 2
  /\ q3 seg = rh seg / 2 /\ q4 seg = q3 seg + rh seg mod 2.
Proof.
  cbv [partition_array lh q1 q2 rh q3 q4].
  repeat split.
  all: pose proof (Nat.div_mod_eq n 2); pose proof (Nat.mod_upper_bound n 2);
    pose proof (Nat.div_mod_eq (n / 2) 2);
    pose proof (Nat.mod_upper_bound (n / 2) 2);
    pose proof (Nat.div_mod_eq (n - n / 2) 2);
    pose proof (Nat.mod_upper_bound (n - n / 2) 2); lia.
Qed.

(** C4, as stated, fails: of 9 elements the first half takes 4 and the second
    5, and of the 5 the first quarter takes 2 and the second 3. *)
Lemma partition_array_nine :
  partition_array 9 = Segment 4 2 2 5 2 3
  /\ lh (partition_array 9) < rh (partition_array 9)
  /\ q3 (partition_array 9) < q4 (partition_array 9).
Proof. cbn. repeat split; lia. Qed.

(** C5, as the code has it.  For runs of lengths [1 <= left <= right] that
    lie inside the two buffers, one call of the parity merger returns and
    invokes the comparator exactly [2 * left] times, and once more when
    [left < right]; for the runs the engine merges ([right <= left + 1])
    that is [left + right] times. *)
Theorem parity_merge_ctx_cost {E Ctx : Type} (cmp : cmp_ctx_fn_t E Ctx)
        (sb : list E) (src : nat) (db : list E) (dst left right : nat)
        (s : cstate Ctx) :
  1 <= left <= right ->
  src + (left + right) <= length sb ->
  dst + (left + right) <= length db ->
  exists db' s',
    parity_merge_ctx cmp sb src db dst left right s = Some (db', s')
    /\ ncmp s' = ncmp s + 2 * left + (if left <? right then 1 else 0)
    /\ (right <= left + 1 -> ncmp s' = ncmp s + (left + right)).
Proof.
  intros HLR Hs Hd.
  destruct (parity_merge_ctx_safe cmp sb src db dst left right s HLR Hs Hd)
    as (db' & s' & H & _ & Hn).
  exists db', s'. split; [assumption|]. split; [assumption|].
  intros Hr. rewrite Hn.
  destruct (Nat.ltb_spec left right); lia.
Qed.

Lemma parity_merge_ctx_cost_witness :
  exists db' s',
    parity_merge_ctx z_compare [1; 4; 6; 2; 3; 5; 7]%Z 0 (repeat 0%Z 7) 0 3 4
                     (CState tt 0) = Some (db', s')
    /\ ncmp s' = 0 + 2 * 3 + (if 3 <? 4 then 1 else 0)
    /\ (4 <= 3 + 1 -> ncmp s' = 0 + (3 + 4)).
Proof.
  apply (parity_merge_ctx_cost z_compare [1; 4; 6; 2; 3; 5; 7]%Z 0
                               (repeat 0%Z 7) 0 3 4 (CState tt 0));
    cbn; lia.
Defined.

(** C5, as stated, fails: merging two runs of one element takes two calls of
    the comparator, not [1 + 1 - 1], and merging runs of 2 and 3 elements
    takes five, not four. *)
Lemma parity_merge_ctx_two_calls :
  parity_merge_ctx z_compare [1; 2]%Z 0 [0; 0]%Z 0 1 1 (CState tt 0)
  = Some ([1; 2]%Z, CState tt 2)
  /\ parity_merge_ctx z_compare [1; 4; 2; 3; 5]%Z 0 (repeat 0%Z 5) 0 2 3 (CState tt 0)
     = Some ([1; 2; 3; 4; 5]%Z, CState tt 5)
  /\ 2 <> 1 + 1 - 1 /\ 5 <> 2 + 3 - 1.
Proof. repeat split; try (vm_compute; reflexivity); cbn; lia. Qed.

(** C6, as the code has it.  On a run of three elements the base-case sorter
    compare-exchanges the first pair, then ALWAYS the second pair; if the
    second pair was left in place it returns, after two calls of the
    comparator, and if it was exchanged the first pair is compare-exchanged
    once more, three calls in all. *)
Theorem oddeven_sort_ctx_three {E Ctx : Type} (cmp : cmp_ctx_fn_t E Ctx)
        (b : list E) (seg : nat) (s : cstate Ctx) :
  seg + 3 <= length b ->
  exists r1 b1 s1 r2 b2 s2,
    xchg_ctx cmp b seg s = Some (r1, b1, s1)
    /\ xchg_ctx cmp b1 (seg + 1) s1 = Some (r2, b2, s2)
    /\ if r2
       then exists r3 b3 s3,
           xchg_ctx cmp b2 seg s2 = Some (r3, b3, s3)
           /\ oddeven_sort_ctx cmp b seg 3 s = Some (b3, s3)
           /\ ncmp s3 = ncmp s + 3
       else oddeven_sort_ctx cmp b seg 3 s = Some (b2, s2)
            /\ ncmp s2 = ncmp s + 2.
Proof.
  intros Hb.
  destruct (xchg_ctx_safe cmp b seg s) as (r1 & b1 & s1 & H1 & L1); [lia|].
  destruct (xchg_ctx_safe cmp b1 (seg + 1) s1) as (r2 & b2 & s2 & H2 & L2); [lia|].
  exists r1, b1, s1, r2, b2, s2. split; [assumption|]. split; [assumption|].
  destruct (xchg_ctx_inv cmp _ _ _ _ _ _ H1) as (? & ? & ? & ? & _ & _ & _ & _ & N1).
  destruct (xchg_ctx_inv cmp _ _ _ _ _ _ H2) as (? & ? & ? & ? & _ & _ & _ & _ & N2).
  assert (K1 : ncmp s1 = S (ncmp s)) by (rewrite N1; reflexivity).
  assert (K2 : ncmp s2 = S (ncmp s1)) by (rewrite N2; reflexivity).
  unfold oddeven_sort_ctx. mrew H1. mrew H2.
  destruct r2; cbn [negb].
  - destruct (xchg_ctx_safe cmp b2 seg s2) as (r3 & b3 & s3 & H3 & L3); [lia|].
    destruct (xchg_ctx_inv cmp _ _ _ _ _ _ H3)
      as (? & ? & ? & ? & _ & _ & _ & _ & N3).
    exists r3, b3, s3. split; [assumption|]. mrew H3.
    split; [reflexivity|]. rewrite N3. cbn [ncmp]. lia.
  - split; [reflexivity|]. lia.
Qed.

Lemma oddeven_sort_ctx_three_witness :
  exists r1 b1 s1 r2 b2 s2,
    xchg_ctx z_compare [2; 3; 1]%Z 0 (CState tt 0) = Some (r1, b1, s1)
    /\ xchg_ctx z_compare b1 (0 + 1) s1 = Some (r2, b2, s2)
    /\ if r2
       then exists r3 b3 s3,
           xchg_ctx z_compare b2 0 s2 = Some (r3, b3, s3)
           /\ oddeven_sort_ctx z_compare [2; 3; 1]%Z 0 3 (CState tt 0) = Some (b3, s3)
           /\ ncmp s3 = 0 + 3
       else oddeven_sort_ctx z_compare [2; 3; 1]%Z 0 3 (CState tt 0) = Some (b2, s2)
            /\ ncmp s2 = 0 + 2.
Proof.
  apply (oddeven_sort_ctx_three z_compare [2; 3; 1]%Z 0 (CState tt 0)).
  cbn; lia.
Defined.

(** C6, as stated, fails: on the ordered run [1; 2; 3], whose first pair is
    in order, the comparator is called twice, not once; on [3; 2; 1] it is
    called three times, not twice. *)
Lemma oddeven_sort_ctx_three_calls :
  oddeven_sort_ctx z_compare [1; 2; 3]%Z 0 3 (CState tt 0)
  = Some ([1; 2; 3]%Z, CState tt 2)
  /\ oddeven_sort_ctx z_compare [3; 2; 1]%Z 0 3 (CState tt 0)
     = Some ([1; 2; 3]%Z, CState tt 3).
Proof. split; vm_compute; reflexivity. Qed.

(** C7.  For every run that is already sorted under a consistent comparator
    (every adjacent pair has [cmp <= 0]) [xsort] returns the identical
    sequence; and when the run has at least 8 elements the engine brings the
    top-level frame to its merge-decision phase with the array as it was,
    the three boundary tests of the already-ordered path all pass, and the
    phase ends on that path after these three comparator calls, with no
    merge and the array and the auxiliary buffer unchanged. *)
Theorem xsort_sorted_input {E Ctx : Type} (cmp : cmp_ctx_fn_t E Ctx) (c0 : Ctx)
        (junk l : list E) (fuel : nat) :
  consistent cmp c0 -> length junk = length l -> 2 * length l + 1 <= fuel ->
  (forall i x y, nth_error l i = Some x -> nth_error l (S i) = Some y ->
                 (fst (cmp x y c0) <= 0)%Z) ->
  (exists s', xsort cmp fuel junk l (length l) c0 = Done l s')
  /\ (8 <= length l ->
      exists k cap w s s',
        steps cmp k (xsort_init junk l (length l)) (CState c0 0)
        = Some (Config [Frame 0 (length l) (partition_array (length l)) ret_addr_4]
                       cap l w, s)
        /\ already_ordered cmp l 0 (partition_array (length l)) s = Some (true, s')
        /\ merge_phase cmp l w 0 (length l) (partition_array (length l)) s
           = Some (Ordered, l, w, s')
        /\ ncmp s' = ncmp s + 3).
Proof.
  intros Hc Hj Hf Hadj.
  pose proof (consistent_weak_order cmp c0 Hc) as WO.
  assert (Hs : sorted (gtb_of cmp c0) l).
  { apply (adjacent_sorted _ WO). intros i x y Hx Hy.
    apply (gtb_of_false cmp c0). exact (Hadj i x y Hx Hy). }
  split.
  - destruct (xsort_sorted cmp c0 Hc junk l fuel Hj Hf)
      as (l' & s' & Hrun & P & S & T).
    exists s'. rewrite Hrun. f_equal.
    exact (sorted_fixed _ WO l l' Hs P S T).
  - intros H8.
    destruct (xsort_phase cmp c0 Hc junk l Hj H8)
      as (A & B & C & D & A' & B' & C' & D' & k & cap & w & s & w' & s' & El
          & (NA & NB & NC & ND) & SA & SB & SC & SD & Hsteps & Hph & Hcnt).
    rewrite El in Hs.
    apply (sorted_app (gtb_of cmp c0)) in Hs. destruct Hs as (HA & Hs & HAx).
    apply (sorted_app (gtb_of cmp c0)) in Hs. destruct Hs as (HB & Hs & HBx).
    apply (sorted_app (gtb_of cmp c0)) in Hs. destruct Hs as (HC & HD & HCx).
    destruct SA as (PA & SA & TA), SB as (PB & SB & TB),
             SC as (PC & SC & TC), SD as (PD & SD & TD).
    pose proof (sorted_fixed _ WO A A' HA PA SA TA) as EA.
    pose proof (sorted_fixed _ WO B B' HB PB SB TB) as EB.
    pose proof (sorted_fixed _ WO C C' HC PC SC TC) as EC.
    pose proof (sorted_fixed _ WO D D' HD PD SD TD) as ED.
    subst A' B' C' D'. rewrite <- El in Hsteps, Hph.
    rewrite (phase_spec_ordered (gtb_of cmp c0) A B C D NA NB NC ND) in Hph, Hcnt.
    2,3: apply (sorted_app (gtb_of cmp c0)); (split; [assumption|]);
      (split; [|assumption]);
      apply (sorted_app (gtb_of cmp c0)); (split; [assumption|]);
      (split; [|assumption]);
      apply (sorted_app (gtb_of cmp c0)); auto.
    cbn [fst snd] in Hph, Hcnt. rewrite <- El in Hph.
    destruct (merge_phase_ordered_inv cmp _ _ _ _ _ _ _ _ _ Hph) as (Hord & _ & Ew).
    subst w'.
    exists k, cap, w, s, s'.
    split; [exact Hsteps|]. split; [exact Hord|]. split; [exact Hph|exact Hcnt].
Qed.

Lemma xsort_sorted_input_witness :
  (exists s',
      xsort z_compare 19 (repeat 0%Z 9) [1; 2; 3; 4; 5; 6; 7; 8; 9]%Z 9 tt
      = Done [1; 2; 3; 4; 5; 6; 7; 8; 9]%Z s')
  /\ (8 <= 9 ->
      exists k cap w s s',
        steps z_compare k (xsort_init (repeat 0%Z 9) [1; 2; 3; 4; 5; 6; 7; 8; 9]%Z 9)
              (CState tt 0)
        = Some (Config [Frame 0 9 (partition_array 9) ret_addr_4]
                       cap [1; 2; 3; 4; 5; 6; 7; 8; 9]%Z w, s)
        /\ already_ordered z_compare [1; 2; 3; 4; 5; 6; 7; 8; 9]%Z 0
                           (partition_array 9) s = Some (true, s')
        /\ merge_phase z_compare [1; 2; 3; 4; 5; 6; 7; 8; 9]%Z w 0 9
                       (partition_array 9) s
           = Some (Ordered, [1; 2; 3; 4; 5; 6; 7; 8; 9]%Z, w, s')
        /\ ncmp s' = ncmp s + 3).
Proof.
  apply (xsort_sorted_input z_compare tt (repeat 0%Z 9)
           [1; 2; 3; 4; 5; 6; 7; 8; 9]%Z 19 z_compare_consistent);
    [reflexivity|cbn; lia|].
  intros i x y Hx Hy.
  do 9 (destruct i as [|i]; [cbn in Hx, Hy; inversion Hx; inversion Hy;
                             subst; cbn; lia|]).
  destruct i; discriminate Hy.
Defined.

(** C8, as the code has it.  For every strictly descending run of at least 8
    elements (so for every length [4 * k] with [2 <= k]) under a consistent
    comparator, the engine brings the top-level frame to its merge-decision
    phase; there the first test of the already-ordered path fails, the three
    tests of the fully-reversed path pass, and three calls of [rotate] leave
    the run reversed, which is sorted: the phase ends on the rotation path
    after exactly FOUR comparator calls, none of them in a merge. *)
Theorem xsort_descending_input {E Ctx : Type} (cmp : cmp_ctx_fn_t E Ctx)
        (c0 : Ctx) (junk l : list E) :
  consistent cmp c0 -> length junk = length l -> 8 <= length l ->
  (forall i x y, nth_error l i = Some x -> nth_error l (S i) = Some y ->
                 (0 < fst (cmp x y c0))%Z) ->
  let seg := partition_array (length l) in
  exists k cap d w s s1 s' d1 w1 d2 w2 w',
    steps cmp k (xsort_init junk l (length l)) (CState c0 0)
    = Some (Config [Frame 0 (length l) seg ret_addr_4] cap d w, s)
    /\ already_ordered cmp d 0 seg s = Some (false, s1)
    /\ fully_reversed cmp d 0 (length l) seg s1 = Some (true, s')
    /\ rotate d 0 w (q1 seg) (q2 seg + rh seg) = Some (d1, w1)
    /\ rotate d1 0 w1 (q2 seg) (rh seg) = Some (d2, w2)
    /\ rotate d2 0 w2 (q3 seg) (q4 seg) = Some (rev l, w')
    /\ merge_phase cmp d w 0 (length l) seg s = Some (Rotated, rev l, w', s')
    /\ ncmp s' = ncmp s + 4.
Proof.
  intros Hc Hj H8 Hadj seg.
  pose proof (consistent_weak_order cmp c0 Hc) as WO.
  assert (Hd : descending (gtb_of cmp c0) l).
  { apply (adjacent_descending _ WO). intros i x y Hx Hy.
    apply (gtb_of_true cmp c0). exact (Hadj i x y Hx Hy). }
  destruct (xsort_phase cmp c0 Hc junk l Hj H8)
    as (A & B & C & D & A' & B' & C' & D' & k & cap & w & s & w' & s' & El
        & (NA & NB & NC & ND) & SA & SB & SC & SD & Hsteps & Hph & Hcnt).
  fold seg in Hsteps, Hph.
  rewrite El in Hd.
  apply (descending_app (gtb_of cmp c0)) in Hd. destruct Hd as (HA & Hd & HAx).
  apply (descending_app (gtb_of cmp c0)) in Hd. destruct Hd as (HB & Hd & HBx).
  apply (descending_app (gtb_of cmp c0)) in Hd. destruct Hd as (HC & HD & HCx).
  destruct SA as (PA & SA & TA), SB as (PB & SB & TB),
           SC as (PC & SC & TC), SD as (PD & SD & TD).
  pose proof (descending_reversed _ WO A A' HA PA SA TA) as EA.
  pose proof (descending_reversed _ WO B B' HB PB SB TB) as EB.
  pose proof (descending_reversed _ WO C C' HC PC SC TC) as EC.
  pose proof (descending_reversed _ WO D D' HD PD SD TD) as ED.
  assert (Hspec : phase_spec (gtb_of cmp c0) A' B' C' D'
                  = (Rotated, D' ++ C' ++ B' ++ A', 4)).
  { apply (phase_spec_rotated (gtb_of cmp c0) A' B' C' D' NA NB NC ND).
    - subst A' B'. apply all_gt_rev. intros x y Hx Hy.
      apply HAx; [assumption|]. apply in_or_app. now left.
    - subst B' C'. apply all_gt_rev. intros x y Hx Hy.
      apply HBx; [assumption|]. apply in_or_app. now left.
    - subst C' D'. apply all_gt_rev. exact HCx. }
  rewrite Hspec in Hph, Hcnt. cbn [fst snd] in Hph, Hcnt.
  replace (D' ++ C' ++ B' ++ A') with (rev l) in Hph.
  2:{ rewrite El, EA, EB, EC, ED, !rev_app_distr, <- !app_assoc. reflexivity. }
  destruct (merge_phase_rotated_inv cmp _ _ _ _ _ _ _ _ _ Hph)
    as (s1 & d1 & w1 & d2 & w2 & Hord & Hrev & R1 & R2 & R3).
  exists k, cap, (A' ++ B' ++ C' ++ D'), w, s, s1, s', d1, w1, d2, w2, w'.
  repeat (split; [eassumption|]). exact Hcnt.
Qed.

Lemma xsort_descending_input_witness :
  let l := [12; 11; 10; 9; 8; 7; 6; 5; 4; 3; 2; 1]%Z in
  let seg := partition_array (length l) in
  exists k cap d w s s1 s' d1 w1 d2 w2 w',
    steps z_compare k (xsort_init (repeat 0%Z 12) l (length l)) (CState tt 0)
    = Some (Config [Frame 0 (length l) seg ret_addr_4] cap d w, s)
    /\ already_ordered z_compare d 0 seg s = Some (false, s1)
    /\ fully_reversed z_compare d 0 (length l) seg s1 = Some (true, s')
    /\ rotate d 0 w (q1 seg) (q2 seg + rh seg) = Some (d1, w1)
    /\ rotate d1 0 w1 (q2 seg) (rh seg) = Some (d2, w2)
    /\ rotate d2 0 w2 (q3 seg) (q4 seg) = Some (rev l, w')
    /\ merge_phase z_compare d w 0 (length l) seg s = Some (Rotated, rev l, w', s')
    /\ ncmp s' = ncmp s + 4.
Proof.
  apply (xsort_descending_input z_compare tt (repeat 0%Z 12)
           [12; 11; 10; 9; 8; 7; 6; 5; 4; 3; 2; 1]%Z z_compare_consistent);
    [reflexivity|cbn; lia|].
  intros i x y Hx Hy.
  do 12 (destruct i as [|i]; [cbn in Hx, Hy; inversion Hx; inversion Hy;
                              subst; cbn; lia|]).
  destruct i; discriminate Hy.
Defined.

(** C8, as stated, fails: on the descending run [8 .. 1], of 4 * 2 elements,
    the top-level frame reaches its merge-decision phase after 4 comparator
    calls and leaves it, on the rotation path, after 8: the phase calls the
    comparator four times, not zero times.  And a descending run of 4 * 1
    elements has no merge-decision phase: one iteration, in the base-case
    sorter, empties the stack. *)
Lemma xsort_descending_four_calls :
  steps z_compare 8 (xsort_init (repeat 0%Z 8) [8; 7; 6; 5; 4; 3; 2; 1]%Z 8)
        (CState tt 0)
  = Some (Config [Frame 0 8 (partition_array 8) ret_addr_4] 128
                 [7; 8; 5; 6; 3; 4; 1; 2]%Z (repeat 0%Z 8), CState tt 4)
  /\ merge_phase z_compare [7; 8; 5; 6; 3; 4; 1; 2]%Z (repeat 0%Z 8) 0 8
                 (partition_array 8) (CState tt 4)
     = Some (Rotated, [1; 2; 3; 4; 5; 6; 7; 8]%Z,
             [3; 4; 0; 0; 0; 0; 0; 0]%Z, CState tt 8)
  /\ 8 <> 4 + 0
  /\ steps z_compare 1 (xsort_init (repeat 0%Z 4) [4; 3; 2; 1]%Z 4) (CState tt 0)
     = Some (Config [] 128 [1; 2; 3; 4]%Z (repeat 0%Z 4), CState tt 6).
Proof.
  split; [vm_compute; reflexivity|]. split; [vm_compute; reflexivity|].
  split; [lia|vm_compute; reflexivity].
Qed.

(** C9.  A call with [elements] 0 or 1 returns on the first iteration of the
    loop with the buffer as it was and the comparator never invoked (its
    counter is 0 and its context is the caller's); the base-case sorter, to
    which such a call is routed, returns the buffer and the state it got. *)
Theorem xsort_noop {E Ctx : Type} (cmp : cmp_ctx_fn_t E Ctx) (fuel : nat)
        (junk ptr : list E) (arg : Ctx) (b : list E) (seg : nat)
        (s : cstate Ctx) :
  xsort cmp (S fuel) junk ptr 0 arg = Done ptr (CState arg 0)
  /\ xsort cmp (S fuel) junk ptr 1 arg = Done ptr (CState arg 0)
  /\ oddeven_sort_ctx cmp b seg 0 s = Some (b, s)
  /\ oddeven_sort_ctx cmp b seg 1 s = Some (b, s).
Proof.
  split; [destruct fuel; reflexivity|].
  split; [destruct fuel; reflexivity|]. split; reflexivity.
Qed.

(** C10.  In every configuration the engine reaches from a call of [xsort],
    a frame that is not at [ret_addr_0] holds a run of at least 8 elements
    and the descriptor [partition_array] computes for it, so that
    [2 <= q1 <= q2], [2 <= q3 <= q4] and [4 <= lh <= rh]; the three pairs
    [(q1, q2)], [(q3, q4)], [(lh, rh)] are the lengths the merge-decision
    phase passes to [parity_merge_ctx], each has [1 <= left <= right], and
    with such lengths the merger, given buffers of exactly [left + right]
    cells, makes no access outside them (it returns, and the destination
    keeps its length). *)
Theorem partitioned_frames {E Ctx : Type} (cmp : cmp_ctx_fn_t E Ctx)
        (junk ptr : list E) (n : nat) (arg : Ctx) (k : nat)
        (c : config (E := E)) (s : cstate Ctx) (f : stack_frame_t) :
  steps cmp k (xsort_init junk ptr n) (CState arg 0) = Some (c, s) ->
  In f (stk c) -> fr_ret_addr f <> ret_addr_0 ->
  let seg := fr_segment f in
  8 <= fr_elements f
  /\ seg = partition_array (fr_elements f)
  /\ 2 <= q1 seg <= q2 seg /\ 2 <= q3 seg <= q4 seg /\ 4 <= lh seg <= rh seg
  /\ forall left right,
      In (left, right) [(q1 seg, q2 seg); (q3 seg, q4 seg); (lh seg, rh seg)] ->
      1 <= left <= right
      /\ forall (sb db : list E) (s0 : cstate Ctx),
          length sb = left + right -> length db = left + right ->
          exists db' s1,
            parity_merge_ctx cmp sb 0 db 0 left right s0 = Some (db', s1)
            /\ length db' = left + right.
Proof.
  intros Hsteps Hin Hlbl seg.
  pose proof (steps_frame_ok cmp k _ _ _ _ (xsort_init_frame_ok junk ptr n) Hsteps)
    as Hall.
  rewrite Forall_forall in Hall. destruct (Hall f Hin) as [H0|[H8 Hseg]];
    [contradiction|].
  pose proof (partition_array_sizes (fr_elements f)) as Hsz.
  pose proof (partition_array_large (fr_elements f) H8) as Hlg.
  cbv zeta in Hsz, Hlg. fold seg in Hseg. rewrite <- Hseg in Hsz, Hlg.
  destruct Hsz as (Hlh & Hrh & Hnn & Hq12 & Hq34 & Hlr).
  destruct Hlg as (Hq1 & Hq3 & Hl4).
  split; [assumption|]. split; [assumption|].
  split; [lia|]. split; [lia|]. split; [lia|].
  intros left right Hpair.
  assert (HLR : 1 <= left <= right).
  { cbn [In] in Hpair.
    destruct Hpair as [Hp|[Hp|[Hp|[]]]]; inversion Hp; subst; lia. }
  split; [assumption|].
  intros sb db s0 Lsb Ldb.
  destruct (parity_merge_ctx_safe cmp sb 0 db 0 left right s0 HLR)
    as (db' & s1 & H & L & _); [lia|lia|].
  exists db', s1. split; [assumption|]. rewrite L. assumption.
Qed.

Lemma partitioned_frames_witness :
  let f := Frame 0 9 (partition_array 9) ret_addr_2 in
  let seg := fr_segment f in
  8 <= fr_elements f
  /\ seg = partition_array (fr_elements f)
  /\ 2 <= q1 seg <= q2 seg /\ 2 <= q3 seg <= q4 seg /\ 4 <= lh seg <= rh seg
  /\ forall left right,
      In (left, right) [(q1 seg, q2 seg); (q3 seg, q4 seg); (lh seg, rh seg)] ->
      1 <= left <= right
      /\ forall (sb db : list Z) (s0 : cstate unit),
          length sb = left + right -> length db = left + right ->
          exists db' s1,
            parity_merge_ctx z_compare sb 0 db 0 left right s0 = Some (db', s1)
            /\ length db' = left + right.
Proof.
  apply (partitioned_frames z_compare (repeat 0%Z 9)
           [9; 8; 7; 6; 5; 4; 3; 2; 1]%Z 9 tt 3
           (Config [Frame 2 2 (partition_array 9) ret_addr_0;
                    Frame 0 9 (partition_array 9) ret_addr_2] 128
                   [8; 9; 7; 6; 5; 4; 3; 2; 1]%Z (repeat 0%Z 9))
           (CState tt 1)
           (Frame 0 9 (partition_array 9) ret_addr_2)).
  - vm_compute. reflexivity.
  - cbn. right. left. reflexivity.
  - cbn. discriminate.
Defined.

(** * Further properties of the code *)

(** X1.  [rotate] on a block [A] followed by a block [B] leaves [B] followed
    by [A] in their place, a copy of [A] at the start of the auxiliary
    buffer, and every other cell of both buffers as it was. *)
Theorem rotate_moves {E : Type} (pre A B post wb : list E) :
  length A <= length wb ->
  rotate (pre ++ A ++ B ++ post) (length pre) wb (length A) (length B)
  = Some (pre ++ B ++ A ++ post, A ++ skipn (length A) wb).
Proof. intros H. now apply rotate_spec. Qed.

Lemma rotate_moves_witness :
  rotate ([9] ++ [1; 2] ++ [3; 4; 5] ++ [8])%Z (length [9%Z]) [0; 0; 0; 0; 0]%Z
         (length [1; 2]%Z) (length [3; 4; 5]%Z)
  = Some (([9] ++ [3; 4; 5] ++ [1; 2] ++ [8])%Z,
          ([1; 2] ++ skipn (length [1; 2]%Z) [0; 0; 0; 0; 0])%Z).
Proof.
  apply (rotate_moves [9]%Z [1; 2]%Z [3; 4; 5]%Z [8]%Z [0; 0; 0; 0; 0]%Z).
  cbn; lia.
Defined.

(** X2.  Rotating [left] cells behind [right] cells and then [right] cells
    behind [left] cells restores the array, when the auxiliary buffer has
    room for either block. *)
Theorem rotate_round_trip {E : Type} (ab : list E) (array : nat) (wb : list E)
        (left right : nat) :
  array + (left + right) <= length ab ->
  left <= length wb -> right <= length wb ->
  exists ab1 wb1 wb2,
    rotate ab array wb left right = Some (ab1, wb1)
    /\ rotate ab1 array wb1 right left = Some (ab, wb2).
Proof.
  intros Ha Hl Hr.
  destruct (split_run ab array (left + right) Ha)
    as (pre & run & post & -> & Hp & Hrun).
  destruct (split_at run left) as (A & B & -> & HA); [lia|].
  rewrite length_app in Hrun. subst array.
  replace (pre ++ (A ++ B) ++ post) with (pre ++ A ++ B ++ post) by list_eq.
  rewrite (rotate_spec pre A B post wb left right) by lia.
  do 3 eexists. split; [reflexivity|].
  rewrite (rotate_spec pre B A post _ right left); [reflexivity|lia|lia|].
  rewrite length_app, length_skipn. lia.
Qed.

Lemma rotate_round_trip_witness :
  exists ab1 wb1 wb2,
    rotate [9; 1; 2; 3; 4; 5; 8]%Z 1 [0; 0; 0]%Z 2 3 = Some (ab1, wb1)
    /\ rotate ab1 1 wb1 3 2 = Some ([9; 1; 2; 3; 4; 5; 8]%Z, wb2).
Proof.
  apply (rotate_round_trip [9; 1; 2; 3; 4; 5; 8]%Z 1 [0; 0; 0]%Z 2 3); cbn; lia.
Defined.

(** X3.  Whatever the comparator answers, the base-case sorter, on a run of
    any length inside a buffer, returns; it leaves a permutation of the run
    in the run's place and every other cell as it was. *)
Theorem oddeven_sort_ctx_permutes {E Ctx : Type} (cmp : cmp_ctx_fn_t E Ctx)
        (pre run post : list E) (s : cstate Ctx) :
  exists run' s',
    oddeven_sort_ctx cmp (pre ++ run ++ post) (length pre) (length run) s
    = Some (pre ++ run' ++ post, s')
    /\ Permutation run run'.
Proof.
  destruct (oddeven_sort_ctx_safe cmp run 0 (length run) s ltac:(lia))
    as (run' & s' & Hs & _).
  exists run', s'. split.
  - exact (oddeven_sort_ctx_frame cmp pre run post (length run) s run' s' Hs).
  - exact (oddeven_sort_ctx_perm cmp _ _ _ _ _ _ Hs).
Qed.

(** X4.  With a consistent comparator the base-case sorter sorts a run of at
    most 7 elements inside a buffer, stably: the run it leaves is a
    permutation of the run it found, in order, with the elements the
    comparator calls equal in the order they had. *)
Theorem oddeven_sort_ctx_sorts_run {E Ctx : Type} (cmp : cmp_ctx_fn_t E Ctx)
        (c0 : Ctx) (pre run post : list E) (k : nat) :
  consistent cmp c0 -> length run <= 7 ->
  exists run' s',
    oddeven_sort_ctx cmp (pre ++ run ++ post) (length pre) (length run)
                     (CState c0 k)
    = Some (pre ++ run' ++ post, s')
    /\ sorted_from cmp c0 run run'.
Proof.
  intros Hc H7.
  destruct (oddeven_sort_ctx_sorts (answers cmp c0) c0 (answers_read_only cmp c0)
              (consistent_weak_order _ c0 (answers_consistent cmp c0 Hc))
              pre run post (length run) k eq_refl H7)
    as (run' & k' & Hrun & P & S & T).
  destruct (mrel_some cmp c0 _ _ (CState c0 k) (CState c0 k) _ _
              (mrel_oddeven_sort_ctx cmp c0 Hc _ _ _) (srel_start cmp c0 k) Hrun)
    as (s' & Hrun1 & _).
  exists run', s'. split; [exact Hrun1|]. split; [exact P|]. split; [exact S|exact T].
Qed.

Lemma oddeven_sort_ctx_sorts_run_witness :
  exists run' s',
    oddeven_sort_ctx counting_compare ([9] ++ [5; 1; 4; 1; 3; 2; 0] ++ [8])%Z
                     (length [9%Z]) (length [5; 1; 4; 1; 3; 2; 0]%Z) (CState 0 0)
    = Some (([9] ++ run' ++ [8])%Z, s')
    /\ sorted_from counting_compare 0 [5; 1; 4; 1; 3; 2; 0]%Z run'.
Proof.
  apply (oddeven_sort_ctx_sorts_run counting_compare 0 [9]%Z
           [5; 1; 4; 1; 3; 2; 0]%Z [8]%Z 0 counting_compare_consistent).
  cbn; lia.
Defined.

(** X5.  With a consistent comparator the parity merger, on two adjacent
    sorted runs of lengths [1 <= left <= right <= left + 1], writes their
    stable merge into the destination run: a permutation of the two runs, in
    order, with equal elements in the order they had (those of the left run
    first); the cells around the destination run are as they were, and the
    comparator was called [left + right] times. *)
Theorem parity_merge_ctx_merges {E Ctx : Type} (cmp : cmp_ctx_fn_t E Ctx)
        (c0 : Ctx) (sp sq dp dq l r old : list E) (k : nat) :
  consistent cmp c0 ->
  sorted (gtb_of cmp c0) l -> sorted (gtb_of cmp c0) r ->
  1 <= length l -> length l <= length r <= length l + 1 ->
  length old = length l + length r ->
  exists s',
    parity_merge_ctx cmp (sp ++ (l ++ r) ++ sq) (length sp) (dp ++ old ++ dq)
                     (length dp) (length l) (length r) (CState c0 k)
    = Some (dp ++ merge (gtb_of cmp c0) l r ++ dq, s')
    /\ sorted_from cmp c0 (l ++ r) (merge (gtb_of cmp c0) l r)
    /\ ncmp s' = k + length l + length r.
Proof.
  intros Hc Sl Sr H1 Hlr Hold.
  pose proof (consistent_weak_order cmp c0 Hc) as WO.
  pose proof (parity_merge_ctx_pure (answers cmp c0) c0 (answers_read_only cmp c0)
                sp sq dp dq l r old k H1 Hlr Hold) as H.
  change (gtb_of (answers cmp c0) c0) with (gtb_of cmp c0) in H.
  rewrite (parity_fronts (gtb_of cmp c0) WO l r Sl Sr) in H.
  destruct (mrel_some cmp c0 _ _ (CState c0 k) (CState c0 k) _ _
              (mrel_parity_merge_ctx cmp c0 Hc _ _ _ _ _ _) (srel_start cmp c0 k) H)
    as (s' & H' & (_ & _ & Hn)).
  exists s'. split; [exact H'|]. split; [|exact Hn].
  split; [apply merge_perm|]. split; [now apply merge_sorted|].
  intros e. now apply merge_stable.
Qed.

Lemma parity_merge_ctx_merges_witness :
  exists s',
    parity_merge_ctx key_compare
      ([] ++ ([(1, 0); (3, 1)] ++ [(1, 2); (2, 3); (3, 4)]) ++ [])%Z (length (@nil (Z * Z)))
      ([] ++ repeat (0, 0)%Z 5 ++ []) (length (@nil (Z * Z)))
      (length [(1, 0); (3, 1)]%Z) (length [(1, 2); (2, 3); (3, 4)]%Z) (CState tt 0)
    = Some ([] ++ merge (gtb_of key_compare tt) [(1, 0); (3, 1)]%Z
                         [(1, 2); (2, 3); (3, 4)]%Z ++ [], s')
    /\ sorted_from key_compare tt ([(1, 0); (3, 1)] ++ [(1, 2); (2, 3); (3, 4)])%Z
                   (merge (gtb_of key_compare tt) [(1, 0); (3, 1)]%Z
                          [(1, 2); (2, 3); (3, 4)]%Z)
    /\ ncmp s' = 0 + length [(1, 0); (3, 1)]%Z + length [(1, 2); (2, 3); (3, 4)]%Z.
Proof.
  apply (parity_merge_ctx_merges key_compare tt [] [] [] []
           [(1, 0); (3, 1)]%Z [(1, 2); (2, 3); (3, 4)]%Z (repeat (0, 0)%Z 5) 0
           key_compare_consistent).
  - repeat constructor.
  - repeat constructor.
  - cbn; lia.
  - cbn; lia.
  - reflexivity.
Defined.

(** X6.  Whatever the comparator answers, the parity merger, on runs of
    lengths [1 <= left <= right <= left + 1], overwrites every cell of the
    destination run with an element of the two source runs, and leaves the
    cells around the destination run as they were. *)
Theorem parity_merge_ctx_fills {E Ctx : Type} (cmp : cmp_ctx_fn_t E Ctx)
        (sp run sq dp old dq : list E) (left right : nat) (s : cstate Ctx) :
  1 <= left -> left <= right <= left + 1 ->
  length run = left + right -> length old = left + right ->
  exists out s',
    parity_merge_ctx cmp (sp ++ run ++ sq) (length sp) (dp ++ old ++ dq)
                     (length dp) left right s
    = Some (dp ++ out ++ dq, s')
    /\ length out = left + right
    /\ incl out run.
Proof.
  intros H1 Hlr Hrun Hold.
  destruct (parity_merge_ctx_cover cmp (fun x => In x run) sp run sq dp old dq
              left right s H1 Hlr Hrun Hold)
    as (out & s' & H & Hl & HP & _).
  { apply Forall_forall. auto. }
  exists out, s'. split; [exact H|]. split; [exact Hl|].
  intros x Hx. rewrite Forall_forall in HP. now apply HP.
Qed.

Lemma parity_merge_ctx_fills_witness :
  exists out s',
    parity_merge_ctx cyclic_compare ([7] ++ [0; 1; 2; 3; 1] ++ [])%Z (length [7%Z])
                     ([] ++ [9; 9; 9; 9; 9] ++ [6])%Z (length (@nil Z)) 2 3
                     (CState tt 0)
    = Some (([] ++ out ++ [6])%Z, s')
    /\ length out = 2 + 3
    /\ incl out [0; 1; 2; 3; 1]%Z.
Proof.
  apply (parity_merge_ctx_fills cyclic_compare [7]%Z [0; 1; 2; 3; 1]%Z []
           [] [9; 9; 9; 9; 9]%Z [6]%Z 2 3 (CState tt 0)); cbn; lia.
Defined.

(** X7.  With a consistent comparator the merge-decision phase, on a run of
    at least 8 elements whose four quarters are sorted, leaves the run
    sorted, stably, whichever of its three paths it takes; it touches no
    other cell of the array and keeps the length of the auxiliary buffer. *)
Theorem merge_phase_sorts {E Ctx : Type} (cmp : cmp_ctx_fn_t E Ctx) (c0 : Ctx)
        (pre A B C D post w : list E) (n k : nat) :
  consistent cmp c0 -> 8 <= n -> n <= length w ->
  length A = q1 (partition_array n) -> length B = q2 (partition_array n) ->
  length C = q3 (partition_array n) -> length D = q4 (partition_array n) ->
  sorted (gtb_of cmp c0) A -> sorted (gtb_of cmp c0) B ->
  sorted (gtb_of cmp c0) C -> sorted (gtb_of cmp c0) D ->
  exists p run' w' s',
    merge_phase cmp (pre ++ A ++ B ++ C ++ D ++ post) w (length pre) n
                (partition_array n) (CState c0 k)
    = Some (p, pre ++ run' ++ post, w', s')
    /\ sorted_from cmp c0 (A ++ B ++ C ++ D) run'
    /\ length w' = length w.
Proof.
  intros Hc H8 Hw HA HB HC HD SA SB SC SD.
  pose proof (consistent_weak_order cmp c0 Hc) as WO.
  pose proof (partition_array_sizes n) as Hsz.
  pose proof (partition_array_large n H8) as Hlg.
  cbv zeta in Hsz, Hlg.
  destruct Hsz as (Hlh & Hrh & Hnn & Hq12 & Hq34 & Hlr).
  destruct Hlg as (Hq1 & Hq3 & Hl4).
  destruct (merge_phase_pure (answers cmp c0) c0 (answers_read_only cmp c0)
              pre post A B C D (partition_array n) n HA HB HC HD Hlh Hrh Hnn
              ltac:(lia) ltac:(lia) Hlr w k Hw)
    as (w' & Hph & Lw & _).
  change (gtb_of (answers cmp c0) c0) with (gtb_of cmp c0) in Hph.
  destruct (mrel_some cmp c0 _ _ (CState c0 k) (CState c0 k) _ _
              (mrel_merge_phase cmp c0 Hc _ _ _ _ _) (srel_start cmp c0 k) Hph)
    as (s' & Hph1 & _).
  destruct (phase_spec (gtb_of cmp c0) A B C D) as [[p run'] cnt] eqn:Hspec.
  cbn [fst snd] in Hph1.
  exists p, run', w', s'. split; [exact Hph1|]. split; [|exact Lw].
  apply (phase_spec_sorts (gtb_of cmp c0) WO A B C D) with (p := p) (n := cnt);
    try assumption; apply nonempty_length; lia.
Qed.

Lemma merge_phase_sorts_witness :
  exists p run' w' s',
    merge_phase z_compare
      ([9] ++ [1; 5] ++ [2; 6] ++ [0; 3] ++ [4; 7] ++ [8])%Z (repeat 0%Z 8)
      (length [9%Z]) 8 (partition_array 8) (CState tt 0)
    = Some (p, ([9] ++ run' ++ [8])%Z, w', s')
    /\ sorted_from z_compare tt ([1; 5] ++ [2; 6] ++ [0; 3] ++ [4; 7])%Z run'
    /\ length w' = length (repeat 0%Z 8).
Proof.
  apply (merge_phase_sorts z_compare tt [9]%Z [1; 5]%Z [2; 6]%Z [0; 3]%Z [4; 7]%Z
           [8]%Z (repeat 0%Z 8) 8 0 z_compare_consistent);
    try (cbn; lia); try reflexivity;
    repeat constructor.
Defined.

(** X8.  With a consistent comparator [xsort] returns the one arrangement of
    the input that is in order and keeps equal elements in their order: any
    list that is such an arrangement is the array the call returns, whatever
    the auxiliary buffer held. *)
Theorem xsort_is_the_stable_sort {E Ctx : Type} (cmp : cmp_ctx_fn_t E Ctx)
        (c0 : Ctx) (junk l m : list E) (fuel : nat) :
  consistent cmp c0 -> length junk = length l -> 2 * length l + 1 <= fuel ->
  Permutation l m ->
  (forall i x y, nth_error m i = Some x -> nth_error m (S i) = Some y ->
                 (fst (cmp x y c0) <= 0)%Z) ->
  (forall e, filter (fun x => (fst (cmp e x c0) =? 0)%Z) m
             = filter (fun x => (fst (cmp e x c0) =? 0)%Z) l) ->
  exists s', xsort cmp fuel junk l (length l) c0 = Done m s'.
Proof.
  intros Hc Hj Hf P S T.
  pose proof (consistent_weak_order cmp c0 Hc) as WO.
  destruct (xsort_returns_arrangement cmp c0 Hc junk l m fuel Hj Hf)
    as (s' & Hrun & _).
  { split; [exact P|]. split.
    - apply (adjacent_sorted _ WO). intros i x y Hx Hy.
      apply (gtb_of_false cmp c0). exact (S i x y Hx Hy).
    - intros e.
      rewrite (filter_ext _ _ (eqvb_zero cmp c0 Hc e) m).
      rewrite (filter_ext _ _ (eqvb_zero cmp c0 Hc e) l).
      apply T. }
  exists s'. exact Hrun.
Qed.

Lemma xsort_is_the_stable_sort_witness :
  exists s',
    xsort key_compare 19 (repeat (7, 7)%Z 9)
          [(1, 0); (1, 1); (0, 2); (1, 3); (0, 4); (2, 5); (0, 6); (1, 7); (2, 8)]%Z
          9 tt
    = Done [(0, 2); (0, 4); (0, 6); (1, 0); (1, 1); (1, 3); (1, 7); (2, 5); (2, 8)]%Z
           s'.
Proof.
  apply (xsort_is_the_stable_sort key_compare tt (repeat (7, 7)%Z 9)
           [(1, 0); (1, 1); (0, 2); (1, 3); (0, 4); (2, 5); (0, 6); (1, 7); (2, 8)]%Z
           [(0, 2); (0, 4); (0, 6); (1, 0); (1, 1); (1, 3); (1, 7); (2, 5); (2, 8)]%Z
           19 key_compare_consistent).
  - reflexivity.
  - cbn; lia.
  - apply (Permutation_trans (l' := [(0, 2); (1, 0); (1, 1); (1, 3); (0, 4); (2, 5);
                                     (0, 6); (1, 7); (2, 8)]%Z)).
    + change (Permutation ([(1, 0); (1, 1)] ++ (0, 2) :: [(1, 3); (0, 4); (2, 5);
                             (0, 6); (1, 7); (2, 8)])%Z
                          ((0, 2) :: [(1, 0); (1, 1)] ++ [(1, 3); (0, 4); (2, 5);
                             (0, 6); (1, 7); (2, 8)])%Z).
      symmetry. apply Permutation_middle.
    + apply perm_skip.
      apply (Permutation_trans (l' := [(0, 4); (1, 0); (1, 1); (1, 3); (2, 5);
                                       (0, 6); (1, 7); (2, 8)]%Z)).
      * change (Permutation ([(1, 0); (1, 1); (1, 3)] ++ (0, 4) :: [(2, 5);
                               (0, 6); (1, 7); (2, 8)])%Z
                            ((0, 4) :: [(1, 0); (1, 1); (1, 3)] ++ [(2, 5);
                               (0, 6); (1, 7); (2, 8)])%Z).
        symmetry. apply Permutation_middle.
      * apply perm_skip.
        apply (Permutation_trans (l' := [(0, 6); (1, 0); (1, 1); (1, 3); (2, 5);
                                         (1, 7); (2, 8)]%Z)).
        -- change (Permutation ([(1, 0); (1, 1); (1, 3); (2, 5)] ++ (0, 6) ::
                                 [(1, 7); (2, 8)])%Z
                               ((0, 6) :: [(1, 0); (1, 1); (1, 3); (2, 5)] ++
                                 [(1, 7); (2, 8)])%Z).
           symmetry. apply Permutation_middle.
        -- do 4 apply perm_skip. apply perm_swap.
  - intros i x y Hx Hy.
    do 9 (destruct i as [|i]; [cbn in Hx, Hy; inversion Hx; inversion Hy;
                               subst; cbn; lia|]).
    destruct i; discriminate Hy.
  - intros e. destruct e as [e1 e2]. cbn.
    destruct (Z.compare_spec e1 0); [subst; reflexivity| |];
    destruct (Z.compare_spec e1 1); try (subst; reflexivity); try lia;
    destruct (Z.compare_spec e1 2); try (subst; reflexivity); try lia;
    reflexivity.
Defined.

(** X9.  Sorting is idempotent: with a consistent comparator, a second call
    on the array the first call returned, with the context the first call
    left behind, returns the same array. *)
Theorem xsort_idempotent {E Ctx : Type} (cmp : cmp_ctx_fn_t E Ctx) (c0 : Ctx)
        (junk junk2 l : list E) (fuel : nat) :
  consistent cmp c0 -> length junk = length l -> length junk2 = length l ->
  2 * length l + 1 <= fuel ->
  exists l' s' s'',
    xsort cmp fuel junk l (length l) c0 = Done l' s'
    /\ xsort cmp fuel junk2 l' (length l') (ctx s') = Done l' s''.
Proof.
  intros Hc Hj Hj2 Hf.
  destruct (xsort_sorted_ctx cmp c0 Hc junk l fuel Hj Hf)
    as (l' & s' & Hrun & (P & S & T) & Hr).
  pose proof (Permutation_length P) as Hl.
  destruct (xsort_returns_arrangement cmp (ctx s') (consistent_reach cmp c0 Hc _ Hr)
              junk2 l' l' fuel ltac:(lia) ltac:(lia))
    as (s'' & Hrun2 & _).
  { split; [reflexivity|]. split; [|intros e; reflexivity].
    exact (sorted_reach cmp c0 Hc (ctx s') l' Hr S). }
  exists l', s', s''. split; assumption.
Qed.

Lemma xsort_idempotent_witness :
  exists l' s' s'',
    xsort counting_compare 21 (repeat 0%Z 10) [5; 3; 1; 4; 2; 9; 8; 7; 6; 0]%Z 10 0
    = Done l' s'
    /\ xsort counting_compare 21 (repeat 1%Z 10) l' (length l') (ctx s')
       = Done l' s''.
Proof.
  apply (xsort_idempotent counting_compare 0 (repeat 0%Z 10) (repeat 1%Z 10)
           [5; 3; 1; 4; 2; 9; 8; 7; 6; 0]%Z 21 counting_compare_consistent);
    [reflexivity|reflexivity|cbn; lia].
Defined.

(** X10.  For every element count that fits a 64-bit word, no subtraction of
    the partitioner wraps: the descriptor computed on 64-bit words is the
    one computed on natural numbers, [lh = n / 2], [rh = n - lh],
    [q1 = lh / 2], [q2 = lh - q1], [q3 = rh / 2], [q4 = rh - q3]. *)
Theorem partition_array_no_wrap (n : nat) :
  (Z.of_nat n < 2 ^ 64)%Z ->
  partition_array_w (Z.of_nat n)
  = (Z.of_nat (n / 2), Z.of_nat (n / 2 / 2), Z.of_nat (n / 2 - n / 2 / 2),
     Z.of_nat (n - n / 2), Z.of_nat ((n - n / 2) / 2),
     Z.of_nat (n - n / 2 - (n - n / 2) / 2))
  /\ partition_array n
     = Segment (n / 2) (n / 2 / 2) (n / 2 - n / 2 / 2)
               (n - n / 2) ((n - n / 2) / 2) (n - n / 2 - (n - n / 2) / 2).
Proof.
  intros Hn. split; [|reflexivity].
  exact (partition_array_w_exact n Hn).
Qed.

Lemma partition_array_no_wrap_witness :
  partition_array_w (Z.of_nat 11)
  = (Z.of_nat (11 / 2), Z.of_nat (11 / 2 / 2), Z.of_nat (11 / 2 - 11 / 2 / 2),
     Z.of_nat (11 - 11 / 2), Z.of_nat ((11 - 11 / 2) / 2),
     Z.of_nat (11 - 11 / 2 - (11 - 11 / 2) / 2))
  /\ partition_array 11
     = Segment (11 / 2) (11 / 2 / 2) (11 / 2 - 11 / 2 / 2)
               (11 - 11 / 2) ((11 - 11 / 2) / 2) (11 - 11 / 2 - (11 - 11 / 2) / 2).
Proof.
  apply (partition_array_no_wrap 11). cbn. lia.
Defined.

(** X11.  In a call on an element count that fits a 64-bit word the frame
    stack never holds more than 62 frames: the test at the head of the loop
    never finds it near its 128 cells, so the stack is never reallocated
    ([xrealloc] is never called) and [frame_capacity] stays 128. *)
Theorem xsort_stack_bounded {E Ctx : Type} (cmp : cmp_ctx_fn_t E Ctx)
        (junk ptr : list E) (n : nat) (arg : Ctx) (k : nat)
        (c : config (E := E)) (s : cstate Ctx) :
  (Z.of_nat n < 2 ^ 64)%Z ->
  steps cmp k (xsort_init junk ptr n) (CState arg 0) = Some (c, s) ->
  length (stk c) <= 62 /\ frame_capacity c = 128.
Proof.
  intros Hn H.
  assert (H0 : stack_ok n (xsort_init junk ptr n)).
  { split; [|split; [apply xsort_init_frame_ok|reflexivity]].
    constructor. cbn. lia. }
  destruct (steps_stack_ok cmp n Hn k _ _ _ _ H0 H) as (Hch & _ & Hcap).
  split; [|exact Hcap]. exact (chained_length n Hn _ Hch).
Qed.

Lemma xsort_stack_bounded_witness :
  let c := Config [Frame 2 2 (partition_array 9) ret_addr_0;
                   Frame 0 9 (partition_array 9) ret_addr_2] 128
                  [8; 9; 7; 6; 5; 4; 3; 2; 1]%Z (repeat 0%Z 9) in
  length (stk c) <= 62 /\ frame_capacity c = 128.
Proof.
  apply (xsort_stack_bounded z_compare (repeat 0%Z 9)
           [9; 8; 7; 6; 5; 4; 3; 2; 1]%Z 9 tt 3 _ (CState tt 1)).
  - cbn. lia.
  - vm_compute. reflexivity.
Defined.

(** X12.  Whatever the comparator answers, the base-case sorter on a run of
    [elements] cells inside the buffer returns after at most
    [elements * (elements / 2)] comparator calls (21 for the 7 elements the
    engine hands it at most). *)
Theorem oddeven_sort_ctx_calls {E Ctx : Type} (cmp : cmp_ctx_fn_t E Ctx)
        (b : list E) (seg elements : nat) (s : cstate Ctx) :
  seg + elements <= length b ->
  exists b' s',
    oddeven_sort_ctx cmp b seg elements s = Some (b', s')
    /\ ncmp s' <= ncmp s + elements * (elements / 2).
Proof.
  intros Hb.
  destruct (oddeven_sort_ctx_safe cmp b seg elements s Hb) as (b' & s' & H & _).
  exists b', s'. split; [exact H|].
  exact (oddeven_sort_ctx_cost cmp b seg elements s b' s' H).
Qed.

Lemma oddeven_sort_ctx_calls_witness :
  exists b' s',
    oddeven_sort_ctx cyclic_compare [9; 3; 1; 0; 2; 1; 3; 0; 8]%Z 1 7 (CState tt 0)
    = Some (b', s')
    /\ ncmp s' <= 0 + 7 * (7 / 2).
Proof.
  apply (oddeven_sort_ctx_calls cyclic_compare [9; 3; 1; 0; 2; 1; 3; 0; 8]%Z 1 7
                                (CState tt 0)).
  cbn; lia.
Defined.

(** X13.  Whatever the comparator answers, a call of [xsort] on [n] elements
    invokes it at most [3 * n * (1 + log2 n)] times, [log2] rounded down. *)
Theorem xsort_calls {E Ctx : Type} (cmp : cmp_ctx_fn_t E Ctx) (c : Ctx)
        (junk l : list E) (fuel : nat) :
  length junk = length l -> 2 * length l + 1 <= fuel ->
  exists l' s',
    xsort cmp fuel junk l (length l) c = Done l' s'
    /\ ncmp s' <= 3 * length l * (1 + Nat.log2 (length l)).
Proof.
  intros Hj Hf.
  destruct (xsort_returns cmp junk l c Hj) as (d' & w' & s' & k & Hs & _ & Hrun).
  exists d', s'. split; [exact (Hrun fuel Hf)|].
  apply (sorts_cost cmp) in Hs; cbn [ncmp] in Hs; lia.
Qed.

Lemma xsort_calls_witness :
  exists l' s',
    xsort cyclic_compare 25 (repeat 0%Z 12) [3; 0; 2; 1; 3; 1; 0; 2; 1; 3; 0; 2]%Z
          12 tt
    = Done l' s'
    /\ ncmp s' <= 3 * 12 * (1 + Nat.log2 12).
Proof.
  apply (xsort_calls cyclic_compare tt (repeat 0%Z 12)
           [3; 0; 2; 1; 3; 1; 0; 2; 1; 3; 0; 2]%Z 25); [reflexivity|cbn; lia].
Defined.

(** X14.  The result of a call does not depend on what the freshly
    allocated auxiliary buffer happens to hold: whatever the comparator
    answers, two calls that differ only in the initial contents of [swap]
    return the same array and leave the comparator in the same state, after
    the same number of calls to it. *)
Theorem xsort_ignores_junk {E Ctx} (cmp : cmp_ctx_fn_t E Ctx)
        (junk1 junk2 l : list E) (c : Ctx) (fuel : nat) :
  length junk1 = length l -> length junk2 = length l ->
  2 * length l + 1 <= fuel ->
  exists l' s',
    xsort cmp fuel junk1 l (length l) c = Done l' s'
    /\ xsort cmp fuel junk2 l (length l) c = Done l' s'.
Proof.
  intros H1 H2 Hf.
  destruct (xsort_returns cmp junk1 l c H1) as (d' & w' & s' & k & Hs & Ld & Hrun).
  exists d', s'. split; [exact (Hrun fuel Hf)|].
  destruct (sorts_indep cmp _ _ _ _ _ _ _ _ _ Hs ltac:(lia) ltac:(lia) junk2
              ltac:(lia)) as (v' & Hs2 & _).
  destruct (xsort_returns cmp junk2 l c H2) as (d2 & w2 & s2 & k2 & _ & _ & Hrun2).
  rewrite (Hrun2 fuel Hf).
  destruct (sorts_simulates cmp _ _ _ _ _ _ _ _ _ Hs2 [] 128 (Segment 0 0 0 0 0 0))
    as (cap1 & _ & St1); [cbn; lia|].
  pose proof (Hrun2 (k + (2 * length l + 1)) ltac:(lia)) as R.
  unfold xsort, xsort_init in R.
  rewrite (run_steps cmp k _ _ _ _ _ St1) in R.
  rewrite Nat.add_1_r in R. cbn [run stk] in R.
  symmetry. exact R.
Qed.

Lemma xsort_ignores_junk_witness :
  exists l' s',
    xsort z_compare 9 [7; 7; 7; 7]%Z [3; 1; 2; 0]%Z 4 tt = Done l' s'
    /\ xsort z_compare 9 [0; 0; 0; 0]%Z [3; 1; 2; 0]%Z 4 tt = Done l' s'.
Proof.
  apply (xsort_ignores_junk z_compare [7; 7; 7; 7]%Z [0; 0; 0; 0]%Z
           [3; 1; 2; 0]%Z tt 9); cbn; lia.
Defined.
